(** * pmgrUtils: a shallow embedding of [pmgr/OBSOLETE/pmgrUtils.py]

  The file follows the Python module function by function.  Python
  strings are [string]s whose characters are code points below 256,
  Python sets are [gset]s, dictionaries are [gmap]s.  The helpers of
  [utilsPlus] (imported as [utlp]) are not part of the sources: they are
  either parameters of a section or small models, each marked as such. *)

From Stdlib Require Import ZArith String Ascii List Lia Bool.
From stdpp Require Import base option gmap strings list sorting pretty.

Local Open Scope Z_scope.

(** ** Python primitives used by the module *)

Module Py.

(** [c in s] for a one-character [c]. *)
Fixpoint contains (c : ascii) (s : string) : bool :=
  match s with
  | EmptyString => false
  | String a s' => if Ascii.eqb a c then true else contains c s'
  end.

(** [s.split(c)] for a one-character separator: never empty. *)
Fixpoint split_on (c : ascii) (s : string) : list string :=
  match s with
  | EmptyString => [EmptyString]
  | String a s' =>
      if Ascii.eqb a c then EmptyString :: split_on c s'
      else match split_on c s' with
           | p :: ps => String a p :: ps
           | [] => [String a EmptyString]
           end
  end.

(** [s[-2:]]: the last two characters, or all of [s] when it is shorter. *)
Definition last2 (s : string) : string :=
  String.substring (String.length s - 2)%nat 2 s.

(** White space as [int()] sees it on code points below 256. *)
Definition is_space (c : ascii) : bool :=
  let n := N_of_ascii c in
  ((9 <=? n) && (n <=? 13) || (n =? 32) || (n =? 133) || (n =? 160))%N.

Definition is_digit (c : ascii) : bool :=
  let n := N_of_ascii c in ((48 <=? n) && (n <=? 57))%N.

Definition digit_val (c : ascii) : Z := Z.of_N (N_of_ascii c) - 48.

Fixpoint lstrip (l : list ascii) : list ascii :=
  match l with
  | c :: l' => if is_space c then lstrip l' else l
  | [] => []
  end.

Definition strip (l : list ascii) : list ascii :=
  rev (lstrip (rev (lstrip l))).

(** Decimal digits with single underscores allowed between two digits. *)
Fixpoint digits (acc : Z) (after_digit : bool) (l : list ascii) : option Z :=
  match l with
  | [] => if after_digit then Some acc else None
  | c :: l' =>
      if is_digit c then digits (10 * acc + digit_val c) true l'
      else if Ascii.eqb c "_"%char
           then (if after_digit then digits acc false l' else None)
           else None
  end.

(** [int(s)]: [None] stands for [ValueError]. *)
Definition int (s : string) : option Z :=
  match strip (list_ascii_of_string s) with
  | c :: l =>
      if Ascii.eqb c "-"%char then Z.opp <$> digits 0 false l
      else if Ascii.eqb c "+"%char then digits 0 false l
      else digits 0 false (c :: l)
  | [] => None
  end.

(** [f"{z:02}"]: sign-aware zero padding to width two. *)
Definition fmt02 (z : Z) : string :=
  if z <? 0 then "-" +:+ pretty (Z.to_N (- z))
  else if z <? 10 then "0" +:+ pretty (Z.to_N z)
  else pretty (Z.to_N z).

(** [list(s); .sort()] on a set of strings. *)
Definition sorted (s : gset string) : list string :=
  merge_sort String.le (elements s).

End Py.

(** ** Identifier expansion: [parsePVArguments] *)

(** [utlp.getBasePV] is called on the whole token list and on single
  tokens. *)
Inductive PyArg :=
| AStr (s : string)
| AList (l : list string).

Section Expansion.

(** [utlp.getBasePV]: [None] is Python's [None]. *)
Variable getBasePV : PyArg -> option string.

(** [not basePV]. *)
Definition falsy_base (b : option string) : bool :=
  match b with
  | None => true
  | Some s => String.eqb s ""
  end.

(** The [while start <= end] loop, [n] being the number of turns left. *)
Fixpoint expand (basePV : string) (start : Z) (n : nat) (PVs : gset string)
  : gset string :=
  match n with
  | O => PVs
  | S n' => expand basePV (start + 1) n' ({[basePV +:+ Py.fmt02 start]} ∪ PVs)
  end.

Definition while_range (basePV : string) (start end_ : Z) (PVs : gset string)
  : gset string :=
  expand basePV start (Z.to_nat (end_ + 1 - start)) PVs.

Definition add_if_base (basePV arg : string) (PVs : gset string) : gset string :=
  if decide (getBasePV (AStr arg) = Some basePV) then {[arg]} ∪ PVs else PVs.

(** One turn of [for arg in PVArguments], the [try] with its bare
    [except: pass] included: what was added before an exception stays. *)
Definition token_step (basePV : string) (PVs : gset string) (arg : string)
  : gset string :=
  if Py.contains "-"%char arg then
    match Py.split_on "-"%char arg with
    | p0 :: p1 :: _ =>
        let PVs1 := add_if_base basePV p0 PVs in
        match Py.int (Py.last2 p0) with
        | None => PVs1
        | Some start =>
            match Py.int p1 with
            | None => PVs1
            | Some end_ => while_range basePV start end_ PVs1
            end
        end
    | _ => PVs
    end
  else if (3 <? String.length arg)%nat then add_if_base basePV arg PVs
  else if (String.length arg <? 3)%nat then
    match Py.int arg with
    | Some n => {[basePV +:+ Py.fmt02 n]} ∪ PVs
    | None => PVs
    end
  else PVs.

Definition collect (basePV : string) (PVs : gset string) (args : list string)
  : gset string :=
  fold_left (token_step basePV) args PVs.

Definition parsePVArguments (PVArguments : list string) : option (list string) :=
  if (length PVArguments =? 0)%nat then None
  else
    let basePV := getBasePV (AList PVArguments) in
    if falsy_base basePV then None
    else
      match basePV with
      | Some b => Some (Py.sorted (collect b ∅ PVArguments))
      | None => None
      end.

End Expansion.

(** An instance of [getBasePV] for concrete runs.
  Modelled from the spec: "derive one shared base identifier from the
  first token that yields a valid base"; [utilsPlus.getBasePV] is not
  part of the sources.  The usage text of the module gives the shape
  of a base: [SXR:EXP:MMS:01-05 10] stands for motors [SXR:EXP:MMS:01]
  to [SXR:EXP:MMS:05] and [SXR:EXP:MMS:10], so the base of a token is
  its prefix up to and including the last colon. *)
Fixpoint base_of (s : string) : option string :=
match s with
| EmptyString => None
| String a s' =>
    match base_of s' with
    | Some b => Some (String a b)
    | None => if Ascii.eqb a ":"%char then Some (String a EmptyString) else None
    end
end.

Fixpoint first_base (l : list string) : option string :=
match l with
| [] => None
| s :: l' => match base_of s with Some b => Some b | None => first_base l' end
end.

Definition getBasePV_colon (a : PyArg) : option string :=
match a with
| AStr s => base_of s
| AList l => first_base l
end.


(** ** Python values, dictionaries and the registry *)

(** The values held by the field dictionaries of the module. *)
Inductive PyVal :=
| VNone
| VInt (z : Z)
| VStr (s : string).

#[global] Instance PyVal_eq_dec : EqDecision PyVal.
Proof. solve_decision. Defined.

(** [if v:] *)
Definition truthy (v : PyVal) : bool :=
  match v with
  | VNone => false
  | VInt z => negb (z =? 0)
  | VStr s => negb (String.eqb s "")
  end.

(** [str(v)] and ["{}".format(v)] *)
Definition py_str (v : PyVal) : string :=
  match v with
  | VNone => "None"
  | VInt z => pretty z
  | VStr s => s
  end.

(** [s.upper()] and [s.lower()] on ASCII letters; the names and hutch
    labels of the module are ASCII. *)
Definition upper_ascii (c : ascii) : ascii :=
  let n := N_of_ascii c in
  if ((97 <=? n) && (n <=? 122))%N then ascii_of_N (n - 32) else c.

Definition lower_ascii (c : ascii) : ascii :=
  let n := N_of_ascii c in
  if ((65 <=? n) && (n <=? 90))%N then ascii_of_N (n + 32) else c.

Fixpoint upper (s : string) : string :=
  match s with
  | EmptyString => EmptyString
  | String c s' => String (upper_ascii c) (upper s')
  end.

(** A field dictionary, and a table of them keyed by record id. *)
Abbreviation Dict := (gmap string PyVal).
Abbreviation Table := (gmap Z Dict).

(** [t[k]]: the ids are integers, any other key is a [KeyError]. *)
Definition tbl_get (t : Table) (k : PyVal) : option Dict :=
  match k with
  | VInt z => t !! z
  | _ => None
  end.

(** [t[k][f] = v] through an alias of [t[k]]. *)
Definition tbl_set_field (t : Table) (k : PyVal) (f : string) (v : PyVal) : Table :=
  match k with
  | VInt z => alter (insert f v) z t
  | _ => t
  end.

(** The persistent side of a registry: object and configuration records. *)
Record DB := mkDB {
  db_objs : Table;
  db_cfgs : Table
}.

(** A [pmgr] object: which registry it talks to, and its cached views
    [pmgr.objs] and [pmgr.cfgs]. *)
Record Pmgr := mkPmgr {
  p_type : string;
  p_hutch : string;
  objs : Table;
  cfgs : Table
}.

Definition key (p : Pmgr) : string * string := (p_type p, p_hutch p).

Definition with_objs (p : Pmgr) (t : Table) : Pmgr :=
  mkPmgr (p_type p) (p_hutch p) t (cfgs p).

Definition with_cfgs (p : Pmgr) (t : Table) : Pmgr :=
  mkPmgr (p_type p) (p_hutch p) (objs p) t.

(** What a call into the registry client does: it works, it fails with a
    falsy result, or it raises. *)
Inductive Outcome := Works | Fails | Raises.

Inductive View := Objs | Cfgs.

Inductive WriteOp :=
| ObjectChange (id : PyVal) (d : Dict)
| ConfigChange (id : PyVal) (d : Dict)
| ObjectNew (d : Dict)
| ConfigNew (d : Dict)
| ObjectLink (obj cfg : PyVal).

(** The calls that matter for the order of effects. *)
Inductive Event :=
| EWrite (k : string * string) (op : WriteOp)
| ERefresh (k : string * string)
| ERead (k : string * string) (v : View)
| EApply (k : string * string) (obj : PyVal)
| EDiff (report : string).

#[global] Instance View_eq_dec : EqDecision View.
Proof. solve_decision. Defined.
#[global] Instance WriteOp_eq_dec : EqDecision WriteOp.
Proof. solve_decision. Defined.
#[global] Instance Event_eq_dec : EqDecision Event.
Proof. solve_decision. Defined.

(** A reference to a [pmgr] object: the objects are shared and changed
    in place, so they live in a heap. *)
Abbreviation Ref := nat.

(** The state of a run: the registries by device type and hutch, the
    [pmgr] objects made so far, the live process variables, the calls
    made so far, the outcomes of the registry calls to come and the
    lines waiting on the terminal. *)
Record World := mkWorld {
  dbs : gmap (string * string) DB;
  heap : list Pmgr;
  live : gmap string PyVal;
  log : list Event;
  script : list Outcome;
  stdin : list string
}.

Definition with_dbs (w : World) (d : gmap (string * string) DB) : World :=
  mkWorld d (heap w) (live w) (log w) (script w) (stdin w).
Definition with_heap (w : World) (h : list Pmgr) : World :=
  mkWorld (dbs w) h (live w) (log w) (script w) (stdin w).
Definition with_live (w : World) (l : gmap string PyVal) : World :=
  mkWorld (dbs w) (heap w) l (log w) (script w) (stdin w).
Definition with_log (w : World) (l : list Event) : World :=
  mkWorld (dbs w) (heap w) (live w) l (script w) (stdin w).
Definition with_script (w : World) (s : list Outcome) : World :=
  mkWorld (dbs w) (heap w) (live w) (log w) s (stdin w).
Definition with_stdin (w : World) (s : list string) : World :=
  mkWorld (dbs w) (heap w) (live w) (log w) (script w) s.

(** ** A state and exception monad

    An exception keeps the effects made before it, as in Python. *)
Inductive Res (A : Type) :=
| Val (a : A)
| Exn.
Arguments Val {A} a.
Arguments Exn {A}.

Definition M (A : Type) : Type := World -> Res A * World.

#[global] Instance M_ret : MRet M := fun A a w => (Val a, w).

#[global] Instance M_bind : MBind M := fun A B f m w =>
  match m w with
  | (Val a, w') => f a w'
  | (Exn, w') => (Exn, w')
  end.

Definition raise {A} : M A := fun w => (Exn, w).

(** [try: m except: h] with a bare [except]. *)
Definition try_except {A} (m h : M A) : M A := fun w =>
  match m w with
  | (Val a, w') => (Val a, w')
  | (Exn, w') => h w'
  end.

Definition emit (e : Event) : M unit := fun w =>
  (Val tt, with_log w (log w ++ [e])).

Definition get_world : M World := fun w => (Val w, w).

(** The outcome of the next registry call; calls work once the script
    is used up. *)
Definition attempt : M Outcome := fun w =>
  match script w with
  | [] => (Val Works, w)
  | o :: s => (Val o, with_script w s)
  end.

(** [d[f]] with its [KeyError]. *)
Definition dict_get (d : Dict) (f : string) : M PyVal :=
  match d !! f with
  | Some v => mret v
  | None => raise
  end.

(** A method of [str] called on a value: [AttributeError] on the rest. *)
Definition as_str (v : PyVal) : M string :=
  match v with
  | VStr s => mret s
  | _ => raise
  end.

(** [pv.get(name)]; a process variable that does not answer raises. *)
Definition pv_get (name : string) : M PyVal := fun w =>
  match live w !! name with
  | Some v => (Val v, w)
  | None => (Exn, w)
  end.

(** [raw_input(prompt)]; the end of the input raises. *)
Definition raw_input : M string := fun w =>
  match stdin w with
  | [] => (Exn, w)
  | l :: ls => (Val l, with_stdin w ls)
  end.

(** The object behind a reference, and its replacement. *)
Definition deref (r : Ref) : M Pmgr := fun w =>
  match heap w !! r with
  | Some p => (Val p, w)
  | None => (Exn, w)
  end.

Definition store (r : Ref) (p : Pmgr) : M unit := fun w =>
  (Val tt, with_heap w (<[r := p]> (heap w))).

Definition alloc (p : Pmgr) : M Ref := fun w =>
  (Val (length (heap w)), with_heap w (heap w ++ [p])).

(** [pmgr.objs[k]] and [pmgr.cfgs[k]] *)
Definition read_objs (r : Ref) (k : PyVal) : M Dict :=
  p ← deref r;
  _ ← emit (ERead (key p) Objs);
  match tbl_get (objs p) k with
  | Some d => mret d
  | None => raise
  end.

Definition read_cfgs (r : Ref) (k : PyVal) : M Dict :=
  p ← deref r;
  _ ← emit (ERead (key p) Cfgs);
  match tbl_get (cfgs p) k with
  | Some d => mret d
  | None => raise
  end.

(** [obj[f] = v] and [cfg[f] = v] where [obj] is [pmgr.objs[k]] and
    [cfg] is [pmgr.cfgs[k]]: the cached view changes with them. *)
Definition set_obj_field (r : Ref) (k : PyVal) (f : string) (v : PyVal) : M unit :=
  p ← deref r;
  store r (with_objs p (tbl_set_field (objs p) k f v)).

Definition set_cfg_field (r : Ref) (k : PyVal) (f : string) (v : PyVal) : M unit :=
  p ← deref r;
  store r (with_cfgs p (tbl_set_field (cfgs p) k f v)).

(** ** The registry client

    [pmgrobj] and the wrappers of [utilsPlus] around it are not part of
    the sources; the definitions of this part follow section 6 of the
    specification. *)

(** The id given to a new record: one more than the largest id of the
    table, so never [0], which Python takes as false. *)
Definition new_id (t : Table) : Z :=
  1 + map_fold (fun k _ acc => Z.max k acc) 0 t.

Definition set_db (k : string * string) (d : DB) : M unit := fun w =>
  (Val tt, with_dbs w (<[k := d]> (dbs w))).

(** Modelled from the spec: "refresh()", the method [pmgr.updateTables]
    of the missing [pmgrobj]; "must be explicitly refreshed after any
    mutation before re-reading derived views": the cached views are the
    records of the registry as they are at the time of the call. *)
Definition updateTables (r : Ref) : M unit :=
  p ← deref r;
  _ ← emit (ERefresh (key p));
  w ← get_world;
  match dbs w !! key p with
  | Some d => store r (mkPmgr (p_type p) (p_hutch p) (db_objs d) (db_cfgs d))
  | None => raise
  end.

(** Modelled from the spec: "open(deviceType, domain) -> Registry", the
    missing [utlp.getPmgr]; [None] when there is no such registry.  A new
    [pmgr] object starts with fresh views. *)
Definition getPmgr (objType hutch : string) : M (option Ref) :=
  w ← get_world;
  match dbs w !! (objType, hutch) with
  | Some d =>
      _ ← emit (ERefresh (objType, hutch));
      r ← alloc (mkPmgr objType hutch (db_objs d) (db_cfgs d));
      mret (Some r)
  | None => mret None
  end.

(** The body of a mutating call: the call is logged, then it works,
    fails or raises as the script says; a call that does not work
    leaves the registry as it was ("each create/update call against the
    registry is its own atomic unit"). *)
Definition mutate {A} (r : Ref) (op : WriteOp) (failed : A)
    (run : DB -> option (DB * A)) : M A :=
  p ← deref r;
  _ ← emit (EWrite (key p) op);
  o ← attempt;
  match o with
  | Raises => raise
  | Fails => mret failed
  | Works =>
      w ← get_world;
      match dbs w !! key p ≫= run with
      | Some (d, a) => _ ← set_db (key p) d; mret a
      | None => mret failed
      end
  end.

(** Modelled from the spec: "updateObject(id, fields)", the missing
    [objectChange] transaction: the fields given replace those of the
    record [id]; false when there is no such record. *)
Definition objectChange (p : Ref) (id : PyVal) (d : Dict) : M bool :=
  mutate p (ObjectChange id d) false (fun db =>
    old ← tbl_get (db_objs db) id;
    match id with
    | VInt z => Some (mkDB (<[z := d ∪ old]> (db_objs db)) (db_cfgs db), true)
    | _ => None
    end).

(** Modelled from the spec: "updateConfig(id, fields)", the missing
    [configChange] transaction. *)
Definition configChange (p : Ref) (id : PyVal) (d : Dict) : M bool :=
  mutate p (ConfigChange id d) false (fun db =>
    old ← tbl_get (db_cfgs db) id;
    match id with
    | VInt z => Some (mkDB (db_objs db) (<[z := d ∪ old]> (db_cfgs db)), true)
    | _ => None
    end).

(** Modelled from the spec: "createObject(fields) -> id", the missing
    [utlp.newObject]; [VNone] when the call fails.  A new object has no
    configuration yet. *)
Definition newObject (p : Ref) (d : Dict) : M PyVal :=
  mutate p (ObjectNew d) VNone (fun db =>
    let i := new_id (db_objs db) in
    Some (mkDB (<[i := d ∪ {["config" := VNone]}]> (db_objs db)) (db_cfgs db),
          VInt i)).

(** Modelled from the spec: "createConfig(fields, name) -> id", the
    missing [utlp.newConfig]. *)
Definition newConfig (p : Ref) (d : Dict) (name : PyVal) : M PyVal :=
  mutate p (ConfigNew (<["name" := name]> d)) VNone (fun db =>
    let i := new_id (db_cfgs db) in
    Some (mkDB (db_objs db) (<[i := <["name" := name]> d]> (db_cfgs db)),
          VInt i)).

(** Modelled from the spec: "linkObjectToConfig(objId, cfgId) -> bool",
    the missing [utlp.setObjCfg]; both records have to exist. *)
Definition setObjCfg (p : Ref) (objID cfgID : PyVal) : M bool :=
  mutate p (ObjectLink objID cfgID) false (fun db =>
    old ← tbl_get (db_objs db) objID;
    _ ← tbl_get (db_cfgs db) cfgID;
    match objID with
    | VInt z =>
        Some (mkDB (<[z := <["config" := cfgID]> old]> (db_objs db)) (db_cfgs db),
              true)
    | _ => None
    end).

(** [utlp.transaction(pmgr, method, id, d)] for the two methods used. *)
Inductive Method := objectChange_ | configChange_.

Definition transaction (p : Ref) (m : Method) (id : PyVal) (d : Dict) : M bool :=
  match m with
  | objectChange_ => objectChange p id d
  | configChange_ => configChange p id d
  end.

(** Modelled from the spec: the missing [utlp.objUpdate], [utlp.cfgUpdate]
    and [utlp.cfgChange] are "updateObject(id, fields)" and
    "updateConfig(id, fields)"; [cfgUpdate] returns its error. *)
Definition objUpdate (p : Ref) (id : PyVal) (d : Dict) : M bool :=
  objectChange p id d.

Definition cfgChange (p : Ref) (id : PyVal) (d : Dict) : M bool :=
  configChange p id d.

Definition cfgUpdate (p : Ref) (id : PyVal) (d : Dict) : M bool :=
  ok ← configChange p id d; mret (negb ok).

(** Modelled from the spec: "findByIdentity(registry, identityValue) ->
    ObjectRecord | not-found: linear scan ... over the registry's object
    collection for an exact identity match", the missing
    [utlp.getObjWithSN]; the scan reads the cached view. *)
Definition find_sn (t : Table) (sn : PyVal) : PyVal :=
  match filter (fun kd => kd.2 !! "FLD_SN" = Some sn) (map_to_list t) with
  | (k, _) :: _ => VInt k
  | [] => VNone
  end.

Definition getObjWithSN (r : Ref) (sn : PyVal) : M PyVal :=
  p ← deref r;
  _ ← emit (ERead (key p) Objs);
  mret (find_sn (objs p) sn).

(** Modelled from the spec: "listConfigNames() -> set", the missing
    [utlp.allCfgNames]. *)
Definition names_of (t : Table) : gset string :=
  list_to_set (omap (fun kd => match kd.2 !! "name" with
                               | Some (VStr s) => Some s
                               | _ => None
                               end) (map_to_list t)).

Definition allCfgNames (r : Ref) : M (gset string) :=
  p ← deref r;
  _ ← emit (ERead (key p) Cfgs);
  mret (names_of (cfgs p)).

(** Modelled from the spec: the missing [utlp.cfgFromName], the id of
    the configuration of a given name in the cached view, or [None]. *)
Definition find_name (t : Table) (name : PyVal) : PyVal :=
  match filter (fun kd => kd.2 !! "name" = Some name) (map_to_list t) with
  | (k, _) :: _ => VInt k
  | [] => VNone
  end.

Definition cfgFromName (r : Ref) (name : PyVal) : M PyVal :=
  p ← deref r;
  _ ← emit (ERead (key p) Cfgs);
  mret (find_name (cfgs p) name).

(** Modelled from the spec: the missing [utlp.get_all_SN], the identity
    values of the objects of the registry as strings. *)
Definition get_all_SN (r : Ref) : M (gset string) :=
  p ← deref r;
  _ ← emit (ERead (key p) Objs);
  mret (list_to_set (omap (fun kd => py_str <$> (kd.2 !! "FLD_SN"))
                          (map_to_list (objs p)))).

(** Modelled from the spec: "applyConfigToDevice(objId) -> bool (pushes
    the linked configuration's fields to the live device)", the missing
    [utlp.objApply]: the fields go to the process variables under the
    [rec_base] of the object. *)
Definition push (base : string) (cfg : Dict) (l : gmap string PyVal)
  : gmap string PyVal :=
  map_fold (fun f v acc => <[base +:+ "." +:+ f := v]> acc) l cfg.

Definition set_live (l : gmap string PyVal) : M unit := fun w =>
  (Val tt, with_live w l).

Definition objApply (r : Ref) (objID : PyVal) : M bool :=
  p ← deref r;
  _ ← emit (EApply (key p) objID);
  o ← attempt;
  match o with
  | Raises => raise
  | Fails => mret false
  | Works =>
      w ← get_world;
      match
        db ← dbs w !! key p;
        obj ← tbl_get (db_objs db) objID;
        c ← obj !! "config";
        cfg ← tbl_get (db_cfgs db) c;
        base ← obj !! "rec_base";
        Some (push (py_str base) cfg (live w))
      with
      | Some l => _ ← set_live l; mret true
      | None => mret false
      end
  end.

(** ** The helpers of [utilsPlus] taken as parameters

    These read the live device, the legacy files or the names in use,
    or print; the module does not depend on how they do it. *)
Record Utlp := mkUtlp {
  (** [utlp.getCfgVals(pmgr, PV, rename)] and [utlp.getObjVals]: the
      live values as a field dictionary; [None] for an omitted [rename] *)
  getCfgVals : gmap string PyVal -> Pmgr -> string -> option bool -> Dict;
  getObjVals : gmap string PyVal -> Pmgr -> string -> option bool -> Dict;
  (** [utlp.nextObjName(pmgr, name)] and [utlp.nextCfgName(pmgr, name)] *)
  nextObjName : Pmgr -> PyVal -> string;
  nextCfgName : Pmgr -> PyVal -> string;
  (** [utlp.incrementMatching(name, names, maxLength)] *)
  incrementMatching : string -> gset string -> Z -> string;
  (** [utlp.printDiff(pmgr, objOld, cfgOld, objNew, cfgNew, verbose, **kw)]:
      the text printed, or [None] when the call raises *)
  printDiff : Pmgr -> Dict -> Dict -> Dict -> Dict -> bool ->
              list (string * string) -> option string;
  (** [utlp.getMostRecentObj(hutches, SN, objType, verbose)]: the id of
      the object and a new [pmgr] object, [None] for either *)
  getMostRecentObj : World -> list string -> PyVal -> string -> bool ->
                     PyVal * option Pmgr;
  (** [utlp.createmotordb(hutch, path)]: the legacy files by motor, in
      the order of [.keys()] *)
  createmotordb : string -> list string -> list (string * string);
  (** [utlp.getImportFieldDict(path)] *)
  getImportFieldDict : string -> Dict;
  (** [utlp.checkSNLength(d, pmgr)] *)
  checkSNLength : Dict -> Pmgr -> Dict
}.

(** [allHutches], in some order of iteration. *)
Definition allHutches : list string :=
  ["sxr"; "amo"; "xpp"; "cxi"; "xcs"; "mfx"; "mec"; "det"; "usr"].

Section Operations.

Variable U : Utlp.

(** [utlp.printDiff(...)] as a call: the report is printed, or the
    call raises. *)
Definition print_diff (r : Ref) (objOld cfgOld objNew cfgNew : Dict)
    (verbose : bool) (kw : list (string * string)) : M unit :=
  p ← deref r;
  match printDiff U p objOld cfgOld objNew cfgNew verbose kw with
  | Some report => emit (EDiff report)
  | None => raise
  end.

(** Modelled from the spec: "update that configuration's fields in
    place (reuse)", the missing [utlp.updateConfig]; it hands back the
    object and the configuration as they were in the views. *)
Definition updateConfig (PV : string) (pmgr : Ref) (objID cfgID : PyVal)
    (objDict cfgDict : Dict) (allNames : gset string) (verbose rename : bool)
  : M (bool * Dict * Dict) :=
  objOld ← read_objs pmgr objID;
  cfgOld ← read_cfgs pmgr cfgID;
  didWork ← configChange pmgr cfgID cfgDict;
  mret (didWork, objOld, cfgOld).

(** Modelled from the spec: "create a new ConfigurationRecord from the
    payload and link it to the object", the missing
    [utlp.getAndSetConfig]; the configuration takes the name of the
    payload. *)
Definition getAndSetConfig (PV : string) (pmgr : Ref) (objID : PyVal)
    (objDict cfgDict : Dict) : M bool :=
  cfgID ← newConfig pmgr cfgDict (default VNone (cfgDict !! "name"));
  if truthy cfgID then setObjCfg pmgr objID cfgID else mret false.

(** *** [saveConfig]

    [print] and the [zenity] pop-ups are left out.  The function is cut
    at its early [return]s: each part gives [None] when the function
    returns there. *)

(** Lines 118 to 155: find the object of the motor, or make it; the
    result is [objID] with [objDict] as it is then. *)
Definition save_object (PV : string) (pmgr : Ref) (objDict : Dict)
  : M (option (PyVal * Dict)) :=
  sn ← dict_get objDict "FLD_SN";
  objID ← getObjWithSN pmgr sn;
  if truthy objID then
    _ ← objUpdate pmgr objID objDict;
    mret (Some (objID, objDict))
  else
    p ← deref pmgr;
    objDict ← match objDict !! "name" with
              | Some n => mret (<["name" := VStr (nextObjName U p n)]> objDict)
              | None =>
                  d ← pv_get (PV +:+ ".DESC");
                  mret (<["name" := VStr (nextObjName U p d)]> objDict)
              end;
    objID ← newObject pmgr objDict;
    if negb (truthy objID) then mret None else mret (Some (objID, objDict)).

(** Lines 157 to 162: the configuration the object uses. *)
Definition linked_config (pmgr : Ref) (objID : PyVal) : M PyVal :=
  try_except (obj ← read_objs pmgr objID; dict_get obj "config") (mret VNone).

(** Line 164: [cfgID and pmgr.cfgs[cfgID]["name"].upper() != hutch.upper()] *)
Definition is_private_config (pmgr : Ref) (hutch : string) (cfgID : PyVal)
  : M bool :=
  if truthy cfgID then
    cfg ← read_cfgs pmgr cfgID;
    n ← dict_get cfg "name";
    s ← as_str n;
    mret (negb (String.eqb (upper s) (upper hutch)))
  else mret false.

(** Lines 163 to 185: update the configuration, or add a new one.  The
    result holds [objOld] and [cfgOld] when they were assigned. *)
Definition save_config (PV hutch : string) (pmgr : Ref) (objID cfgID : PyVal)
    (objDict cfgDict : Dict) (allNames : gset string) (verbose rename : bool)
  : M (option (option (Dict * Dict))) :=
  reuse ← is_private_config pmgr hutch cfgID;
  if reuse : bool then
    '(didWork, objOld, cfgOld) ←
      updateConfig PV pmgr objID cfgID objDict cfgDict allNames verbose rename;
    if negb didWork then mret None else mret (Some (Some (objOld, cfgOld)))
  else
    status ← getAndSetConfig PV pmgr objID objDict cfgDict;
    if negb status then mret None else mret (Some None).

(** Lines 187 to 195. *)
Definition save_rename (pmgr : Ref) (objID cfgID : PyVal) (rename : bool)
  : M unit :=
  _ ← updateTables pmgr;
  if rename then
    obj ← read_objs pmgr objID;
    c ← dict_get obj "config";
    cfg ← read_cfgs pmgr c;
    desc ← dict_get obj "FLD_DESC";
    p ← deref pmgr;
    let n1 := VStr (nextObjName U p desc) in
    _ ← set_obj_field pmgr objID "name" n1;
    let obj := <["name" := n1]> obj in
    desc ← dict_get obj "FLD_DESC";
    p ← deref pmgr;
    let n2 := VStr (nextCfgName U p desc) in
    _ ← set_cfg_field pmgr c "name" n2;
    let cfg := <["name" := n2]> cfg in
    _ ← transaction pmgr objectChange_ objID obj;
    _ ← transaction pmgr configChange_ cfgID cfg;
    mret tt
  else mret tt.

(** Lines 203 to 210; [olds] is [None] when [objOld] and [cfgOld] were
    never assigned, and naming them raises. *)
Definition save_diff (pmgr : Ref) (objID cfgID : PyVal)
    (olds : option (Dict * Dict)) (verbose : bool) : M unit :=
  if truthy cfgID && truthy objID then
    cfgPmgr ← read_cfgs pmgr cfgID;
    objPmgr ← read_objs pmgr objID;
    try_except
      (match olds with
       | Some (objOld, cfgOld) =>
           print_diff pmgr objOld cfgOld objPmgr cfgPmgr verbose []
       | None => raise
       end)
      (mret tt)
  else mret tt.

Definition saveConfig (PV hutch : string) (pmgr : Ref) (SN : PyVal)
    (verbose zenity rename : bool) : M unit :=
  w ← get_world;
  p ← deref pmgr;
  let cfgDict := getCfgVals U (live w) p PV (Some rename) in
  let objDict := getObjVals U (live w) p PV (Some rename) in
  allNames ← allCfgNames pmgr;
  name ← (if rename then dict_get objDict "name" else pv_get (PV +:+ ".DESC"));
  found ← save_object PV pmgr objDict;
  match found with
  | None => mret tt
  | Some (objID, objDict) =>
      cfgID ← linked_config pmgr objID;
      saved ← save_config PV hutch pmgr objID cfgID objDict cfgDict allNames
                verbose rename;
      match saved with
      | None => mret tt
      | Some olds =>
          _ ← save_rename pmgr objID cfgID rename;
          save_diff pmgr objID cfgID olds verbose
      end
  end.

(** *** [applyConfig]

    The changes made to [obj] between a read of [pmgr.objs] and the
    next [updateTables] go to the registry with the transaction; the
    view they also change is replaced by [updateTables] before it is
    read again, so only the dictionary is followed here. *)

(** Lines 250 to 257. *)
Definition apply_rec_base (PV : string) (pmgr : Ref) (objID : PyVal)
  : M Dict :=
  obj ← read_objs pmgr objID;
  port ← pv_get (PV +:+ ".PORT");
  rb ← dict_get obj "rec_base";
  moved ← (if negb (bool_decide (rb = VStr PV)) then mret true
           else fp ← dict_get obj "FLD_PORT";
                mret (negb (bool_decide (fp = port))));
  if moved : bool then
    let obj := <["FLD_PORT" := port]> (<["rec_base" := VStr PV]> obj) in
    _ ← transaction pmgr objectChange_ objID obj;
    _ ← updateTables pmgr;
    read_objs pmgr objID
  else mret obj.

(** Lines 259 to 264. *)
Definition apply_name (pmgr : Ref) (objID : PyVal) (obj : Dict)
    (name : option string) : M Dict :=
  match name with
  | Some n =>
      let obj := <["FLD_DESC" := VStr n]> (<["name" := VStr n]> obj) in
      _ ← transaction pmgr objectChange_ objID obj;
      _ ← updateTables pmgr;
      read_objs pmgr objID
  | None => mret obj
  end.

(** Lines 268 to 273: the names of all hutches; the loop assigns both
    [pmgr] and [name]. *)
Fixpoint gather_names (objType : string) (hutches : list string)
    (st : option Ref * gmap string string * option string)
  : M (option Ref * gmap string string * option string) :=
  match hutches with
  | [] => mret st
  | hutch :: rest =>
      let '(_, allNames, name) := st in
      pmgr ← getPmgr objType hutch;
      names ← match pmgr with
              | Some r => allCfgNames r
              | None => raise
              end;
      let l := elements names in
      gather_names objType rest
        (pmgr,
         foldl (fun acc n => <[n := hutch]> acc) allNames l,
         match last l with Some n => Some n | None => name end)
  end.

(** [confirm[0].lower() != "y"] *)
Definition not_yes (confirm : string) : M bool :=
  match confirm with
  | EmptyString => raise
  | String c _ => mret (negb (Ascii.eqb (lower_ascii c) "y"%char))
  end.

(** Lines 278 to 294, the [while] loop; every turn that does not leave
    the loop takes a line of input, which bounds the turns.  [None]
    stands for the [return] on [quit]. *)
Fixpoint confirm_loop (turns : nat) (allNames : gmap string string)
    (confirm : string) (cfgName : option string) : M (option (option string)) :=
  again ← not_yes confirm;
  if negb again then mret (Some cfgName)
  else
    match turns with
    | O => raise
    | S turns =>
        cfgName ← raw_input;
        if String.eqb cfgName "quit" then mret None
        else if bool_decide (allNames !! cfgName = None)
             then confirm_loop turns allNames confirm (Some cfgName)
             else confirm ← raw_input;
                  confirm_loop turns allNames confirm (Some cfgName)
    end.

(** Lines 266 to 328; [None] stands for a [return]. *)
Definition apply_dumb (PV objType : string) (hutches : list string)
    (pmgr : Ref) (objID : PyVal) (obj : Dict) (dumb_cfg : option string)
    (dumb_confirm : bool) (name : option string) (verbose : bool)
  : M (option (Ref * Dict)) :=
  '(pmgr', allNames, name) ← gather_names objType hutches (Some pmgr, ∅, name);
  chosen ← (if dumb_confirm then
              w ← get_world;
              confirm_loop (S (length (stdin w))) allNames "no" dumb_cfg
            else
              match dumb_cfg ≫= fun c => allNames !! c with
              | None => mret None
              | Some _ => mret (Some dumb_cfg)
              end);
  match chosen with
  | None => mret None
  | Some cfgName =>
      hutch ← match cfgName ≫= fun c => allNames !! c with
              | Some h => mret h
              | None => raise
              end;
      pmgr ← getPmgr objType hutch;
      pmgr ← match pmgr with Some r => mret r | None => raise end;
      let cn := match cfgName with Some c => VStr c | None => VNone end in
      cfgID ← cfgFromName pmgr cn;
      if negb (truthy cfgID) then mret None
      else
        c ← dict_get obj "config";
        linked ← (if negb (bool_decide (c = cfgID)) then
                    status ← setObjCfg pmgr objID cfgID;
                    _ ← updateTables pmgr;
                    obj ← read_objs pmgr objID;
                    if negb status then mret None else mret (Some obj)
                  else mret (Some obj));
        match linked with
        | None => mret None
        | Some obj =>
            match name with
            | None =>
                cfg ← read_cfgs pmgr cfgID;
                n ← dict_get cfg "name";
                p ← deref pmgr;
                let obj := <["name" := VStr (nextObjName U p n)]> obj in
                cfg ← read_cfgs pmgr cfgID;
                n ← dict_get cfg "name";
                let obj := <["FLD_DESC" := n]> obj in
                _ ← transaction pmgr objectChange_ objID obj;
                _ ← updateTables pmgr;
                obj ← read_objs pmgr objID;
                mret (Some (pmgr, obj))
            | Some _ => mret (Some (pmgr, obj))
            end
        end
  end.

(** Lines 330 to 353. *)
Definition apply_push (PV : string) (pmgr : Ref) (objID : PyVal)
    (verbose : bool) : M unit :=
  w ← get_world;
  p ← deref pmgr;
  let cfgOld := getCfgVals U (live w) p PV None in
  let objOld := getObjVals U (live w) p PV None in
  status ← objApply pmgr objID;
  if negb status then mret tt
  else
    w ← get_world;
    p ← deref pmgr;
    let cfgNew := getCfgVals U (live w) p PV None in
    let objNew := getObjVals U (live w) p PV None in
    try_except
      (print_diff pmgr objOld cfgOld objNew cfgNew verbose [("kind", "changes")])
      (mret tt).

(** Lines 259 to 353, what follows the update of [rec_base]. *)
Definition apply_tail (PV : string) (hutches : list string) (objType : string)
    (pmgr : Ref) (objID : PyVal) (obj : Dict) (verbose dumb : bool)
    (dumb_cfg : option string) (dumb_confirm : bool) (name : option string)
  : M unit :=
  obj ← apply_name pmgr objID obj name;
  st ← (if dumb then
          apply_dumb PV objType hutches pmgr objID obj dumb_cfg
            dumb_confirm name verbose
        else mret (Some (pmgr, obj)));
  match st with
  | None => mret tt
  | Some (pmgr, _) => apply_push PV pmgr objID verbose
  end.

Definition applyConfig (PV : string) (hutches : list string) (objType : string)
    (SN : PyVal) (verbose zenity dumb : bool) (dumb_cfg : option string)
    (dumb_confirm : bool) (name : option string) : M unit :=
  w ← get_world;
  match getMostRecentObj U w hutches SN objType verbose with
  | (objID, Some p) =>
      if negb (truthy objID) then mret tt
      else
        pmgr ← alloc p;
        obj ← apply_rec_base PV pmgr objID;
        apply_tail PV hutches objType pmgr objID obj verbose dumb dumb_cfg
          dumb_confirm name
  | (_, None) => mret tt
  end.

Definition dumbMotorApply (PV : string) (hutches : list string)
    (objType : string) (SN : PyVal) (verbose zenity : bool) : M unit :=
  applyConfig PV hutches objType SN verbose zenity true None true None.

(** *** [importConfigs] *)

(** [name in allNames] for a value and a set of strings. *)
Definition in_names (v : PyVal) (names : gset string) : bool :=
  match v with
  | VStr s => bool_decide (s ∈ names)
  | _ => false
  end.

(** Lines 390 to 396. *)
Definition import_name (cfgDict : Dict) : M PyVal :=
  desc ← dict_get cfgDict "FLD_DESC";
  if truthy desc then mret desc
  else
    sn ← dict_get cfgDict "FLD_SN";
    if truthy sn then mret (VStr ("SN:" +:+ py_str sn))
    else mret (VStr "Unknown").

(** Lines 401 to 436, the branch of [if dumb:]. *)
Definition import_dumb (pmgr : Ref) (cfgDict : Dict) (name : PyVal)
    (allNames : gset string) (update : bool) : M unit :=
  if in_names name allNames then
    if negb update then mret tt
    else
      cfgID ← cfgFromName pmgr name;
      error ← cfgUpdate pmgr cfgID cfgDict;
      updateTables pmgr
  else
    desc ← dict_get cfgDict "FLD_DESC";
    cfgID ← newConfig pmgr cfgDict desc;
    updateTables pmgr.

(** Lines 447 to 467: the serial number is in the registry and
    [update] is set. *)
Definition import_update (hutch : string) (pmgr : Ref) (cfgDict objDict : Dict)
    (name : PyVal) (allNames : gset string) : M unit :=
  sn ← dict_get cfgDict "FLD_SN";
  objID ← getObjWithSN pmgr sn;
  _ ← objUpdate pmgr objID objDict;
  obj ← read_objs pmgr objID;
  cfgID ← dict_get obj "config";
  reuse ← (if truthy cfgID then
               cfg ← read_cfgs pmgr cfgID;
               n ← dict_get cfg "name";
               mret (negb (bool_decide (n = VStr (upper hutch))))
             else mret false);
  if reuse : bool then
    desc ← dict_get cfgDict "FLD_DESC";
    let allNames :=
      if in_names desc allNames then allNames ∖ {[py_str desc]} else allNames in
    cfg ← read_cfgs pmgr cfgID;
    t ← dict_get cfg "FLD_TYPE";
    let cfgDict := <["FLD_TYPE" := t]> cfgDict in
    let cfgDict :=
      <["name" := VStr (incrementMatching U (py_str name) allNames 42)]> cfgDict in
    n ← dict_get cfgDict "name";
    let allNames := {[py_str n]} ∪ allNames in
    didWork ← cfgChange pmgr cfgID cfgDict;
    mret tt
  else mret tt.

(** Lines 469 to 494: a new configuration, a new object and their
    link, under one [try] with a bare [except]. *)
Definition import_create (pmgr : Ref) (cfgDict objDict : Dict) (name : PyVal)
  : M unit :=
  try_except
    (p ← deref pmgr;
     let cfgDict := <["name" := VStr (nextCfgName U p name)]> cfgDict in
     n ← dict_get cfgDict "name";
     cfgID ← newConfig pmgr cfgDict n;
     _ ← updateTables pmgr;
     p ← deref pmgr;
     let objDict := <["name" := VStr (nextObjName U p name)]> objDict in
     ObjID ← newObject pmgr objDict;
     _ ← updateTables pmgr;
     status ← setObjCfg pmgr ObjID cfgID;
     mret tt)
    (mret tt).

(** Lines 438 to 494, what follows the [if dumb:] branch. *)
Definition import_smart (hutch : string) (pmgr : Ref) (cfgDict objDict : Dict)
    (name : PyVal) (allNames pmgr_SNs : gset string) (update : bool) : M unit :=
  sn ← dict_get cfgDict "FLD_SN";
  if bool_decide (py_str sn ∈ pmgr_SNs) then
    if negb update then mret tt
    else import_update hutch pmgr cfgDict objDict name allNames
  else import_create pmgr cfgDict objDict name.

(** One turn of the loop of lines 384 to 494. *)
Definition import_motor (hutch : string) (pmgr : Ref) (pmgr_SNs : gset string)
    (update verbose : bool) (cfg_path : string) : M unit :=
  allNames ← allCfgNames pmgr;
  let cfgDict := getImportFieldDict U cfg_path in
  let objDict := getImportFieldDict U cfg_path in
  let dumb := true in
  _ ← updateTables pmgr;
  name ← import_name cfgDict;
  p ← deref pmgr;
  let cfgDict := checkSNLength U cfgDict p in
  let objDict := checkSNLength U objDict p in
  if dumb then import_dumb pmgr cfgDict name allNames update
  else import_smart hutch pmgr cfgDict objDict name allNames pmgr_SNs update.

Fixpoint import_loop (hutch : string) (pmgr : Ref) (pmgr_SNs : gset string)
    (update verbose : bool) (motors : list (string * string)) : M unit :=
  match motors with
  | [] => mret tt
  | (_, cfg_path) :: rest =>
      _ ← import_motor hutch pmgr pmgr_SNs update verbose cfg_path;
      import_loop hutch pmgr pmgr_SNs update verbose rest
  end.

Definition importConfigs (hutch : string) (pmgr : Ref) (path : list string)
    (update verbose : bool) : M unit :=
  let old_cfg_paths := createmotordb U hutch path in
  pmgr_SNs ← get_all_SN pmgr;
  import_loop hutch pmgr pmgr_SNs update verbose old_cfg_paths.

(** *** [Diff] *)
Definition Diff (PV hutch : string) (pmgr : Ref) (SN : PyVal) (verbose : bool)
  : M unit :=
  w ← get_world;
  p ← deref pmgr;
  let cfgLive := getCfgVals U (live w) p PV (Some false) in
  let objLive := getObjVals U (live w) p PV (Some false) in
  sn ← dict_get objLive "FLD_SN";
  objID ← getObjWithSN pmgr sn;
  if negb (truthy objID) then mret tt
  else
    cfgID ← linked_config pmgr objID;
    if negb (truthy cfgID) then mret tt
    else
      cfgPmgr ← read_cfgs pmgr cfgID;
      objPmgr ← read_objs pmgr objID;
      try_except
        (print_diff pmgr objLive cfgLive objPmgr cfgPmgr verbose
           [("name1", "Pmgr"); ("name2", "Live")])
        (mret tt).

(** *** The [changesn] routine of [main], lines 661 to 697 *)

(** One turn of [for hutch in hutches]. *)
Definition changesn_hutch (objType : string) (oldSN newSN : PyVal)
    (verbose : bool) (hutch : string) : M unit :=
  pmgr ← getPmgr objType hutch;
  match pmgr with
  | None => mret tt
  | Some pmgr =>
      objID ← getObjWithSN pmgr oldSN;
      if negb (truthy objID) then mret tt
      else
        let objDict : Dict := {["FLD_SN" := newSN]} in
        output ← objUpdate pmgr objID objDict;
        _ ← updateTables pmgr;
        if output : bool then
          obj ← read_objs pmgr objID;
          _ ← dict_get obj "FLD_SN";
          mret tt
        else mret tt
  end.

Fixpoint for_each {A} (body : A -> M unit) (l : list A) : M unit :=
  match l with
  | [] => mret tt
  | a :: rest => _ ← body a; for_each body rest
  end.

(** [if not objType: objType = "ims_motor"] *)
Definition changesn_type (objType : option string) : string :=
  match objType with
  | Some t => if String.eqb t "" then "ims_motor" else t
  | None => "ims_motor"
  end.

(** [if not hutches: hutches = allHutches] *)
Definition changesn_hutches (hutches : list string) : list string :=
  match hutches with
  | [] => allHutches
  | _ => hutches
  end.

(** The routine ends at once, with [exit()], when a serial number is
    missing. *)
Definition changesn (hutches : list string) (objType : option string)
    (oldSN newSN : PyVal) (verbose : bool) : M unit :=
  if negb (truthy oldSN) || negb (truthy newSN) then mret tt
  else
    let objType := changesn_type objType in
    let hutches := changesn_hutches hutches in
    for_each (changesn_hutch objType oldSN newSN verbose) hutches.

End Operations.

(** *** The loop of [main] over the motors, lines 722 to 775

    [print] and the [zenity] pop-ups are left out. *)

(** The commands of the command line, as [docopt] gives them. *)
Record Args := mkArgs {
  arg_save : bool;
  arg_apply : bool;
  arg_dmapply : bool;
  arg_diff : bool
}.

Section MainLoop.

Variable U : Utlp.

(** [utlp.dumbMotorCheck(PV)], which reads the process variables. *)
Variable dumbMotorCheck : gmap string PyVal -> string -> bool.

(** Lines 766 to 775: one turn of [for hutch in hutches]. *)
Definition main_hutch (a : Args) (PV objType : string) (SN : PyVal)
    (verbose zenity rename : bool) (hutch : string) : M unit :=
  pmgr ← getPmgr objType hutch;
  match pmgr with
  | None => mret tt
  | Some pmgr =>
      if arg_diff a then Diff U PV hutch pmgr SN verbose
      else if arg_save a then saveConfig U PV hutch pmgr SN verbose zenity rename
      else mret tt
  end.

(** Lines 723 to 775: one turn of [for PV in motorPVs]; [SNs] is the
    dictionary of serial numbers that [utlp.motorPrelimChecks] gave. *)
Definition main_motor (a : Args) (hutches : list string) (objType : string)
    (SNs : gmap string PyVal) (verbose zenity rename : bool) (PV : string)
  : M unit :=
  m_DESC ← pv_get (PV +:+ ".DESC");
  SN ← match SNs !! PV with
       | Some v => mret v
       | None => raise
       end;
  if negb (truthy SN) then mret tt
  else if arg_apply a then
    w ← get_world;
    if negb (dumbMotorCheck (live w) PV) then
      applyConfig U PV hutches objType SN verbose zenity false None true None
    else mret tt
  else if arg_dmapply a then
    w ← get_world;
    if dumbMotorCheck (live w) PV then
      dumbMotorApply U PV hutches objType SN verbose zenity
    else mret tt
  else for_each (main_hutch a PV objType SN verbose zenity rename) hutches.

Definition main_motors (a : Args) (hutches : list string) (objType : string)
    (SNs : gmap string PyVal) (verbose zenity rename : bool)
    (motorPVs : list string) : M unit :=
  for_each (main_motor a hutches objType SNs verbose zenity rename) motorPVs.

End MainLoop.


(** ** An instance of the parameters and a small world, for concrete runs *)

(** The fields of a motor read from its process variables. *)
Definition live_fields (l : gmap string PyVal) (PV : string)
    (fields : list string) : Dict :=
  list_to_map (omap (fun f => pair f <$> l !! (PV +:+ "." +:+ f)) fields).

(** The live motor as an object payload: its description is also its
    name, and [rec_base] is the process variable itself. *)
Definition live_obj (l : gmap string PyVal) (PV : string) : Dict :=
  match l !! (PV +:+ ".DESC") with
  | Some d => <["name" := d]> (<["FLD_DESC" := d]> ∅)
  | None => ∅
  end ∪ <["rec_base" := VStr PV]> (live_fields l PV ["FLD_SN"; "FLD_PORT"]).

Definition live_cfg (l : gmap string PyVal) (PV : string) : Dict :=
  match l !! (PV +:+ ".DESC") with
  | Some d => <["name" := d]> ∅
  | None => ∅
  end ∪ live_fields l PV ["FLD_ACCL"; "FLD_TYPE"].

(** A candidate name that is taken gets a suffix. *)
Definition free_name (taken : gset string) (candidate : string) : string :=
  if bool_decide (candidate ∈ taken) then candidate +:+ "1" else candidate.

(** The report of [printDiff]: the names of the fields that differ. *)
Definition diff_fields (a b : Dict) : list string :=
  filter (fun f => a !! f ≠ b !! f) (elements (dom a ∪ dom b)).

Definition utlp0 : Utlp := {|
  getCfgVals l _ PV _ := live_cfg l PV;
  getObjVals l _ PV _ := live_obj l PV;
  nextObjName p n := free_name (names_of (objs p)) (py_str n);
  nextCfgName p n := free_name (names_of (cfgs p)) (py_str n);
  incrementMatching n names _ := free_name names n;
  printDiff _ objOld cfgOld objNew cfgNew _ _ :=
    Some (String.concat "," (diff_fields objOld objNew ++ diff_fields cfgOld cfgNew));
  getMostRecentObj w hutches SN objType _ :=
    match
      omap (fun h => d ← dbs w !! (objType, h);
                     match find_sn (db_objs d) SN with
                     | VInt z => Some (VInt z, mkPmgr objType h (db_objs d) (db_cfgs d))
                     | _ => None
                     end) hutches
    with
    | (i, p) :: _ => (i, Some p)
    | [] => (VNone, None)
    end;
  createmotordb hutch _ := [("001", "001.cfg")];
  getImportFieldDict path :=
    {["FLD_DESC" := VStr "slit"; "FLD_SN" := VStr "001"; "FLD_ACCL" := VInt 9]};
  checkSNLength d _ := d
|}.

(** The [xpp] registry of motors: the default configuration, named
    after the hutch, and one motor that uses it. *)
Definition xpp : string * string := ("ims_motor", "xpp").

Definition motor : string := "XPP:USR:MMS:01".

Definition default_cfg : Dict :=
  {["name" := VStr "XPP"; "FLD_ACCL" := VInt 1; "FLD_TYPE" := VStr "default"]}.

Definition motor_obj : Dict :=
  {["name" := VStr "slit"; "FLD_DESC" := VStr "slit"; "FLD_SN" := VStr "001";
    "FLD_PORT" := VStr "digi-01"; "rec_base" := VStr "XPP:USR:MMS:07";
    "config" := VInt 1]}.

Definition xpp_db : DB := mkDB {[7 := motor_obj]} {[1 := default_cfg]}.

Definition motor_live : gmap string PyVal :=
  {["XPP:USR:MMS:01.DESC" := VStr "slit";
    "XPP:USR:MMS:01.FLD_SN" := VStr "001";
    "XPP:USR:MMS:01.FLD_PORT" := VStr "digi-02";
    "XPP:USR:MMS:01.PORT" := VStr "digi-02";
    "XPP:USR:MMS:01.FLD_ACCL" := VInt 5]}.

(** The world at the start of a run, with one [pmgr] object for [xpp]
    whose views are fresh. *)
Definition pmgr0 : Pmgr :=
  mkPmgr "ims_motor" "xpp" (db_objs xpp_db) (db_cfgs xpp_db).

Definition world0 : World :=
  mkWorld {[xpp := xpp_db]} [pmgr0] motor_live [] [] [].

(** The registry [k] of a world, and a record of it. *)
Definition db_cfg (w : World) (k : string * string) (id : Z) : option Dict :=
  d ← dbs w !! k; db_cfgs d !! id.

Definition db_obj (w : World) (k : string * string) (id : Z) : option Dict :=
  d ← dbs w !! k; db_objs d !! id.

(** A read of a view of [k] after a write to [k], with no refresh of
    [k] between the two. *)
Fixpoint stale_read (dirty : list (string * string)) (l : list Event) : bool :=
  match l with
  | [] => false
  | EWrite k _ :: l' => stale_read (k :: dirty) l'
  | ERefresh k :: l' => stale_read (filter (fun k' => k' ≠ k) dirty) l'
  | ERead k _ :: l' => bool_decide (k ∈ dirty) || stale_read dirty l'
  | _ :: l' => stale_read dirty l'
  end.

(** The parameters with another [printDiff]. *)
Definition with_printDiff (U : Utlp)
    (pd : Pmgr -> Dict -> Dict -> Dict -> Dict -> bool ->
          list (string * string) -> option string) : Utlp :=
  mkUtlp (getCfgVals U) (getObjVals U) (nextObjName U) (nextCfgName U)
         (incrementMatching U) pd (getMostRecentObj U) (createmotordb U)
         (getImportFieldDict U) (checkSNLength U).

(** A [printDiff] that always raises. *)
Definition printDiff_raises : Pmgr -> Dict -> Dict -> Dict -> Dict -> bool ->
    list (string * string) -> option string :=
  fun _ _ _ _ _ _ _ => None.

Definition is_diff (e : Event) : bool :=
  match e with
  | EDiff _ => true
  | _ => false
  end.

(** A world without what [printDiff] printed. *)
Definition quiet (w : World) : World :=
  with_log w (filter (fun e => is_diff e = false) (log w)).

Definition is_apply (e : Event) : bool :=
  match e with
  | EApply _ _ => true
  | _ => false
  end.

(** A second registry, of the hutch [amo], with another motor. *)
Definition amo : string * string := ("ims_motor", "amo").

Definition amo_db : DB :=
  mkDB {[3 := {["name" := VStr "mirror"; "FLD_SN" := VStr "002";
                "config" := VInt 1]} : Dict]}
       {[1 := {["name" := VStr "AMO"]} : Dict]}.

Definition world2 : World :=
  mkWorld {[xpp := xpp_db; amo := amo_db]} [] motor_live [] [] [].

(** A call of the log in a few words. *)
Definition describe (e : Event) : string :=
  match e with
  | EWrite _ (ObjectChange i _) => "objectChange " +:+ py_str i
  | EWrite _ (ConfigChange i _) => "configChange " +:+ py_str i
  | EWrite _ (ObjectNew _) => "newObject"
  | EWrite _ (ConfigNew _) => "newConfig"
  | EWrite _ (ObjectLink a b) => "link " +:+ py_str a +:+ " " +:+ py_str b
  | ERefresh _ => "updateTables"
  | ERead _ Objs => "pmgr.objs"
  | ERead _ Cfgs => "pmgr.cfgs"
  | EApply _ i => "objApply " +:+ py_str i
  | EDiff r => "printDiff"
  end.

(** The configuration an object record of a registry is linked to. *)
Definition linked (w : World) (k : string * string) (id : Z) : option PyVal :=
  db_obj w k id ≫= fun d => d !! "config".

(** A record in the view of a [pmgr] object. *)
Definition view_cfg (w : World) (r : Ref) (id : Z) : option Dict :=
  heap w !! r ≫= fun p => cfgs p !! id.

(** ** Properties of runs *)

(** A computation keeps a relation when every run relates the world
    before to the world after, exception or not. *)
Definition keeps (R : relation World) {A} (m : M A) : Prop :=
  forall w, R w (m w).2.

(** A relation that does not look at the heap, the live values, the
    script or the input, and lets the log grow. *)
Class Inert (R : relation World) := {
  inert_pre :: PreOrder R;
  inert_emit : forall w e, R w (with_log w (log w ++ [e]));
  inert_heap : forall w h, R w (with_heap w h);
  inert_live : forall w l, R w (with_live w l);
  inert_script : forall w s, R w (with_script w s);
  inert_stdin : forall w s, R w (with_stdin w s)
}.

Definition log_ext (w w' : World) : Prop := log w `prefix_of` log w'.

(** The next registry call works. *)
Definition next_works (w : World) : Prop :=
  match script w with
  | [] | Works :: _ => True
  | _ => False
  end.

(** The object with the live address and port. *)
Definition relocated (PV : string) (port : PyVal) (obj : Dict) : Dict :=
  <["FLD_PORT" := port]> (<["rec_base" := VStr PV]> obj).

(** [obj["rec_base"] != PV or obj["FLD_PORT"] != port] *)
Definition moved (PV : string) (port : PyVal) (obj : Dict) : Prop :=
  exists rb, obj !! "rec_base" = Some rb /\
             (rb <> VStr PV \/ exists fp, obj !! "FLD_PORT" = Some fp /\ fp <> port).

(** Two runs that end alike: the same result and, but for the reports
    of [printDiff], the same world. *)
Definition same_but_diff {A} (a b : Res A * World) : Prop :=
  a.1 = b.1 /\ quiet a.2 = quiet b.2.

(** The registries are as they were. *)
Definition dbs_same (w w' : World) : Prop := dbs w' = dbs w.

(** No object of the registry [d] is found for the identity [sn]. *)
Definition no_match (d : option DB) (sn : PyVal) : Prop :=
  match d with
  | Some db => truthy (find_sn (db_objs db) sn) = false
  | None => True
  end.

(** The registry of one hutch after its turn, when the calls work. *)
Definition renamed (T : string) (oldSN newSN : PyVal)
    (d : gmap (string * string) DB) (h : string)
  : gmap (string * string) DB :=
  match d !! (T, h) with
  | Some db =>
      match find_sn (db_objs db) oldSN with
      | VInt z =>
          match truthy (VInt z), db_objs db !! z with
          | true, Some old =>
              <[(T, h) := mkDB (<[z := <["FLD_SN" := newSN]> old]> (db_objs db))
                               (db_cfgs db)]> d
          | _, _ => d
          end
      | _ => d
      end
  | None => d
  end.


(** Every record of [db] is in [db'], as it is. *)
Definition db_le (db db' : DB) : Prop :=
  db_cfgs db ⊆ db_cfgs db' /\ db_objs db ⊆ db_objs db'.

(** The registries and their records are still there, as they were. *)
Definition grows (w w' : World) : Prop :=
  forall k db, dbs w !! k = Some db ->
               exists db', dbs w' !! k = Some db' /\ db_le db db'.

(** The object records are as they were. *)
Definition objs_same (w w' : World) : Prop :=
  forall k, db_objs <$> dbs w' !! k = db_objs <$> dbs w !! k.

(** ** More properties of runs *)



(** ** What the calls of a run may be *)

Definition is_write (e : Event) : bool :=
  match e with
  | EWrite _ _ => true
  | _ => false
  end.

Definition is_read (e : Event) : bool :=
  match e with
  | ERead _ _ => true
  | _ => false
  end.

(** The process variables and the terminal are as they were, and every
    call made since is one that [ok] lets through. *)
Definition adds (ok : Event -> bool) (w w' : World) : Prop :=
  live w' = live w /\ stdin w' = stdin w /\
  exists l, log w' = log w ++ l /\ forallb ok l = true.

(** Nothing but the log changed, and by calls that [ok] lets through. *)
Definition only_logs (ok : Event -> bool) (w w' : World) : Prop :=
  exists l, w' = with_log w (log w ++ l) /\ forallb ok l = true.

(** A call that is not a push to the device. *)
Definition not_apply (e : Event) : bool := negb (is_apply e).

(** A read of a view, or a report of [printDiff]. *)
Definition read_or_diff (e : Event) : bool := is_read e || is_diff e.

(** The registries written to and not refreshed since, after the calls
    of [l]; [stale_read] keeps the same list as it goes. *)
Fixpoint pending (dirty : list (string * string)) (l : list Event)
  : list (string * string) :=
  match l with
  | [] => dirty
  | EWrite k _ :: l' => pending (k :: dirty) l'
  | ERefresh k :: l' => pending (filter (fun k' => k' ≠ k) dirty) l'
  | _ :: l' => pending dirty l'
  end.

(** A computation whose calls hold no read of a view after a write with
    no refresh between the two, and that leaves no write without its
    refresh when it returns. *)
Definition fresh_reads {A} (m : M A) : Prop :=
  forall w, exists l,
    log (m w).2 = log w ++ l /\ stale_read [] l = false /\
    (forall a, (m w).1 = Val a -> pending [] l = []).

(** A computation that is one write to the registry of [r], and leaves
    the [pmgr] objects alone. *)
Definition writes_on {A} (r : Ref) (m : M A) : Prop :=
  forall w, heap (m w).2 = heap w /\
            match heap w !! r with
            | Some p => exists op, log (m w).2 = log w ++ [EWrite (key p) op]
            | None => log (m w).2 = log w /\ (m w).1 = Exn
            end.

(** What a registry holds besides the fields of its objects: the
    configuration records and the ids of the object records. *)
Definition shape (d : DB) : Table * gset Z := (db_cfgs d, dom (db_objs d)).

(** Every registry has the configurations and the objects it had. *)
Definition shape_same (w w' : World) : Prop :=
  forall k, shape <$> dbs w' !! k = shape <$> dbs w !! k.


(** The parameters with another [getImportFieldDict]. *)
Definition with_getImportFieldDict (U : Utlp) (f : string -> Dict) : Utlp :=
  mkUtlp (getCfgVals U) (getObjVals U) (nextObjName U) (nextCfgName U)
         (incrementMatching U) (printDiff U) (getMostRecentObj U)
         (createmotordb U) f (checkSNLength U).


(** A call that leaves the registries and the device alone. *)
Definition harmless (e : Event) : bool := negb (is_write e) && negb (is_apply e).
(** * Facts about identifier expansion *)

Example int_ex1 : Py.int "03" = Some 3. Proof. reflexivity. Qed.
Example int_ex2 : Py.int " 1_0 " = Some 10. Proof. reflexivity. Qed.
Example int_ex3 : Py.int "1__0" = None. Proof. reflexivity. Qed.
Example int_ex4 : Py.int "" = None. Proof. reflexivity. Qed.
Example fmt_ex1 : Py.fmt02 3 = "03". Proof. reflexivity. Qed.
Example fmt_ex2 : Py.fmt02 100 = "100". Proof. reflexivity. Qed.
Example split_ex : Py.split_on "-"%char "a-b-" = ["a"; "b"; ""]. Proof. reflexivity. Qed.
Example last2_ex : Py.last2 "MMS:01" = "01" /\ Py.last2 "1" = "1". Proof. split; reflexivity. Qed.

Section ExpansionFacts.

Variable getBasePV : PyArg -> option string.

Lemma collect_app B PVs l1 l2 :
  collect getBasePV B PVs (l1 ++ l2) =
  collect getBasePV B (collect getBasePV B PVs l1) l2.
Proof. unfold collect. apply fold_left_app. Qed.

Lemma collect_cons B PVs a l :
  collect getBasePV B PVs (a :: l) =
  collect getBasePV B (token_step getBasePV B PVs a) l.
Proof. reflexivity. Qed.

Lemma sorted_elem_of (s : gset string) x : x ∈ Py.sorted s <-> x ∈ s.
Proof.
  unfold Py.sorted. rewrite merge_sort_Permutation. apply elem_of_elements.
Qed.

Lemma sorted_NoDup (s : gset string) : NoDup (Py.sorted s).
Proof.
  unfold Py.sorted. rewrite merge_sort_Permutation. apply NoDup_elements.
Qed.

Lemma sorted_ascending (s : gset string) : StronglySorted String.le (Py.sorted s).
Proof. unfold Py.sorted. apply StronglySorted_merge_sort; apply _. Qed.

Lemma parse_some args out :
  parsePVArguments getBasePV args = Some out ->
  exists B, getBasePV (AList args) = Some B /\ B <> EmptyString /\
            out = Py.sorted (collect getBasePV B ∅ args).
Proof.
  unfold parsePVArguments.
  destruct (length args =? 0)%nat; [discriminate|].
  destruct (getBasePV (AList args)) as [b|] eqn:Hb; simpl; [|discriminate].
  destruct (String.eqb_spec b ""); [discriminate|].
  intros [= <-]. eauto.
Qed.

Lemma token_step_mono B PVs arg : PVs ⊆ token_step getBasePV B PVs arg.
Proof.
  assert (Hexp : forall n s P, P ⊆ expand B s n P).
  { induction n as [|n IH]; intros s P; simpl; [done|].
    etrans; [|apply IH]. set_solver. }
  assert (Hadd : forall a P, P ⊆ add_if_base getBasePV B a P).
  { intros a P. unfold add_if_base. case_decide; set_solver. }
  unfold token_step.
  destruct (Py.contains _ arg).
  - destruct (Py.split_on _ arg) as [|p0 [|p1 ps]]; [done..|].
    destruct (Py.int (Py.last2 p0)); [|apply Hadd].
    destruct (Py.int p1); [|apply Hadd].
    unfold while_range. etrans; [apply Hadd|apply Hexp].
  - destruct (3 <? String.length arg)%nat; [apply Hadd|].
    destruct (String.length arg <? 3)%nat; [|done].
    destruct (Py.int arg); set_solver.
Qed.

Lemma collect_mono B l : forall PVs, PVs ⊆ collect getBasePV B PVs l.
Proof.
  induction l as [|a l IH]; intros PVs; [done|].
  rewrite collect_cons. etrans; [apply token_step_mono|apply IH].
Qed.


Lemma token_step_in_collect B tok args PVs :
  tok ∈ args ->
  exists P, token_step getBasePV B P tok ⊆ collect getBasePV B PVs args.
Proof.
  intros (l1 & l2 & ->)%list_elem_of_split.
  exists (collect getBasePV B PVs l1).
  rewrite collect_app, collect_cons. apply collect_mono.
Qed.

Lemma range_03_06 B PVs :
  getBasePV (AStr "03") <> Some B ->
  token_step getBasePV B PVs "03-06" =
  {[B +:+ "03"; B +:+ "04"; B +:+ "05"; B +:+ "06"]} ∪ PVs.
Proof.
  intros Hb. unfold token_step. cbn -[add_if_base while_range].
  change (Py.last2 "03") with "03".
  change (Py.int "03") with (Some 3). change (Py.int "06") with (Some 6).
  unfold add_if_base. rewrite decide_False by done.
  unfold while_range. simpl.
  change (Py.fmt02 3) with "03". change (Py.fmt02 4) with "04".
  change (Py.fmt02 5) with "05". change (Py.fmt02 6) with "06".
  apply set_eq. intros x. rewrite !elem_of_union, !elem_of_singleton. tauto.
Qed.

(** C5: a range token "03-06" adds exactly B03, B04, B05 and B06 to the
    set of identifiers, these four identifiers are in the output of
    [parsePVArguments] on every token list of base [B] that holds the
    token, and the output of [parsePVArguments] is always free of
    duplicates and sorted in ascending lexicographic order. *)
Theorem expansion_range_nodup_sorted (args : list string) (B : string)
    (out : list string) :
  parsePVArguments getBasePV args = Some out ->
  getBasePV (AList args) = Some B ->
  NoDup out /\ StronglySorted String.le out /\
  (forall x, x ∈ out <-> x ∈ collect getBasePV B ∅ args) /\
  (getBasePV (AStr "03") <> Some B ->
   (forall PVs, token_step getBasePV B PVs "03-06" =
                {[B +:+ "03"; B +:+ "04"; B +:+ "05"; B +:+ "06"]} ∪ PVs) /\
   ("03-06" ∈ args ->
    B +:+ "03" ∈ out /\ B +:+ "04" ∈ out /\ B +:+ "05" ∈ out /\ B +:+ "06" ∈ out)).
Proof.
  intros Hout HB.
  destruct (parse_some _ _ Hout) as (B' & HB' & _ & ->).
  assert (B' = B) as -> by congruence.
  split; [apply sorted_NoDup|]. split; [apply sorted_ascending|].
  split; [intros x; apply sorted_elem_of|].
  intros H03. split; [intros PVs; by apply range_03_06|].
  intros Hin.
  destruct (token_step_in_collect B _ _ ∅ Hin) as [P HP].
  rewrite range_03_06 in HP by done.
  rewrite !sorted_elem_of. set_solver.
Qed.

End ExpansionFacts.

Lemma expansion_range_nodup_sorted_witness :
  let args := ["SXR:EXP:MMS:04"; "03-06"; "05"] in
  let out := ["SXR:EXP:MMS:03"; "SXR:EXP:MMS:04"; "SXR:EXP:MMS:05"; "SXR:EXP:MMS:06"] in
  parsePVArguments getBasePV_colon args = Some out /\
  getBasePV_colon (AList args) = Some "SXR:EXP:MMS:" /\
  NoDup out /\ StronglySorted String.le out.
Proof.
  intros args out.
  assert (H1 : parsePVArguments getBasePV_colon args = Some out) by (vm_compute; reflexivity).
  assert (H2 : getBasePV_colon (AList args) = Some "SXR:EXP:MMS:") by reflexivity.
  split; [exact H1|]. split; [exact H2|].
  pose proof (expansion_range_nodup_sorted getBasePV_colon args _ out H1 H2) as (Hn & Hs & _).
  split; assumption.
Defined.

Section ExpansionTokens.

Variable getBasePV : PyArg -> option string.

Lemma add_if_base_cases B a PVs :
  (getBasePV (AStr a) = Some B /\ add_if_base getBasePV B a PVs = {[a]} ∪ PVs) \/
  (getBasePV (AStr a) <> Some B /\ add_if_base getBasePV B a PVs = PVs).
Proof. unfold add_if_base. case_decide; auto. Qed.

Lemma token_step_plain B PVs arg :
  Py.contains "-"%char arg = false ->
  token_step getBasePV B PVs arg =
  if (3 <? String.length arg)%nat then add_if_base getBasePV B arg PVs
  else if (String.length arg <? 3)%nat then
         match Py.int arg with
         | Some n => {[B +:+ Py.fmt02 n]} ∪ PVs
         | None => PVs
         end
       else PVs.
Proof. intros H. unfold token_step. by rewrite H. Qed.

(** C10: a token without a hyphen and of length exactly three adds no
    identifier: the set of identifiers is the same after its turn of
    the loop, and the loop over a token list gives the same set with
    and without it.  A hyphen-free token that does change the set is
    either longer than three characters, a full identifier of the same
    base that is added as it is, or shorter than three characters, a
    numeric suffix that is added with the base in front. *)
Theorem length3_token_dropped (B arg : string) :
  Py.contains "-"%char arg = false ->
  (String.length arg = 3%nat ->
   forall PVs l1 l2,
     token_step getBasePV B PVs arg = PVs /\
     collect getBasePV B PVs (l1 ++ arg :: l2) =
     collect getBasePV B PVs (l1 ++ l2)) /\
  (forall PVs,
     token_step getBasePV B PVs arg <> PVs ->
     ((3 < String.length arg)%nat /\ getBasePV (AStr arg) = Some B /\
      token_step getBasePV B PVs arg = {[arg]} ∪ PVs) \/
     ((String.length arg < 3)%nat /\
      exists n, Py.int arg = Some n /\
                token_step getBasePV B PVs arg = {[B +:+ Py.fmt02 n]} ∪ PVs)).
Proof.
  intros Hh. split.
  - intros Hlen.
    assert (Hstep : forall P, token_step getBasePV B P arg = P).
    { intros P. rewrite token_step_plain by done. by rewrite Hlen. }
    intros PVs l1 l2. split; [apply Hstep|].
    by rewrite !collect_app, collect_cons, Hstep.
  - intros PVs. rewrite token_step_plain by done.
    destruct (Nat.ltb_spec 3 (String.length arg)) as [Hgt|Hle].
    + intros Hne. left. split; [done|].
      destruct (add_if_base_cases B arg PVs) as [[? ->]|[? Heq]]; [done|].
      by rewrite Heq in Hne.
    + destruct (Nat.ltb_spec (String.length arg) 3) as [Hlt|Hge]; [|done].
      destruct (Py.int arg) as [n|] eqn:Hint; [|done].
      intros _. right. eauto.
Qed.


End ExpansionTokens.

Lemma length3_token_dropped_witness :
  Py.contains "-"%char "100" = false /\
  String.length "100" = 3%nat /\
  token_step getBasePV_colon "SXR:EXP:MMS:" ∅ "100" = ∅ /\
  collect getBasePV_colon "SXR:EXP:MMS:" ∅ (["01"] ++ "100" :: ["02"]) =
  collect getBasePV_colon "SXR:EXP:MMS:" ∅ (["01"] ++ ["02"]).
Proof.
  assert (Hh : Py.contains "-"%char "100" = false) by reflexivity.
  assert (Hl : String.length "100" = 3%nat) by reflexivity.
  destruct (length3_token_dropped getBasePV_colon "SXR:EXP:MMS:" "100" Hh)
    as [Hdrop _].
  destruct (Hdrop Hl ∅ ["01"] ["02"]) as [H1 H2].
  repeat split; assumption.
Defined.



(** * Runs and what they keep *)

Lemma run_bind {A B} (m : M A) (f : A -> M B) (w : World) :
  (m ≫= f) w =
  match m w with
  | (Val a, w') => f a w'
  | (Exn, w') => (Exn, w')
  end.
Proof. reflexivity. Qed.

Lemma run_bind_val {A B} (m : M A) (f : A -> M B) (w w' : World) (a : A) :
  m w = (Val a, w') -> (m ≫= f) w = f a w'.
Proof. intros H. rewrite run_bind. by rewrite H. Qed.

Lemma run_bind_exn {A B} (m : M A) (f : A -> M B) (w w' : World) :
  m w = (Exn, w') -> (m ≫= f) w = (Exn, w').
Proof. intros H. rewrite run_bind. by rewrite H. Qed.


Section Keeps.

Context (R : relation World) `{!PreOrder R}.

Lemma keeps_ret {A} (a : A) : keeps R (mret a).
Proof. intros w. reflexivity. Qed.

Lemma keeps_raise {A} : keeps R (@raise A).
Proof. intros w. reflexivity. Qed.

Lemma keeps_get_world : keeps R get_world.
Proof. intros w. reflexivity. Qed.

Lemma keeps_bind {A B} (m : M A) (f : A -> M B) :
  keeps R m -> (forall a, keeps R (f a)) -> keeps R (m ≫= f).
Proof.
  intros Hm Hf w. rewrite run_bind. specialize (Hm w).
  destruct (m w) as [[a|] w']; simpl in *; [|done].
  etrans; [exact Hm|apply Hf].
Qed.

Lemma keeps_try {A} (m h : M A) :
  keeps R m -> keeps R h -> keeps R (try_except m h).
Proof.
  intros Hm Hh w. unfold try_except. specialize (Hm w).
  destruct (m w) as [[a|] w']; simpl in *; [done|].
  etrans; [exact Hm|apply Hh].
Qed.

Lemma keeps_dict_get (d : Dict) (f : string) : keeps R (dict_get d f).
Proof. intros w. unfold dict_get. destruct (d !! f); reflexivity. Qed.

Lemma keeps_as_str (v : PyVal) : keeps R (as_str v).
Proof. intros w. destruct v; reflexivity. Qed.

Lemma keeps_for_each {A} (body : A -> M unit) (l : list A) :
  (forall a, keeps R (body a)) -> keeps R (for_each body l).
Proof.
  intros Hb. induction l as [|a l IH]; simpl.
  - apply keeps_ret.
  - apply keeps_bind; [apply Hb|intros _; apply IH].
Qed.

End Keeps.


Create HintDb keeps.

(** One step through the shape of a computation. *)
Ltac keeps_step :=
  lazymatch goal with
  | |- keeps _ (mbind _ _) => apply keeps_bind; [apply _| |intros ?]
  | |- keeps _ (mret _) => apply keeps_ret; apply _
  | |- keeps _ raise => apply keeps_raise; apply _
  | |- keeps _ get_world => apply keeps_get_world; apply _
  | |- keeps _ (dict_get _ _) => apply keeps_dict_get; apply _
  | |- keeps _ (as_str _) => apply keeps_as_str; apply _
  | |- keeps _ (try_except _ _) => apply keeps_try; [apply _|..]
  | |- keeps _ (match ?x with _ => _ end) => destruct x eqn:?
  | |- keeps _ (let _ := _ in _) => cbv zeta
  | |- keeps _ _ => solve [eauto with keeps typeclass_instances]
  end.

Ltac keeps_go := repeat keeps_step.

Section Inert.

Context (R : relation World) `{!Inert R}.

Lemma keeps_emit e : keeps R (emit e).
Proof. intros w. apply inert_emit. Qed.

Lemma keeps_attempt : keeps R attempt.
Proof.
  intros w. unfold attempt. destruct (script w); [reflexivity|apply inert_script].
Qed.

Lemma keeps_deref r : keeps R (deref r).
Proof. intros w. unfold deref. destruct (heap w !! r); reflexivity. Qed.

Lemma keeps_store r p : keeps R (store r p).
Proof. intros w. apply inert_heap. Qed.

Lemma keeps_alloc p : keeps R (alloc p).
Proof. intros w. apply inert_heap. Qed.

Lemma keeps_pv_get n : keeps R (pv_get n).
Proof. intros w. unfold pv_get. destruct (live w !! n); reflexivity. Qed.

Lemma keeps_raw_input : keeps R raw_input.
Proof.
  intros w. unfold raw_input. destruct (stdin w); [reflexivity|apply inert_stdin].
Qed.

Lemma keeps_set_live l : keeps R (set_live l).
Proof. intros w. apply inert_live. Qed.

Hint Resolve keeps_emit keeps_attempt keeps_deref keeps_store keeps_alloc
  keeps_pv_get keeps_raw_input keeps_set_live : keeps.

Lemma keeps_read_objs r k : keeps R (read_objs r k).
Proof. unfold read_objs. keeps_go. Qed.

Lemma keeps_read_cfgs r k : keeps R (read_cfgs r k).
Proof. unfold read_cfgs. keeps_go. Qed.

Lemma keeps_set_obj_field r k f v : keeps R (set_obj_field r k f v).
Proof. unfold set_obj_field. keeps_go. Qed.

Lemma keeps_set_cfg_field r k f v : keeps R (set_cfg_field r k f v).
Proof. unfold set_cfg_field. keeps_go. Qed.

Lemma keeps_updateTables r : keeps R (updateTables r).
Proof. unfold updateTables. keeps_go. Qed.

Lemma keeps_getPmgr t h : keeps R (getPmgr t h).
Proof. unfold getPmgr. keeps_go. Qed.

Lemma keeps_getObjWithSN r sn : keeps R (getObjWithSN r sn).
Proof. unfold getObjWithSN. keeps_go. Qed.

Lemma keeps_allCfgNames r : keeps R (allCfgNames r).
Proof. unfold allCfgNames. keeps_go. Qed.

Lemma keeps_cfgFromName r n : keeps R (cfgFromName r n).
Proof. unfold cfgFromName. keeps_go. Qed.

Lemma keeps_get_all_SN r : keeps R (get_all_SN r).
Proof. unfold get_all_SN. keeps_go. Qed.

Lemma keeps_objApply r i : keeps R (objApply r i).
Proof. unfold objApply. keeps_go. Qed.

Lemma keeps_print_diff U r a b c d v kw : keeps R (print_diff U r a b c d v kw).
Proof. unfold print_diff. keeps_go. Qed.

(** A mutating call keeps the relation when its change of the
    registry does. *)
Lemma keeps_mutate {A} r op (failed : A) (run : DB -> option (DB * A)) :
  (forall w k db d a, dbs w !! k = Some db -> run db = Some (d, a) ->
                      R w (with_dbs w (<[k := d]> (dbs w)))) ->
  keeps R (mutate r op failed run).
Proof.
  intros Hrun w. unfold mutate, deref. rewrite run_bind.
  destruct (heap w !! r) as [p|]; [|reflexivity].
  rewrite run_bind. cbn [emit]. rewrite run_bind.
  etrans; [apply (inert_emit w (EWrite (key p) op))|].
  set (w1 := with_log w _). unfold attempt.
  assert (Hgo : forall w2, R w2
    (match
       match dbs w2 !! key p ≫= run with
       | Some (d, a) => _ ← set_db (key p) d; mret a
       | None => mret failed
       end w2
     with (_, w3) => w3 end)).
  { intros w2. destruct (dbs w2 !! key p ≫= run) as [[d a]|] eqn:Hb; [|reflexivity].
    apply bind_Some in Hb as (db & Hdb & Hr). simpl. by eapply Hrun. }
  destruct (script w1) as [|[] s]; simpl.
  - apply Hgo.
  - etrans; [apply (inert_script w1 s)|]. apply Hgo.
  - apply inert_script.
  - apply inert_script.
Qed.

End Inert.

#[global] Hint Resolve keeps_emit keeps_attempt keeps_deref keeps_store
  keeps_alloc keeps_pv_get keeps_raw_input keeps_set_live keeps_read_objs
  keeps_read_cfgs keeps_set_obj_field keeps_set_cfg_field keeps_updateTables
  keeps_getPmgr keeps_getObjWithSN keeps_allCfgNames keeps_cfgFromName
  keeps_get_all_SN keeps_objApply keeps_print_diff : keeps.

(** ** The log only grows *)


Lemma log_ext_inert : Inert log_ext.
Proof.
  split; [split|..]; unfold log_ext.
  - intros w. reflexivity.
  - intros w1 w2 w3 H1 H2. by etrans.
  - intros w e. simpl. by apply prefix_app_r.
  - done.
  - done.
  - done.
  - done.
Qed.

#[global] Existing Instance log_ext_inert.

Lemma log_ext_mutate {A} r op (failed : A) run :
  keeps log_ext (mutate r op failed run).
Proof. apply keeps_mutate; [apply _|]. intros. unfold log_ext. done. Qed.

Lemma log_ext_transaction r m i d : keeps log_ext (transaction r m i d).
Proof. destruct m; apply log_ext_mutate. Qed.

Lemma log_ext_setObjCfg r a b : keeps log_ext (setObjCfg r a b).
Proof. apply log_ext_mutate. Qed.

#[global] Hint Resolve log_ext_mutate log_ext_transaction log_ext_setObjCfg : keeps.

Section ApplyLog.

Variable U : Utlp.

Lemma log_ext_gather objType hutches st :
  keeps log_ext (gather_names objType hutches st).
Proof.
  revert st. induction hutches as [|h hs IH]; intros [[r names] name]; simpl.
  - keeps_go.
  - keeps_go.
Qed.

Lemma log_ext_not_yes c : keeps log_ext (not_yes c).
Proof. destruct c; simpl; keeps_go. Qed.

Lemma log_ext_confirm turns names confirm cfgName :
  keeps log_ext (confirm_loop turns names confirm cfgName).
Proof.
  revert confirm cfgName.
  induction turns as [|n IH]; intros confirm cfgName; simpl.
  - apply keeps_bind; [apply _|apply log_ext_not_yes|intros []; keeps_go].
  - apply keeps_bind; [apply _|apply log_ext_not_yes|intros []; keeps_go].
Qed.

Hint Resolve log_ext_gather log_ext_confirm : keeps.

Lemma log_ext_apply_dumb PV objType hutches pmgr objID obj dumb_cfg
    dumb_confirm name verbose :
  keeps log_ext (apply_dumb U PV objType hutches pmgr objID obj dumb_cfg
                   dumb_confirm name verbose).
Proof. unfold apply_dumb. keeps_go. Qed.

Lemma log_ext_apply_name pmgr objID obj name :
  keeps log_ext (apply_name pmgr objID obj name).
Proof. unfold apply_name. keeps_go. Qed.

Lemma log_ext_apply_push PV pmgr objID verbose :
  keeps log_ext (apply_push U PV pmgr objID verbose).
Proof. unfold apply_push. keeps_go. Qed.

Hint Resolve log_ext_apply_dumb log_ext_apply_name log_ext_apply_push : keeps.

Lemma log_ext_apply_tail PV hutches objType pmgr objID obj verbose dumb
    dumb_cfg dumb_confirm name :
  keeps log_ext (apply_tail U PV hutches objType pmgr objID obj verbose dumb
                   dumb_cfg dumb_confirm name).
Proof. unfold apply_tail. keeps_go. Qed.

End ApplyLog.

(** * [applyConfig]: the object is updated before the push *)

Lemma run_deref r w p : heap w !! r = Some p -> deref r w = (Val p, w).
Proof. intros H. unfold deref. by rewrite H. Qed.

Lemma run_pv_get n w v : live w !! n = Some v -> pv_get n w = (Val v, w).
Proof. intros H. unfold pv_get. by rewrite H. Qed.

Lemma run_dict_get (d : Dict) f v w : d !! f = Some v -> dict_get d f w = (Val v, w).
Proof. intros H. unfold dict_get. by rewrite H. Qed.

Lemma run_read_objs r k w p d :
  heap w !! r = Some p -> tbl_get (objs p) k = Some d ->
  read_objs r k w = (Val d, with_log w (log w ++ [ERead (key p) Objs])).
Proof.
  intros Hr Hk. unfold read_objs.
  erewrite run_bind_val by (by apply run_deref).
  rewrite run_bind. cbn [emit]. by rewrite Hk.
Qed.

Lemma run_read_cfgs r k w p d :
  heap w !! r = Some p -> tbl_get (cfgs p) k = Some d ->
  read_cfgs r k w = (Val d, with_log w (log w ++ [ERead (key p) Cfgs])).
Proof.
  intros Hr Hk. unfold read_cfgs.
  erewrite run_bind_val by (by apply run_deref).
  rewrite run_bind. cbn [emit]. by rewrite Hk.
Qed.


Lemma run_attempt_works w :
  next_works w -> attempt w = (Val Works, with_script w (tail (script w))).
Proof.
  unfold next_works, attempt. destruct w as [d h l lg [|[] s] i]; simpl; done.
Qed.

(** A mutating call that works, on a registry that takes it. *)
Lemma run_mutate_works {A} r op (failed : A) run w p db d a :
  heap w !! r = Some p -> next_works w ->
  dbs w !! key p = Some db -> run db = Some (d, a) ->
  mutate r op failed run w =
  (Val a, with_dbs (with_script (with_log w (log w ++ [EWrite (key p) op]))
                      (tail (script w)))
            (<[key p := d]> (dbs w))).
Proof.
  intros Hr Hw Hdb Hrun. unfold mutate.
  erewrite run_bind_val by (by apply run_deref).
  rewrite run_bind. cbn [emit].
  erewrite run_bind_val by (by apply run_attempt_works).
  cbn [script with_log]. rewrite run_bind. cbn [get_world dbs with_script with_log].
  rewrite Hdb. cbn [mbind option_bind]. rewrite Hrun. reflexivity.
Qed.

Lemma run_updateTables r w p db :
  heap w !! r = Some p -> dbs w !! key p = Some db ->
  updateTables r w =
  (Val tt, with_heap (with_log w (log w ++ [ERefresh (key p)]))
             (<[r := mkPmgr (p_type p) (p_hutch p) (db_objs db) (db_cfgs db)]>
                (heap w))).
Proof.
  intros Hr Hdb. unfold updateTables.
  erewrite run_bind_val by (by apply run_deref).
  rewrite run_bind. cbn [emit]. rewrite run_bind.
  cbn [get_world dbs with_log]. rewrite Hdb. reflexivity.
Qed.
Lemma prefix_bind {A B} (m : M A) (f : A -> M B) (l : list Event) w :
  l `prefix_of` log (m w).2 ->
  (forall a, keeps log_ext (f a)) ->
  l `prefix_of` log ((m ≫= f) w).2.
Proof.
  intros Hl Hf. rewrite run_bind. destruct (m w) as [[a|] w']; simpl in *; [|done].
  etrans; [exact Hl|apply Hf].
Qed.

Lemma log_ext_set_db k d : keeps log_ext (set_db k d).
Proof. intros w. unfold log_ext. done. Qed.

#[global] Hint Resolve log_ext_set_db : keeps.

Lemma mutate_log_first {A} r op (failed : A) run w p :
  heap w !! r = Some p ->
  (log w ++ [EWrite (key p) op]) `prefix_of` log (mutate r op failed run w).2.
Proof.
  intros Hr. unfold mutate.
  erewrite run_bind_val by (by apply run_deref).
  rewrite run_bind. cbn [emit].
  set (w1 := with_log w _).
  match goal with |- _ `prefix_of` log (?k w1).2 =>
    assert (Hk : keeps log_ext k) by keeps_go; apply (Hk w1) end.
Qed.

Section ApplyOrder.

Variable U : Utlp.

Lemma apply_rec_base_moved PV pmgr objID w p obj port :
  heap w !! pmgr = Some p ->
  tbl_get (objs p) objID = Some obj ->
  live w !! (PV +:+ ".PORT") = Some port ->
  moved PV port obj ->
  apply_rec_base PV pmgr objID w =
  (_ ← transaction pmgr objectChange_ objID (relocated PV port obj);
   _ ← updateTables pmgr;
   read_objs pmgr objID) (with_log w (log w ++ [ERead (key p) Objs])).
Proof.
  intros Hr Hobj Hport (rb & Hrb & Hmv). unfold apply_rec_base.
  erewrite run_bind_val by (by eapply run_read_objs).
  erewrite run_bind_val by (by apply run_pv_get).
  erewrite run_bind_val by (by apply run_dict_get).
  destruct (bool_decide (rb = VStr PV)) eqn:Hb; cbn [negb].
  - apply bool_decide_eq_true in Hb. destruct Hmv as [?|(fp & Hfp & Hne)]; [done|].
    rewrite run_bind.
    erewrite run_bind_val by (by apply run_dict_get).
    cbn [mret M_ret]. rewrite bool_decide_false by done. reflexivity.
  - rewrite run_bind. cbn [mret M_ret]. reflexivity.
Qed.

Lemma applyConfig_resolved PV hutches objType SN verbose zenity dumb dumb_cfg
    dumb_confirm name w objID p :
  getMostRecentObj U w hutches SN objType verbose = (objID, Some p) ->
  truthy objID = true ->
  applyConfig U PV hutches objType SN verbose zenity dumb dumb_cfg dumb_confirm
    name w =
  (obj ← apply_rec_base PV (length (heap w)) objID;
   apply_tail U PV hutches objType (length (heap w)) objID obj verbose dumb
     dumb_cfg dumb_confirm name) (alloc p w).2.
Proof.
  intros Hm Ht. unfold applyConfig. rewrite run_bind. cbn [get_world].
  rewrite Hm, Ht. cbn [negb]. rewrite run_bind. reflexivity.
Qed.

(** The case in which the registry takes the write: when [applyConfig]
    has found the object of the motor and its [rec_base] or [FLD_PORT]
    is not what the motor shows now, the object with both fields set to
    the live values is sent to the registry right after the object was
    read, so before any push; when the call works, the record holds
    both live values in the world [w1] reached before the rest of the
    function, [apply_tail], which alone calls [objApply], is run. *)
Theorem apply_updates_location_before_push PV hutches objType SN verbose zenity
    dumb dumb_cfg dumb_confirm name w objID p obj port :
  getMostRecentObj U w hutches SN objType verbose = (objID, Some p) ->
  truthy objID = true ->
  tbl_get (objs p) objID = Some obj ->
  live w !! (PV +:+ ".PORT") = Some port ->
  moved PV port obj ->
  let run := applyConfig U PV hutches objType SN verbose zenity dumb dumb_cfg
               dumb_confirm name w in
  let pmgr := length (heap w) in
  let obj' := relocated PV port obj in
  (exists rest,
     log run.2 =
     log w ++ ERead (key p) Objs :: EWrite (key p) (ObjectChange objID obj') :: rest) /\
  (forall db z old,
     next_works w -> dbs w !! key p = Some db -> objID = VInt z ->
     db_objs db !! z = Some old ->
     exists w1,
       apply_rec_base PV pmgr objID (alloc p w).2 = (Val (obj' ∪ old), w1) /\
       db_obj w1 (key p) z = Some (obj' ∪ old) /\
       (obj' ∪ old) !! "rec_base" = Some (VStr PV) /\
       (obj' ∪ old) !! "FLD_PORT" = Some port /\
       log w1 = log w ++ [ERead (key p) Objs;
                          EWrite (key p) (ObjectChange objID obj');
                          ERefresh (key p); ERead (key p) Objs] /\
       run = apply_tail U PV hutches objType pmgr objID (obj' ∪ old) verbose dumb
               dumb_cfg dumb_confirm name w1).
Proof.
  intros Hm Ht Hobj Hport Hmv run pmgr obj'.
  assert (Hheap : heap (alloc p w).2 !! pmgr = Some p).
  { simpl. unfold pmgr. rewrite lookup_app_r by lia. by rewrite Nat.sub_diag. }
  assert (Hrun : run = (obj ← apply_rec_base PV pmgr objID;
     apply_tail U PV hutches objType pmgr objID obj verbose dumb
       dumb_cfg dumb_confirm name) (alloc p w).2)
    by (by apply applyConfig_resolved).
  split.
  - assert (Hp : (log w ++ [ERead (key p) Objs] ++ [EWrite (key p) (ObjectChange objID obj')])
                 `prefix_of` log run.2).
    { rewrite Hrun. apply prefix_bind; [|intros; apply log_ext_apply_tail].
      erewrite apply_rec_base_moved by done.
      apply prefix_bind; [|intros; keeps_go].
      rewrite app_assoc. apply (mutate_log_first pmgr _ false). exact Hheap. }
    destruct Hp as [rest Hrest]. exists rest. rewrite Hrest.
    by rewrite <- !app_assoc.
  - intros db z old Hw Hdb -> Hold.
    set (w0 := with_log (alloc p w).2 (log (alloc p w).2 ++ [ERead (key p) Objs])).
    set (db1 := mkDB (<[z := obj' ∪ old]> (db_objs db)) (db_cfgs db)).
    assert (H1 : transaction pmgr objectChange_ (VInt z) obj' w0 =
                 (Val true,
                  with_dbs (with_script (with_log w0 (log w0 ++
                     [EWrite (key p) (ObjectChange (VInt z) obj')]))
                     (tail (script w0))) (<[key p := db1]> (dbs w0)))).
    { apply (run_mutate_works pmgr _ false _ w0 p db db1 true); try done.
      simpl. by rewrite Hold. }
    set (w2 := with_dbs _ _) in H1.
    assert (H2 : updateTables pmgr w2 =
                 (Val tt, with_heap (with_log w2 (log w2 ++ [ERefresh (key p)]))
                   (<[pmgr := mkPmgr (p_type p) (p_hutch p) (db_objs db1) (db_cfgs db1)]>
                      (heap w2)))).
    { apply run_updateTables; [done|]. simpl. by rewrite lookup_insert_eq. }
    set (w3 := with_heap _ _) in H2.
    assert (H3 : read_objs pmgr (VInt z) w3 =
                 (Val (obj' ∪ old), with_log w3 (log w3 ++ [ERead (key p) Objs]))).
    { apply (run_read_objs pmgr (VInt z) w3
               (mkPmgr (p_type p) (p_hutch p) (db_objs db1) (db_cfgs db1)));
        simpl.
      - apply list_lookup_insert_eq. unfold pmgr. rewrite length_app. simpl. lia.
      - by rewrite lookup_insert_eq. }
    set (w1 := with_log w3 _) in H3.
    assert (Hrb : apply_rec_base PV pmgr (VInt z) (alloc p w).2 = (Val (obj' ∪ old), w1)).
    { erewrite apply_rec_base_moved by done. fold w0.
      erewrite run_bind_val by exact H1.
      erewrite run_bind_val by exact H2. exact H3. }
    exists w1. split; [exact Hrb|].
    split; [unfold db_obj; simpl; rewrite lookup_insert_eq; simpl;
            by rewrite lookup_insert_eq|].
    split; [apply lookup_union_Some_l; unfold obj', relocated;
            by rewrite lookup_insert_ne, lookup_insert_eq|].
    split; [apply lookup_union_Some_l; unfold obj', relocated;
            by rewrite lookup_insert_eq|].
    split; [simpl; by rewrite <- !app_assoc|].
    rewrite Hrun. by erewrite run_bind_val by exact Hrb.
Qed.

End ApplyOrder.

Lemma apply_updates_location_before_push_witness :
  getMostRecentObj utlp0 world0 ["xpp"] (VStr "001") "ims_motor" false =
    (VInt 7, Some pmgr0) /\
  moved motor (VStr "digi-02") motor_obj /\
  exists rest,
    log (applyConfig utlp0 motor ["xpp"] "ims_motor" (VStr "001") false false
           false None true None world0).2 =
    log world0 ++
    ERead (key pmgr0) Objs ::
    EWrite (key pmgr0) (ObjectChange (VInt 7) (relocated motor (VStr "digi-02") motor_obj)) ::
    rest.
Proof.
  assert (H1 : getMostRecentObj utlp0 world0 ["xpp"] (VStr "001") "ims_motor" false =
               (VInt 7, Some pmgr0)) by (vm_compute; reflexivity).
  assert (H2 : moved motor (VStr "digi-02") motor_obj).
  { exists (VStr "XPP:USR:MMS:07"). split; [vm_compute; reflexivity|].
    left. discriminate. }
  split; [exact H1|]. split; [exact H2|].
  refine (proj1 (apply_updates_location_before_push utlp0 motor ["xpp"] "ims_motor"
            (VStr "001") false false false None true None world0 (VInt 7) pmgr0
            motor_obj (VStr "digi-02") H1 _ _ _ H2)).
  - reflexivity.
  - vm_compute; reflexivity.
  - vm_compute; reflexivity.
Defined.

(** * A failure of [printDiff] changes nothing *)

Lemma same_refl {A} (a : Res A * World) : same_but_diff a a.
Proof. by split. Qed.

Lemma same_bind {A B} (m : M A) (f1 f2 : A -> M B) w :
  (forall a w', same_but_diff (f1 a w') (f2 a w')) ->
  same_but_diff ((m ≫= f1) w) ((m ≫= f2) w).
Proof.
  intros H. rewrite !run_bind. destruct (m w) as [[a|] w']; [apply H|apply same_refl].
Qed.

Ltac same_go :=
  repeat first
    [ apply same_refl
    | apply same_bind; intros ? ?
    | progress cbv zeta
    | match goal with
      | |- same_but_diff (match ?x with _ => _ end _) _ => destruct x
      | |- same_but_diff ((if ?x then _ else _) _) _ => destruct x
      end ].

Section DiffSwallowed.

Variable U : Utlp.
Variable pd : Pmgr -> Dict -> Dict -> Dict -> Dict -> bool ->
              list (string * string) -> option string.

Let U1 := with_printDiff U pd.
Let U0 := with_printDiff U printDiff_raises.

(** The [try] around [printDiff]: a report more in the log, or nothing. *)
Lemma try_print_diff_same r a b c d v kw w :
  same_but_diff (try_except (print_diff U1 r a b c d v kw) (mret tt) w)
                (try_except (print_diff U0 r a b c d v kw) (mret tt) w).
Proof.
  unfold try_except, print_diff. rewrite !run_bind. unfold deref.
  destruct (heap w !! r) as [p|]; [|apply same_refl].
  simpl. destruct (pd p a b c d v kw) as [report|]; [|apply same_refl].
  split; [done|]. unfold quiet. simpl. f_equal.
  rewrite filter_app. simpl. rewrite filter_cons_False by (simpl; congruence).
  by rewrite filter_nil, app_nil_r.
Qed.

Lemma save_diff_same pmgr objID cfgID olds verbose w :
  same_but_diff (save_diff U1 pmgr objID cfgID olds verbose w)
                (save_diff U0 pmgr objID cfgID olds verbose w).
Proof.
  unfold save_diff. destruct (truthy cfgID && truthy objID); [|apply same_refl].
  apply same_bind; intros cfgPmgr w1. apply same_bind; intros objPmgr w2.
  destruct olds as [[objOld cfgOld]|]; [apply try_print_diff_same|apply same_refl].
Qed.

Lemma saveConfig_same PV hutch pmgr SN verbose zenity rename w :
  same_but_diff (saveConfig U1 PV hutch pmgr SN verbose zenity rename w)
                (saveConfig U0 PV hutch pmgr SN verbose zenity rename w).
Proof.
  unfold saveConfig. same_go;
    first [apply save_diff_same | refine (try_print_diff_same _ _ _ _ _ _ _ _)].
Qed.

Lemma apply_push_same PV pmgr objID verbose w :
  same_but_diff (apply_push U1 PV pmgr objID verbose w)
                (apply_push U0 PV pmgr objID verbose w).
Proof.
  unfold apply_push. same_go. refine (try_print_diff_same _ _ _ _ _ _ _ _).
Qed.

Lemma apply_tail_same PV hutches objType pmgr objID obj verbose dumb dumb_cfg
    dumb_confirm name w :
  same_but_diff
    (apply_tail U1 PV hutches objType pmgr objID obj verbose dumb dumb_cfg
       dumb_confirm name w)
    (apply_tail U0 PV hutches objType pmgr objID obj verbose dumb dumb_cfg
       dumb_confirm name w).
Proof.
  unfold apply_tail. same_go;
    first [apply apply_push_same | refine (try_print_diff_same _ _ _ _ _ _ _ _)].
Qed.

Lemma applyConfig_same PV hutches objType SN verbose zenity dumb dumb_cfg
    dumb_confirm name w :
  same_but_diff
    (applyConfig U1 PV hutches objType SN verbose zenity dumb dumb_cfg
       dumb_confirm name w)
    (applyConfig U0 PV hutches objType SN verbose zenity dumb dumb_cfg
       dumb_confirm name w).
Proof.
  unfold applyConfig. apply same_bind; intros w0 w1.
  change (getMostRecentObj U1) with (getMostRecentObj U).
  change (getMostRecentObj U0) with (getMostRecentObj U).
  destruct (getMostRecentObj U w0 hutches SN objType verbose) as [objID [p|]];
    [|apply same_refl].
  destruct (negb (truthy objID)); [apply same_refl|].
  apply same_bind; intros r w2. apply same_bind; intros obj w3.
  apply apply_tail_same.
Qed.

Lemma Diff_same PV hutch pmgr SN verbose w :
  same_but_diff (Diff U1 PV hutch pmgr SN verbose w)
                (Diff U0 PV hutch pmgr SN verbose w).
Proof. unfold Diff. same_go. refine (try_print_diff_same _ _ _ _ _ _ _ _). Qed.

(** C8: in [saveConfig], [applyConfig] and [Diff] the call of
    [printDiff] sits in a [try] with a bare [except]: the block always
    ends normally and leaves the registries, the live values and the
    [pmgr] objects as they were, and a run in which [printDiff] raises
    ends as the run in which it does not, with the same result and the
    same world but for the report printed. *)
Theorem diff_failure_swallowed :
  (forall r a b c d v kw w,
     let out := try_except (print_diff U1 r a b c d v kw) (mret tt) w in
     out.1 = Val tt /\ dbs out.2 = dbs w /\ live out.2 = live w /\
     heap out.2 = heap w) /\
  (forall PV hutch pmgr SN verbose zenity rename w,
     same_but_diff (saveConfig U1 PV hutch pmgr SN verbose zenity rename w)
                   (saveConfig U0 PV hutch pmgr SN verbose zenity rename w)) /\
  (forall PV hutches objType SN verbose zenity dumb dumb_cfg dumb_confirm name w,
     same_but_diff
       (applyConfig U1 PV hutches objType SN verbose zenity dumb dumb_cfg
          dumb_confirm name w)
       (applyConfig U0 PV hutches objType SN verbose zenity dumb dumb_cfg
          dumb_confirm name w)) /\
  (forall PV hutch pmgr SN verbose w,
     same_but_diff (Diff U1 PV hutch pmgr SN verbose w)
                   (Diff U0 PV hutch pmgr SN verbose w)).
Proof.
  split; [|split; [|split]].
  - intros r a b c d v kw w. unfold try_except, print_diff. rewrite run_bind.
    unfold deref. destruct (heap w !! r) as [p|]; simpl; [|done].
    destruct (pd p a b c d v kw); simpl; done.
  - apply saveConfig_same.
  - apply applyConfig_same.
  - apply Diff_same.
Qed.

End DiffSwallowed.

(** * The [changesn] routine *)

Lemma dbs_same_inert : Inert dbs_same.
Proof.
  split; [split|..]; unfold dbs_same; try done.
  intros w1 w2 w3 H1 H2. by rewrite H2.
Qed.

#[global] Existing Instance dbs_same_inert.

Lemma run_getPmgr_none t h w :
  dbs w !! (t, h) = None -> getPmgr t h w = (Val None, w).
Proof. intros H. unfold getPmgr. rewrite run_bind. cbn [get_world]. by rewrite H. Qed.

Lemma run_getPmgr_some t h w d :
  dbs w !! (t, h) = Some d ->
  getPmgr t h w =
  (Val (Some (length (heap w))),
   with_heap (with_log w (log w ++ [ERefresh (t, h)]))
     (heap w ++ [mkPmgr t h (db_objs d) (db_cfgs d)])).
Proof. intros H. unfold getPmgr. rewrite run_bind. cbn [get_world]. by rewrite H. Qed.

Lemma run_getObjWithSN r sn w p :
  heap w !! r = Some p ->
  getObjWithSN r sn w =
  (Val (find_sn (objs p) sn), with_log w (log w ++ [ERead (key p) Objs])).
Proof.
  intros H. unfold getObjWithSN.
  erewrite run_bind_val by (by apply run_deref). reflexivity.
Qed.

(** What a mutating call does to the registries, whatever the script. *)
Lemma mutate_dbs {A} r op (failed : A) run w p :
  heap w !! r = Some p ->
  dbs (mutate r op failed run w).2 = dbs w \/
  exists db d a, dbs w !! key p = Some db /\ run db = Some (d, a) /\
                 dbs (mutate r op failed run w).2 = <[key p := d]> (dbs w).
Proof.
  intros Hr. unfold mutate.
  erewrite run_bind_val by (by apply run_deref).
  rewrite run_bind. cbn [emit]. rewrite run_bind. unfold attempt.
  cbn [script with_log].
  assert (Hgo : forall w1, dbs w1 = dbs w ->
    dbs ((w0 ← get_world;
          match dbs w0 !! key p ≫= run with
          | Some (d, a) => _ ← set_db (key p) d; mret a
          | None => mret failed
          end) w1).2 = dbs w \/
    exists db d a, dbs w !! key p = Some db /\ run db = Some (d, a) /\
      dbs ((w0 ← get_world;
            match dbs w0 !! key p ≫= run with
            | Some (d, a) => _ ← set_db (key p) d; mret a
            | None => mret failed
            end) w1).2 = <[key p := d]> (dbs w)).
  { intros w1 Hw1. rewrite run_bind. cbn [get_world]. rewrite Hw1.
    destruct (dbs w !! key p) as [db|] eqn:Hdb; [|by left].
    cbn [mbind option_bind]. destruct (run db) as [[d a]|] eqn:Hrun; [|by left].
    right. exists db, d, a. repeat split; try done.
    rewrite run_bind. unfold set_db. simpl. by rewrite Hw1. }
  destruct (script w) as [|[] s].
  - by apply Hgo.
  - by apply Hgo.
  - by left.
  - by left.
Qed.

Lemma find_sn_Some t sn z :
  find_sn t sn = VInt z -> exists d, t !! z = Some d /\ d !! "FLD_SN" = Some sn.
Proof.
  unfold find_sn.
  destruct (filter _ (map_to_list t)) as [|[k d] l] eqn:Hf; [done|].
  intros [= ->].
  assert (Hin : (z, d) ∈ filter (fun kd : Z * Dict => kd.2 !! "FLD_SN" = Some sn)
                          (map_to_list t)) by (rewrite Hf; left).
  apply list_elem_of_filter in Hin as [Hsn Hin].
  apply elem_of_map_to_list in Hin. eauto.
Qed.

Lemma objectChange_dbs r id d w p :
  heap w !! r = Some p ->
  dbs (objectChange r id d w).2 = dbs w \/
  exists db z old,
    id = VInt z /\ dbs w !! key p = Some db /\ db_objs db !! z = Some old /\
    dbs (objectChange r id d w).2 =
    <[key p := mkDB (<[z := d ∪ old]> (db_objs db)) (db_cfgs db)]> (dbs w).
Proof.
  intros Hr. unfold objectChange.
  destruct (mutate_dbs r (ObjectChange id d) false
              (fun db => old ← tbl_get (db_objs db) id;
                 match id with
                 | VInt z => Some (mkDB (<[z := d ∪ old]> (db_objs db)) (db_cfgs db), true)
                 | _ => None
                 end) w p Hr) as [He|(db & d' & a & Hdb & Hrun & He)]; [by left|].
  right. apply bind_Some in Hrun as (old & Hold & Hrun).
  destruct id as [|z|]; try done. simpl in Hold. injection Hrun as <- <-.
  by exists db, z, old.
Qed.

Lemma find_sn_not_str t sn s : find_sn t sn = VStr s -> False.
Proof. unfold find_sn. by destruct (filter _ (map_to_list t)) as [|[k d] l]. Qed.

Lemma dbs_bind_keeps {A B} (m : M A) (f : A -> M B) w :
  (forall a, keeps dbs_same (f a)) -> dbs ((m ≫= f) w).2 = dbs (m w).2.
Proof.
  intros Hf. rewrite run_bind. destruct (m w) as [[a|] w']; [|done].
  apply (Hf a w').
Qed.

Section Changesn.

Variables (T : string) (oldSN newSN : PyVal) (verbose : bool).

Lemma changesn_hutch_frame h w k :
  k <> (T, h) \/ no_match (dbs w !! k) oldSN ->
  dbs (changesn_hutch T oldSN newSN verbose h w).2 !! k = dbs w !! k.
Proof.
  intros Hk. unfold changesn_hutch.
  destruct (dbs w !! (T, h)) as [db|] eqn:Hdb.
  - erewrite run_bind_val by (by apply run_getPmgr_some). cbv beta iota.
    set (pm := mkPmgr T h (db_objs db) (db_cfgs db)).
    set (w1 := with_heap _ _).
    assert (Hh : heap w1 !! length (heap w) = Some pm).
    { unfold w1. simpl. rewrite lookup_app_r by lia. by rewrite Nat.sub_diag. }
    erewrite run_bind_val by (by apply run_getObjWithSN). cbv beta iota.
    set (w2 := with_log w1 _). change (objs pm) with (db_objs db).
    destruct (truthy (find_sn (db_objs db) oldSN)) eqn:Hf; cbn [negb]; [|done].
    rewrite dbs_bind_keeps by (intros; keeps_go).
    destruct (objectChange_dbs (length (heap w)) (find_sn (db_objs db) oldSN)
                {["FLD_SN" := newSN]} w2 pm Hh)
      as [He|(db' & z & old & Hz & Hdb' & Hold & He)]; unfold objUpdate; rewrite He.
    + done.
    + change (dbs w2) with (dbs w). change (key pm) with (T, h).
      destruct Hk as [Hk|Hk]; [by rewrite lookup_insert_ne|].
      destruct (decide (k = (T, h))) as [->|Hne]; [|by rewrite lookup_insert_ne].
      rewrite Hdb in Hk. simpl in Hk. congruence.
  - erewrite run_bind_val by (by apply run_getPmgr_none). done.
Qed.

Lemma changesn_hutch_works h w :
  script w = [] ->
  exists w', changesn_hutch T oldSN newSN verbose h w = (Val tt, w') /\
             script w' = [] /\ dbs w' = renamed T oldSN newSN (dbs w) h.
Proof.
  intros Hs. unfold changesn_hutch, renamed.
  destruct (dbs w !! (T, h)) as [db|] eqn:Hdb.
  - erewrite run_bind_val by (by apply run_getPmgr_some). cbv beta iota.
    set (pm := mkPmgr T h (db_objs db) (db_cfgs db)).
    set (w1 := with_heap _ _).
    assert (Hh : heap w1 !! length (heap w) = Some pm).
    { unfold w1. simpl. rewrite lookup_app_r by lia. by rewrite Nat.sub_diag. }
    erewrite run_bind_val by (by apply run_getObjWithSN). cbv beta iota.
    set (w2 := with_log w1 _). change (objs pm) with (db_objs db).
    destruct (find_sn (db_objs db) oldSN) as [|z|] eqn:Hfind;
      [eexists; split; [reflexivity|]; split; [exact Hs|reflexivity]| |
       by apply find_sn_not_str in Hfind].
    destruct (truthy (VInt z)) eqn:Hz; cbn [negb];
      [|eexists; split; [reflexivity|]; split; [exact Hs|reflexivity]].
    destruct (find_sn_Some _ _ _ Hfind) as (old & Hold & Hsn). rewrite Hold.
    set (db1 := mkDB (<[z := {["FLD_SN" := newSN]} ∪ old]> (db_objs db)) (db_cfgs db)).
    assert (H1 : objUpdate (length (heap w)) (VInt z) {["FLD_SN" := newSN]} w2 =
                 (Val true,
                  with_dbs (with_script (with_log w2 (log w2 ++
                     [EWrite (key pm) (ObjectChange (VInt z) {["FLD_SN" := newSN]})]))
                     (tail (script w2))) (<[key pm := db1]> (dbs w2)))).
    { apply (run_mutate_works _ _ false _ w2 pm db db1 true); try done.
      - unfold next_works. simpl. by rewrite Hs.
      - simpl. by rewrite Hold. }
    erewrite run_bind_val by exact H1. clear H1. set (w3 := with_dbs _ _).
    assert (Hh3 : heap w3 !! length (heap w) = Some pm) by exact Hh.
    erewrite run_bind_val
      by (apply (run_updateTables _ w3 pm db1); [done|apply lookup_insert_eq]).
    set (w4 := with_heap _ _).
    erewrite run_bind_val.
    2:{ apply (run_read_objs _ (VInt z) w4
                 (mkPmgr (p_type pm) (p_hutch pm) (db_objs db1) (db_cfgs db1))
                 ({["FLD_SN" := newSN]} ∪ old)).
        - unfold w4. simpl. apply list_lookup_insert_eq. rewrite length_app. simpl. lia.
        - simpl. apply lookup_insert_eq. }
    erewrite run_bind_val.
    2:{ apply run_dict_get. apply lookup_union_Some_l. apply lookup_singleton_eq. }
    eexists. split; [reflexivity|]. split; [simpl; by rewrite Hs|].
    simpl. unfold db1. by rewrite (insert_union_singleton_l old).
  - erewrite run_bind_val by (by apply run_getPmgr_none).
    eexists; split; [reflexivity|]; split; [exact Hs|reflexivity].
Qed.

Lemma changesn_loop_frame l w k :
  k.1 <> T \/ k.2 ∉ l \/ no_match (dbs w !! k) oldSN ->
  dbs (for_each (changesn_hutch T oldSN newSN verbose) l w).2 !! k = dbs w !! k.
Proof.
  revert w. induction l as [|h l IH]; intros w Hk; [done|].
  simpl. rewrite run_bind.
  assert (Hstep : dbs (changesn_hutch T oldSN newSN verbose h w).2 !! k = dbs w !! k).
  { apply changesn_hutch_frame. destruct Hk as [Hk|[Hk|Hk]]; [left|left|by right].
    - intros ->. by apply Hk.
    - intros ->. apply Hk. simpl. left. }
  destruct (changesn_hutch T oldSN newSN verbose h w) as [[[]|] w1]; [|done].
  simpl in Hstep. rewrite <- Hstep. apply IH.
  destruct Hk as [Hk|[Hk|Hk]]; [by left|right; left|right; right].
  - intros Hin. apply Hk. by right.
  - by rewrite Hstep.
Qed.

Lemma changesn_loop_works l w h db :
  script w = [] -> NoDup l -> h ∈ l -> dbs w !! (T, h) = Some db ->
  dbs (for_each (changesn_hutch T oldSN newSN verbose) l w).2 !! (T, h) =
  renamed T oldSN newSN (dbs w) h !! (T, h).
Proof.
  revert w. induction l as [|h0 l IH]; intros w Hs Hnd Hin Hdb.
  { by apply elem_of_nil in Hin. }
  apply NoDup_cons in Hnd as [Hh0 Hnd].
  simpl. rewrite run_bind.
  destruct (changesn_hutch_works h0 w Hs) as (w1 & -> & Hs1 & Hd1).
  apply elem_of_cons in Hin as [->|Hin].
  - rewrite changesn_loop_frame by (right; left; done). by rewrite Hd1.
  - assert (Hne : h0 <> h) by (intros ->; done).
    assert (Hsame : dbs w1 !! (T, h) = dbs w !! (T, h)).
    { rewrite Hd1. unfold renamed.
      destruct (dbs w !! (T, h0)) as [db0|]; [|done].
      destruct (find_sn (db_objs db0) oldSN) as [|z|]; try done.
      destruct (truthy (VInt z)), (db_objs db0 !! z); try done.
      rewrite lookup_insert_ne; [done|congruence]. }
    rewrite (IH w1 Hs1 Hnd Hin) by (by rewrite Hsame).
    unfold renamed. rewrite Hsame, Hdb.
    destruct (find_sn (db_objs db) oldSN) as [|z|]; try done.
    destruct (truthy (VInt z)), (db_objs db !! z); try done.
    by rewrite !lookup_insert_eq.
Qed.

End Changesn.

(** C6: the [changesn] routine leaves every registry as it was that is
    of another device type, of a hutch that was not asked for, absent,
    or without an object of the old serial number; and when the calls
    into the registry work, each registry asked for in which an object
    has the old serial number ends with that object's [FLD_SN] set to
    the new one and nothing else changed. *)
Theorem changesn_only_matching_registries hutches objType oldSN newSN verbose w :
  let T := changesn_type objType in
  let hs := changesn_hutches hutches in
  let w' := (changesn hutches objType oldSN newSN verbose w).2 in
  (forall k, k.1 <> T \/ k.2 ∉ hs \/ no_match (dbs w !! k) oldSN ->
             dbs w' !! k = dbs w !! k) /\
  (truthy oldSN = true -> truthy newSN = true -> script w = [] -> NoDup hs ->
   forall h db z,
     h ∈ hs -> dbs w !! (T, h) = Some db ->
     find_sn (db_objs db) oldSN = VInt z -> z <> 0 ->
     exists old,
       db_objs db !! z = Some old /\ old !! "FLD_SN" = Some oldSN /\
       dbs w' !! (T, h) =
       Some (mkDB (<[z := <["FLD_SN" := newSN]> old]> (db_objs db)) (db_cfgs db))).
Proof.
  intros T hs w'. split.
  - intros k Hk. unfold w', changesn.
    destruct (negb (truthy oldSN) || negb (truthy newSN)); [done|].
    by apply changesn_loop_frame.
  - intros Ho Hn Hs Hnd h db z Hin Hdb Hfind Hz. subst T hs.
    destruct (find_sn_Some _ _ _ Hfind) as (old & Hold & Hsn).
    exists old. split; [done|]. split; [done|].
    unfold w', changesn. rewrite Ho, Hn. cbn [negb orb].
    erewrite changesn_loop_works by done.
    unfold renamed. rewrite Hdb, Hfind, Hold.
    assert (truthy (VInt z) = true) as -> by (simpl; by destruct (Z.eqb_spec z 0)).
    apply lookup_insert_eq.
Qed.

Lemma changesn_only_matching_registries_witness :
  let w' := (changesn ["xpp"; "amo"] None (VStr "001") (VStr "999") false world2).2 in
  no_match (dbs world2 !! amo) (VStr "001") /\
  dbs w' !! amo = dbs world2 !! amo /\
  find_sn (db_objs xpp_db) (VStr "001") = VInt 7 /\
  exists old,
    db_objs xpp_db !! 7 = Some old /\ old !! "FLD_SN" = Some (VStr "001") /\
    dbs w' !! xpp =
    Some (mkDB (<[7 := <["FLD_SN" := VStr "999"]> old]> (db_objs xpp_db))
               (db_cfgs xpp_db)).
Proof.
  intros w'.
  destruct (changesn_only_matching_registries ["xpp"; "amo"] None (VStr "001")
              (VStr "999") false world2) as [Hframe Hren].
  assert (Hno : no_match (dbs world2 !! amo) (VStr "001")) by (vm_compute; reflexivity).
  assert (Hfind : find_sn (db_objs xpp_db) (VStr "001") = VInt 7)
    by (vm_compute; reflexivity).
  split; [exact Hno|].
  split; [apply Hframe; right; right; exact Hno|].
  split; [exact Hfind|].
  refine (Hren eq_refl eq_refl eq_refl _ "xpp" xpp_db 7 _ _ Hfind _).
  - apply (bool_decide_unpack _). vm_compute. exact I.
  - left.
  - vm_compute. reflexivity.
  - discriminate.
Defined.

(** * [importConfigs] *)

Lemma new_id_fresh (t : Table) : t !! new_id t = None.
Proof.
  unfold new_id.
  assert (H : forall k, is_Some (t !! k) ->
                        k <= map_fold (fun k (_ : Dict) acc => Z.max k acc) 0 t).
  { apply (map_fold_weak_ind
             (fun r (m : Table) => forall k, is_Some (m !! k) -> k <= r)).
    - intros k [x Hx]. by rewrite lookup_empty in Hx.
    - intros i x m r Hi IH k Hk.
      destruct (decide (k = i)) as [->|Hne]; [lia|].
      rewrite lookup_insert_ne in Hk by done. specialize (IH k Hk). lia. }
  destruct (t !! (1 + _)) eqn:Hl; [|done].
  specialize (H _ (mk_is_Some _ _ Hl)). lia.
Qed.

(** A mutating call, outcome by outcome. *)
Lemma mutate_cases {A} r op (failed : A) run w p :
  heap w !! r = Some p ->
  let out := mutate r op failed run w in
  heap out.2 = heap w /\
  ((dbs out.2 = dbs w /\ (out.1 = Val failed \/ out.1 = Exn)) \/
   (exists db d a, dbs w !! key p = Some db /\ run db = Some (d, a) /\
                   out.1 = Val a /\ dbs out.2 = <[key p := d]> (dbs w))).
Proof.
  intros Hr. unfold mutate.
  erewrite run_bind_val by (by apply run_deref).
  rewrite run_bind. cbn [emit]. rewrite run_bind. unfold attempt.
  cbn [script with_log].
  set (k := fun w1 : World => (w0 ← get_world;
          match dbs w0 !! key p ≫= run with
          | Some (d, a) => _ ← set_db (key p) d; mret a
          | None => mret failed
          end) w1).
  assert (Hgo : forall w1, dbs w1 = dbs w -> heap w1 = heap w ->
    heap (k w1).2 = heap w /\
    ((dbs (k w1).2 = dbs w /\ ((k w1).1 = Val failed \/ (k w1).1 = Exn)) \/
     (exists db d a, dbs w !! key p = Some db /\ run db = Some (d, a) /\
                     (k w1).1 = Val a /\ dbs (k w1).2 = <[key p := d]> (dbs w)))).
  { intros w1 Hw1 Hh1. unfold k. rewrite run_bind. cbn [get_world]. rewrite Hw1.
    destruct (dbs w !! key p) as [db|] eqn:Hdb; [|split; [done|left; split; [done|by left]]].
    cbn [mbind option_bind].
    destruct (run db) as [[d a]|] eqn:Hrun; [|split; [done|left; split; [done|by left]]].
    rewrite run_bind. unfold set_db. simpl. split; [done|].
    right. exists db, d, a. by rewrite Hw1. }
  destruct (script w) as [|[] s].
  - by apply Hgo.
  - by apply Hgo.
  - simpl. split; [done|]. left. split; [done|by left].
  - simpl. split; [done|]. left. split; [done|by right].
Qed.

Lemma db_le_refl db : db_le db db.
Proof. by split. Qed.

Lemma grows_inert : Inert grows.
Proof.
  split; [split|..]; unfold grows.
  2:{ intros w1 w2 w3 H1 H2 k db Hdb.
    destruct (H1 k db Hdb) as (db1 & Hdb1 & [Hc1 Ho1]).
    destruct (H2 k db1 Hdb1) as (db2 & Hdb2 & [Hc2 Ho2]).
    exists db2. split; [done|]. split; by etrans. }
  all: intros; simpl; eauto using db_le_refl.
Qed.

#[global] Existing Instance grows_inert.

Lemma grows_same w w' : dbs w' = dbs w -> grows w w'.
Proof. intros He k db Hdb. rewrite He. eauto using db_le_refl. Qed.

Lemma grows_insert w k db d :
  dbs w !! k = Some db -> db_le db d ->
  grows w (with_dbs w (<[k := d]> (dbs w))).
Proof.
  intros Hdb Hle k' db' Hdb'. simpl.
  destruct (decide (k' = k)) as [->|Hne].
  - rewrite lookup_insert_eq. exists d. split; [done|]. congruence.
  - rewrite lookup_insert_ne by done. eauto using db_le_refl.
Qed.

Lemma grows_newConfig r d n : keeps grows (newConfig r d n).
Proof.
  apply keeps_mutate; [apply _|].
  intros w k db d' a Hdb [= <- <-]. apply (grows_insert w k db); [done|].
  split; simpl; [|done]. apply insert_subseteq, new_id_fresh.
Qed.

Lemma grows_newObject r d : keeps grows (newObject r d).
Proof.
  apply keeps_mutate; [apply _|].
  intros w k db d' a Hdb [= <- <-]. apply (grows_insert w k db); [done|].
  split; simpl; [done|]. apply insert_subseteq, new_id_fresh.
Qed.

#[global] Hint Resolve grows_newConfig grows_newObject : keeps.

Lemma newObject_cases r d w p :
  heap w !! r = Some p ->
  let out := newObject r d w in
  heap out.2 = heap w /\
  ((dbs out.2 = dbs w /\ (out.1 = Val VNone \/ out.1 = Exn)) \/
   (exists db, dbs w !! key p = Some db /\
               out.1 = Val (VInt (new_id (db_objs db))) /\
               dbs out.2 =
               <[key p := mkDB (<[new_id (db_objs db) := d ∪ {["config" := VNone]}]>
                                  (db_objs db)) (db_cfgs db)]> (dbs w))).
Proof.
  intros Hr out.
  destruct (mutate_cases r (ObjectNew d) VNone
              (fun db => let i := new_id (db_objs db) in
                 Some (mkDB (<[i := d ∪ {["config" := VNone]}]> (db_objs db))
                            (db_cfgs db), VInt i)) w p Hr)
    as [Hheap [Hc|(db & d' & a & Hdb & Hrun & Hres & Hd)]].
  - split; [exact Hheap|]. left. exact Hc.
  - split; [exact Hheap|]. right. exists db. simpl in Hrun.
    injection Hrun as <- <-. done.
Qed.

Lemma setObjCfg_cases r o c w p :
  heap w !! r = Some p ->
  let out := setObjCfg r o c w in
  dbs out.2 = dbs w \/
  exists db z old,
    o = VInt z /\ dbs w !! key p = Some db /\ db_objs db !! z = Some old /\
    dbs out.2 =
    <[key p := mkDB (<[z := <["config" := c]> old]> (db_objs db)) (db_cfgs db)]>
      (dbs w).
Proof.
  intros Hr out.
  destruct (mutate_cases r (ObjectLink o c) false
              (fun db => old ← tbl_get (db_objs db) o;
                 _ ← tbl_get (db_cfgs db) c;
                 match o with
                 | VInt z =>
                     Some (mkDB (<[z := <["config" := c]> old]> (db_objs db))
                                (db_cfgs db), true)
                 | _ => None
                 end) w p Hr)
    as [_ [[Hc _]|(db & d' & a & Hdb & Hrun & Hres & Hd)]]; [by left|].
  right. apply bind_Some in Hrun as (old & Hold & Hrun).
  apply bind_Some in Hrun as (cfg & Hcfg & Hrun).
  destruct o as [|z|]; try done. injection Hrun as <- <-.
  by exists db, z, old.
Qed.

Lemma updateTables_cases r w p :
  heap w !! r = Some p ->
  let out := updateTables r w in
  dbs out.2 = dbs w /\
  (out.1 = Exn \/ exists p', heap out.2 !! r = Some p' /\ key p' = key p).
Proof.
  intros Hr out. unfold out, updateTables.
  erewrite run_bind_val by (by apply run_deref).
  rewrite run_bind. cbn [emit]. rewrite run_bind. cbn [get_world dbs with_log].
  destruct (dbs w !! key p) as [db|]; simpl; [|split; [done|by left]].
  split; [done|]. right. eexists.
  split; [apply list_lookup_insert_eq; by eapply lookup_lt_Some|reflexivity].
Qed.

(** A new object and its link: the link changes the new object only. *)
Lemma grows_link_new r d c :
  keeps grows (ObjID ← newObject r d;
               _ ← updateTables r;
               status ← setObjCfg r ObjID c;
               mret tt).
Proof.
  intros w. rewrite run_bind.
  destruct (heap w !! r) as [p|] eqn:Hr.
  2:{ unfold newObject, mutate. rewrite run_bind. unfold deref. rewrite Hr.
      simpl. reflexivity. }
  pose proof (grows_newObject r d w) as Hkept.
  destruct (newObject_cases r d w p Hr) as [Hheap Hcases].
  destruct (newObject r d w) as [[ObjID|] w1] eqn:Hnew; simpl in *; [|done].
  rewrite run_bind.
  assert (Hr1 : heap w1 !! r = Some p) by (by rewrite Hheap).
  destruct (updateTables_cases r w1 p Hr1) as [Hd2 Hh2].
  destruct (updateTables r w1) as [[[]|] w2] eqn:Hup; simpl in *.
  2:{ etrans; [exact Hkept|]. by apply grows_same. }
  destruct Hh2 as [?|(p2 & Hr2 & Hk2)]; [done|].
  rewrite run_bind.
  destruct (setObjCfg_cases r ObjID c w2 p2 Hr2) as [Hd3|(db2 & z & old & -> & Hdb2 & Hold & Hd3)].
  - etrans; [exact Hkept|].
    destruct (setObjCfg r ObjID c w2) as [[?|] w3]; simpl in *;
      apply grows_same; congruence.
  - assert (Hfin : grows w (setObjCfg r (VInt z) c w2).2).
    { destruct Hcases as [[Hd1 [Hv|Hv]]|(db & Hdb & Hv & Hd1)]; try done.
      injection Hv as ->.
      rewrite Hk2, Hd2, Hd1, lookup_insert_eq in Hdb2. injection Hdb2 as <-.
      simpl in Hold. rewrite lookup_insert_eq in Hold.
      intros k' db' Hdb'. rewrite Hd3, Hd2, Hd1, Hk2.
      destruct (decide (k' = key p)) as [->|Hne].
      - rewrite lookup_insert_eq. eexists. split; [done|].
        rewrite Hdb in Hdb'. injection Hdb' as <-.
        split; simpl; [done|]. rewrite insert_insert_eq.
        apply insert_subseteq, new_id_fresh.
      - rewrite !lookup_insert_ne by done. eauto using db_le_refl. }
    destruct (setObjCfg r (VInt z) c w2) as [[?|] w3]; exact Hfin.
Qed.

Lemma grows_db_cfg w w' k id d :
  grows w w' -> db_cfg w k id = Some d -> db_cfg w' k id = Some d.
Proof.
  intros Hg. unfold db_cfg. destruct (dbs w !! k) as [db|] eqn:Hdb; [|done].
  destruct (Hg k db Hdb) as (db' & -> & [Hc _]). simpl.
  intros Hd. by eapply lookup_weaken.
Qed.

Lemma grows_db_obj w w' k id d :
  grows w w' -> db_obj w k id = Some d -> db_obj w' k id = Some d.
Proof.
  intros Hg. unfold db_obj. destruct (dbs w !! k) as [db|] eqn:Hdb; [|done].
  destruct (Hg k db Hdb) as (db' & -> & [_ Ho]). simpl.
  intros Hd. by eapply lookup_weaken.
Qed.

Section ImportCreate.

Variable U : Utlp.

Lemma grows_import_create pmgr cfgDict objDict name :
  keeps grows (import_create U pmgr cfgDict objDict name).
Proof.
  unfold import_create. apply keeps_try; [apply _| |keeps_go].
  apply keeps_bind; [apply _|keeps_go|intros p]. cbv zeta.
  apply keeps_bind; [apply _|keeps_go|intros n].
  apply keeps_bind; [apply _|keeps_go|intros cfgID].
  apply keeps_bind; [apply _|keeps_go|intros []].
  apply keeps_bind; [apply _|keeps_go|intros p']. cbv zeta.
  apply grows_link_new.
Qed.

(** The branch of lines 469 to 494 taken by itself, which no run of
    [importConfigs] reaches: the three steps that add a new
    configuration, a new object and their link never end with an
    exception, whichever of the calls fails with a falsy result or
    raises, and the records that were in the registries before are all
    still there, unchanged. *)
Theorem import_create_isolated pmgr cfgDict objDict name w :
  let out := import_create U pmgr cfgDict objDict name w in
  out.1 = Val tt /\
  grows w out.2 /\
  (forall k id d, db_cfg w k id = Some d -> db_cfg out.2 k id = Some d) /\
  (forall k id d, db_obj w k id = Some d -> db_obj out.2 k id = Some d) /\
  (forall rest : M unit,
     (_ ← import_create U pmgr cfgDict objDict name; rest) w = rest out.2).
Proof.
  intros out.
  assert (Hval : out.1 = Val tt).
  { unfold out, import_create, try_except.
    match goal with |- (match ?m w with _ => _ end).1 = _ =>
      destruct (m w) as [[[]|] w1] end; reflexivity. }
  assert (Hg : grows w out.2) by apply grows_import_create.
  split; [exact Hval|]. split; [exact Hg|].
  split; [intros k id d; by apply grows_db_cfg|].
  split; [intros k id d; by apply grows_db_obj|].
  intros rest. rewrite run_bind. fold out.
  destruct out as [[[]|] w1]; [reflexivity|discriminate].
Qed.

(** The three steps are what [import_smart] does for a serial number
    that is not in the registry. *)
Lemma import_smart_new hutch pmgr cfgDict objDict name allNames pmgr_SNs update
    sn w :
  cfgDict !! "FLD_SN" = Some sn -> py_str sn ∉ pmgr_SNs ->
  import_smart U hutch pmgr cfgDict objDict name allNames pmgr_SNs update w =
  import_create U pmgr cfgDict objDict name w.
Proof.
  intros Hsn Hnew. unfold import_smart.
  erewrite run_bind_val by (by apply run_dict_get).
  by rewrite bool_decide_false.
Qed.

End ImportCreate.

Lemma objs_same_inert : Inert objs_same.
Proof.
  split; [split|..]; unfold objs_same; try done.
  intros w1 w2 w3 H1 H2 k. by rewrite H2.
Qed.

#[global] Existing Instance objs_same_inert.

Lemma objs_same_insert w k db d :
  dbs w !! k = Some db -> db_objs d = db_objs db ->
  objs_same w (with_dbs w (<[k := d]> (dbs w))).
Proof.
  intros Hdb He k'. simpl. destruct (decide (k' = k)) as [->|Hne].
  - rewrite lookup_insert_eq, Hdb. simpl. by rewrite He.
  - by rewrite lookup_insert_ne.
Qed.

Lemma objs_same_configChange r i d : keeps objs_same (configChange r i d).
Proof.
  apply keeps_mutate; [apply _|].
  intros w k db d' a Hdb Hrun. apply (objs_same_insert w k db); [done|].
  apply bind_Some in Hrun as (old & _ & Hrun).
  destruct i; try done. by injection Hrun as <- <-.
Qed.

Lemma objs_same_newConfig r d n : keeps objs_same (newConfig r d n).
Proof.
  apply keeps_mutate; [apply _|].
  intros w k db d' a Hdb [= <- <-]. by apply (objs_same_insert w k db).
Qed.

#[global] Hint Resolve objs_same_configChange objs_same_newConfig : keeps.

Section ImportDumb.

Variable U : Utlp.

Lemma objs_same_import_motor hutch pmgr pmgr_SNs update verbose cfg_path :
  keeps objs_same (import_motor U hutch pmgr pmgr_SNs update verbose cfg_path).
Proof.
  unfold import_motor, import_dumb, import_name, cfgUpdate. cbv zeta. keeps_go.
Qed.

Lemma objs_same_import_loop hutch pmgr pmgr_SNs update verbose motors :
  keeps objs_same (import_loop U hutch pmgr pmgr_SNs update verbose motors).
Proof.
  induction motors as [|[m cfg_path] motors IH]; simpl.
  - keeps_go.
  - apply keeps_bind; [apply _|apply objs_same_import_motor|intros _; apply IH].
Qed.

(** C2 fails on the code: [importConfigs] sets [dumb = True] for every
    record, so a turn of its loop is the branch of [if dumb:] and
    nothing else, the update of the object of a known serial number
    with [objUpdate], [incrementMatching] and [cfgChange] is never
    reached, and no run of [importConfigs] changes an object record of
    any registry. *)
Theorem importConfigs_never_updates_objects hutch pmgr path update verbose w :
  objs_same w (importConfigs U hutch pmgr path update verbose w).2 /\
  (forall pmgr_SNs cfg_path,
     import_motor U hutch pmgr pmgr_SNs update verbose cfg_path =
     (allNames ← allCfgNames pmgr;
      _ ← updateTables pmgr;
      name ← import_name (getImportFieldDict U cfg_path);
      p ← deref pmgr;
      import_dumb pmgr (checkSNLength U (getImportFieldDict U cfg_path) p)
        name allNames update)).
Proof.
  split; [|reflexivity].
  unfold importConfigs. cbv zeta.
  apply keeps_bind; [apply _|keeps_go|intros SNs; apply objs_same_import_loop].
Qed.

End ImportDumb.

(** The record of the legacy file has the serial number of the motor
    of the registry and [update] is set: the object of the motor is
    left as it was, and a configuration is added. *)
Lemma import_known_serial_number :
  let out := importConfigs utlp0 "xpp" 0%nat [] true false world0 in
  getImportFieldDict utlp0 "001.cfg" !! "FLD_SN" = Some (VStr "001") /\
  fst (get_all_SN 0%nat world0) = Val {["001"]} /\
  out.1 = Val tt /\
  db_obj out.2 xpp 7 = Some motor_obj /\
  db_obj world0 xpp 7 = Some motor_obj /\
  db_cfg out.2 xpp 2 =
    Some {["name" := VStr "slit"; "FLD_DESC" := VStr "slit";
           "FLD_SN" := VStr "001"; "FLD_ACCL" := VInt 9]} /\
  log out.2 =
    [ERead xpp Objs; ERead xpp Cfgs; ERefresh xpp;
     EWrite xpp (ConfigNew {["name" := VStr "slit"; "FLD_DESC" := VStr "slit";
                             "FLD_SN" := VStr "001"; "FLD_ACCL" := VInt 9]});
     ERefresh xpp].
Proof.
  intros out.
  split; [vm_compute; reflexivity|]. split; [vm_compute; reflexivity|].
  split; [vm_compute; reflexivity|]. split; [vm_compute; reflexivity|].
  split; [vm_compute; reflexivity|]. split; [vm_compute; reflexivity|].
  vm_compute; reflexivity.
Qed.


(** * [saveConfig] on a motor that uses the default configuration *)

(** C1 fails on the code: the motor of serial number 001 is linked to
    the default configuration of the hutch, named XPP.  [saveConfig]
    with [rename] set, as it is unless [--norename] is given, adds a
    new configuration and links it to the object, and then sends the
    renamed new configuration to the registry under [cfgID], which is
    still the id of the default configuration: the default
    configuration loses its name and its fields.  Without [rename] it
    is left as it was. *)
Theorem saveConfig_overwrites_default_config :
  let out := saveConfig utlp0 motor "xpp" 0%nat (VStr "001") false false true
               world0 in
  let out' := saveConfig utlp0 motor "xpp" 0%nat (VStr "001") false false false
                world0 in
  db_cfg world0 xpp 1 = Some default_cfg /\
  default_cfg !! "name" = Some (VStr "XPP") /\
  linked world0 xpp 7 = Some (VInt 1) /\
  out.1 = Val tt /\
  linked out.2 xpp 7 = Some (VInt 2) /\
  db_cfg out.2 xpp 2 = Some {["name" := VStr "slit"; "FLD_ACCL" := VInt 5]} /\
  db_cfg out.2 xpp 1 =
    Some {["name" := VStr "slit1"; "FLD_ACCL" := VInt 5;
           "FLD_TYPE" := VStr "default"]} /\
  db_cfg out.2 xpp 1 <> db_cfg world0 xpp 1 /\
  out'.1 = Val tt /\
  linked out'.2 xpp 7 = Some (VInt 2) /\
  db_cfg out'.2 xpp 1 = Some default_cfg.
Proof.
  intros out out'.
  split; [vm_compute; reflexivity|]. split; [vm_compute; reflexivity|].
  split; [vm_compute; reflexivity|]. split; [vm_compute; reflexivity|].
  split; [vm_compute; reflexivity|]. split; [vm_compute; reflexivity|].
  split; [vm_compute; reflexivity|].
  split; [intros Heq; apply (f_equal (fun o => o ≫= (.!! "name"))) in Heq;
          vm_compute in Heq; discriminate|].
  split; [vm_compute; reflexivity|]. split; [vm_compute; reflexivity|].
  vm_compute; reflexivity.
Qed.

(** C3 fails on the code: in the same run of [saveConfig] the object is
    updated with [objUpdate] and [pmgr.objs] is read right after, and
    the two transactions of the renaming are followed by reads of
    [pmgr.cfgs] and [pmgr.objs] for the report, with no [updateTables]
    between the writes and the reads; at the end the view still shows
    the default configuration as it was, and the registry does not. *)
Theorem saveConfig_reads_stale_views :
  let out := saveConfig utlp0 motor "xpp" 0%nat (VStr "001") false false true
               world0 in
  describe <$> log out.2 =
    ["pmgr.cfgs"; "pmgr.objs"; "objectChange 7"; "pmgr.objs"; "pmgr.cfgs";
     "newConfig"; "link 7 2"; "updateTables"; "pmgr.objs"; "pmgr.cfgs";
     "objectChange 7"; "configChange 1"; "pmgr.cfgs"; "pmgr.objs"] /\
  stale_read [] (log out.2) = true /\
  stale_read [] (log world0) = false /\
  view_cfg out.2 0%nat 1 = Some default_cfg /\
  db_cfg out.2 xpp 1 <> Some default_cfg.
Proof.
  intros out.
  split; [vm_compute; reflexivity|]. split; [vm_compute; reflexivity|].
  split; [vm_compute; reflexivity|]. split; [vm_compute; reflexivity|].
  intros Heq; apply (f_equal (fun o => o ≫= (.!! "name"))) in Heq.
  vm_compute in Heq; discriminate.
Qed.

(** * More on identifier expansion *)

Section ExpansionMore.

Variable getBasePV : PyArg -> option string.






End ExpansionMore.


Section ExpansionMore2.

Variable getBasePV : PyArg -> option string.

Lemma add_if_base_union B a P :
  add_if_base getBasePV B a P = add_if_base getBasePV B a ∅ ∪ P.
Proof. unfold add_if_base. case_decide; set_solver. Qed.

Lemma expand_union B n : forall s P, expand B s n P = expand B s n ∅ ∪ P.
Proof.
  induction n as [|n IH]; intros s P; simpl; [set_solver|].
  rewrite IH, (IH _ (_ ∪ ∅)). set_solver.
Qed.

Lemma token_step_union B P a :
  token_step getBasePV B P a = token_step getBasePV B ∅ a ∪ P.
Proof.
  unfold token_step.
  destruct (Py.contains _ a).
  - destruct (Py.split_on _ a) as [|p0 [|p1 ps]]; [set_solver..|].
    destruct (Py.int (Py.last2 p0)); [|apply add_if_base_union].
    destruct (Py.int p1); [|apply add_if_base_union].
    unfold while_range. rewrite expand_union, (expand_union _ _ _ (add_if_base _ _ _ ∅)).
    rewrite add_if_base_union. set_solver.
  - destruct (3 <? String.length a)%nat; [apply add_if_base_union|].
    destruct (String.length a <? 3)%nat; [|set_solver].
    destruct (Py.int a); set_solver.
Qed.

Lemma collect_union B l : forall P,
  collect getBasePV B P l = ⋃ (token_step getBasePV B ∅ <$> l) ∪ P.
Proof.
  induction l as [|a l IH]; intros P.
  - simpl. set_solver.
  - rewrite collect_cons, IH, token_step_union. simpl. set_solver.
Qed.

Lemma elem_of_collect B l x :
  x ∈ collect getBasePV B ∅ l <->
  exists a, a ∈ l /\ x ∈ token_step getBasePV B ∅ a.
Proof.
  rewrite collect_union, elem_of_union, elem_of_union_list.
  split.
  - intros [(X & HX & Hx)|H]; [|set_solver].
    apply list_elem_of_fmap in HX as (a & -> & Ha). eauto.
  - intros (a & Ha & Hx). left. exists (token_step getBasePV B ∅ a).
    split; [|done]. apply list_elem_of_fmap. eauto.
Qed.

(** X2: the result of
    [parsePVArguments] depends on the tokens given and on the base
    [getBasePV] finds, not on the order of the tokens nor on how often
    each is given. *)
Theorem expansion_ignores_order_and_repeats (args args' : list string) :
  (forall a, a ∈ args <-> a ∈ args') ->
  getBasePV (AList args) = getBasePV (AList args') ->
  parsePVArguments getBasePV args = parsePVArguments getBasePV args'.
Proof.
  intros Hsame Hbase. unfold parsePVArguments. rewrite <- Hbase.
  assert (Hlen : (length args =? 0)%nat = (length args' =? 0)%nat).
  { destruct args as [|a l], args' as [|a' l']; simpl; try done.
    - specialize (Hsame a'). set_solver.
    - specialize (Hsame a). set_solver. }
  rewrite <- Hlen. destruct (length args =? 0)%nat; [done|].
  destruct (falsy_base _); [done|].
  destruct (getBasePV (AList args)) as [b|]; [|done].
  f_equal. f_equal. apply set_eq. intros x. rewrite !elem_of_collect.
  split; intros (a & Ha & Hx); exists a; (split; [by apply Hsame|done]).
Qed.

(** X3: every identifier returned by
    [parsePVArguments] is either a token, or the left part of a token,
    for which [getBasePV] gives the base of the list, or the base
    followed by a formatted number. *)
Theorem expansion_results_share_base (args out : list string) (B x : string) :
  parsePVArguments getBasePV args = Some out ->
  getBasePV (AList args) = Some B ->
  x ∈ out ->
  (getBasePV (AStr x) = Some B /\
   exists tok, tok ∈ args /\ head (Py.split_on "-"%char tok) = Some x) \/
  (exists n, x = B +:+ Py.fmt02 n).
Proof.
  intros Hout HB Hx.
  destruct (parse_some _ _ _ Hout) as (B' & HB' & _ & ->).
  assert (B' = B) as -> by congruence.
  apply sorted_elem_of, elem_of_collect in Hx as (a & Ha & Hx).
  assert (Hadd : forall p, x ∈ add_if_base getBasePV B p ∅ ->
                           getBasePV (AStr x) = Some B /\ x = p).
  { intros p. unfold add_if_base. case_decide; set_solver. }
  assert (Hexp : forall n s P, x ∈ expand B s n P ->
                               x ∈ P \/ exists k, x = B +:+ Py.fmt02 k).
  { induction n as [|n IH]; intros s P; simpl; [auto|].
    intros [Hin|Hk]%IH; [|auto]. set_solver. }
  unfold token_step in Hx.
  destruct (Py.contains "-"%char a) eqn:Hc.
  - destruct (Py.split_on "-"%char a) as [|p0 [|p1 ps]] eqn:Hsp; [set_solver..|].
    assert (Hleft : x ∈ add_if_base getBasePV B p0 ∅ ->
                    getBasePV (AStr x) = Some B /\
                    exists tok, tok ∈ args /\ head (Py.split_on "-"%char tok) = Some x).
    { intros [? ->]%Hadd. split; [done|]. exists a. by rewrite Hsp. }
    destruct (Py.int (Py.last2 p0)); [|auto].
    destruct (Py.int p1); [|auto].
    apply Hexp in Hx as [Hx|Hx]; auto.
  - assert (Hwhole : Py.split_on "-"%char a = [a]).
    { clear -Hc. induction a as [|c a IH]; simpl in *; [done|].
      destruct (Ascii.eqb c "-"); [done|]. by rewrite IH. }
    destruct (3 <? String.length a)%nat.
    + apply Hadd in Hx as [? ->]. left. split; [done|]. exists a. by rewrite Hwhole.
    + destruct (String.length a <? 3)%nat; [|set_solver].
      destruct (Py.int a) as [n|]; [|set_solver].
      right. exists n. set_solver.
Qed.

End ExpansionMore2.

Lemma expansion_ignores_order_and_repeats_witness :
  parsePVArguments getBasePV_colon ["A:01"; "03-04"] =
  parsePVArguments getBasePV_colon ["03-04"; "A:01"; "03-04"].
Proof.
  apply (expansion_ignores_order_and_repeats getBasePV_colon).
  - intros a. rewrite !elem_of_cons. rewrite !elem_of_nil. tauto.
  - reflexivity.
Defined.

Lemma expansion_results_share_base_witness :
  getBasePV_colon (AStr "A:03") = Some "A:" /\
  exists tok, tok ∈ ["A:03"; "05"] /\ head (Py.split_on "-"%char tok) = Some "A:03".
Proof.
  destruct (expansion_results_share_base getBasePV_colon ["A:03"; "05"]
              ["A:03"; "A:05"] "A:" "A:03") as [H|[n Hn]].
  - vm_compute; reflexivity.
  - reflexivity.
  - left.
  - exact H.
  - split; [reflexivity|]. exists "A:03". split; [left|reflexivity].
Defined.

Lemma pretty_N_char_digit (d : N) :
  (d < 10)%N ->
  Py.is_digit (pretty_N_char d) = true /\ Py.digit_val (pretty_N_char d) = Z.of_N d.
Proof.
  intros Hd.
  assert (Hall : forallb (fun k => Py.is_digit (pretty_N_char k) &&
                                   (Py.digit_val (pretty_N_char k) =? Z.of_N k))
                         (N.of_nat <$> seq 0 10) = true) by reflexivity.
  rewrite forallb_forall in Hall. specialize (Hall d).
  destruct (andb_prop _ _ (Hall ltac:(
    apply list_elem_of_In, list_elem_of_fmap; exists (N.to_nat d);
    split; [lia|apply elem_of_seq; lia]))) as [H1 H2].
  split; [done|by apply Z.eqb_eq].
Qed.


(** [pretty_N_go x s] puts the digits of [x] in front of [s], and
    [Py.digits] reads them back. *)
Lemma pretty_N_go_digits (x : N) : forall s : string,
  exists ds : list ascii,
    list_ascii_of_string (pretty_N_go x s) = ds ++ list_ascii_of_string s /\
    Forall (fun c => Py.is_digit c = true) ds /\
    ((0 < x)%N -> ds <> []) /\
    forall acc b l,
      Py.digits acc b (ds ++ l) =
      Py.digits (acc * 10 ^ Z.of_nat (length ds) + Z.of_N x)
                (b || negb (bool_decide (ds = []))) l.
Proof.
  induction (N.lt_wf_0 x) as [x _ IH]. intros s.
  destruct (decide (0 < x)%N) as [Hpos|Hzero].
  - rewrite pretty_N_go_step by done.
    set (c := pretty_N_char (x `mod` 10)).
    destruct (pretty_N_char_digit (x `mod` 10)) as [Hd Hv];
      [apply N.mod_lt; lia|]. fold c in Hd, Hv.
    destruct (IH (x `div` 10)%N (N.div_lt x 10 Hpos eq_refl) (String c s))
      as (ds & Heq & Hall & Hne & Hrd).
    exists (ds ++ [c]). split; [|split; [|split]].
    + rewrite Heq. simpl. by rewrite <- app_assoc.
    + apply Forall_app. split; [done|]. by constructor.
    + intros _. by destruct ds.
    + intros acc b l. rewrite <- app_assoc. simpl. rewrite Hrd.
      cbn [Py.digits]. rewrite Hd, Hv.
      rewrite length_app. simpl.
      assert (Hx : Z.of_N x = 10 * Z.of_N (x `div` 10) + Z.of_N (x `mod` 10)).
      { rewrite <- (N2Z.inj_mul 10), <- N2Z.inj_add. f_equal.
        apply N.div_mod. lia. }
      replace (Z.of_nat (length ds + 1)) with (Z.succ (Z.of_nat (length ds))) by lia.
      rewrite Z.pow_succ_r by lia.
      rewrite (bool_decide_eq_false_2 (ds ++ [c] = [])) by (by destruct ds).
      rewrite orb_true_r. f_equal. lia.
  - assert (x = 0%N) as -> by lia. rewrite pretty_N_go_0.
    exists []. split; [done|]. split; [constructor|]. split; [lia|].
    intros acc b l. simpl. rewrite orb_false_r. f_equal. lia.
Qed.

Lemma lstrip_head c l : Py.is_space c = false -> Py.lstrip (c :: l) = c :: l.
Proof. intros H. simpl. by rewrite H. Qed.

Lemma strip_digits c ds :
  Py.is_space c = false ->
  Forall (fun c => Py.is_digit c = true) ds ->
  Py.strip (c :: ds) = c :: ds.
Proof.
  intros Hc Hds. unfold Py.strip. rewrite lstrip_head by done.
  assert (Hsp : forall d, Py.is_digit d = true -> Py.is_space d = false).
  { intros d. unfold Py.is_digit, Py.is_space. cbv zeta.
    generalize (N_of_ascii d). intros n Hn.
    apply andb_true_iff in Hn as [H1 H2].
    apply N.leb_le in H1. apply N.leb_le in H2.
    repeat (apply orb_false_iff; split);
      [apply andb_false_iff; right; apply N.leb_gt; lia
      |apply N.eqb_neq; lia..]. }
  destruct (rev (c :: ds)) as [|d l] eqn:Hrev.
  { apply (f_equal (@length _)) in Hrev. rewrite length_rev in Hrev. done. }
  assert (Hd : Py.is_space d = false).
  { assert (Hin : d ∈ c :: ds).
    { apply list_elem_of_In, in_rev. rewrite Hrev. by left. }
    apply elem_of_cons in Hin as [->|Hin]; [done|].
    apply Hsp. by eapply (proj1 (Forall_forall _ _) Hds). }
  rewrite lstrip_head by done. rewrite <- Hrev. apply rev_involutive.
Qed.

Lemma digit_not_sign d :
  Py.is_digit d = true -> Ascii.eqb d "-" = false /\ Ascii.eqb d "+" = false.
Proof.
  intros Hd.
  split; apply Ascii.eqb_neq; intros ->; vm_compute in Hd; discriminate.
Qed.

Lemma int_pretty_N (n : N) : Py.int (pretty n) = Some (Z.of_N n).
Proof.
  unfold pretty, pretty_N. case_decide as Hn; [by subst|].
  destruct (pretty_N_go_digits n "") as (ds & Heq & Hall & Hne & Hrd).
  unfold Py.int. rewrite Heq. simpl. rewrite app_nil_r.
  destruct ds as [|d ds]; [exfalso; apply Hne; [lia|done]|].
  inversion Hall as [|? ? Hd Hds]; subst.
  assert (Hsp : Py.is_space d = false).
  { revert Hd. unfold Py.is_digit, Py.is_space. cbv zeta.
    generalize (N_of_ascii d). intros m Hm.
    apply andb_true_iff in Hm as [H1 H2].
    apply N.leb_le in H1. apply N.leb_le in H2.
    repeat (apply orb_false_iff; split);
      [apply andb_false_iff; right; apply N.leb_gt; lia
      |apply N.eqb_neq; lia..]. }
  rewrite strip_digits by done.
  destruct (digit_not_sign d Hd) as [-> ->].
  specialize (Hrd 0 false []). rewrite app_nil_r in Hrd.
  change (Py.digits 0 false (d :: ds) = Some (Z.of_N n)). rewrite Hrd.
  simpl. f_equal.
Qed.

Lemma int_fmt02_round_trip (n : Z) : Py.int (Py.fmt02 n) = Some n.
Proof.
  destruct (decide (0 <= n < 10)) as [Hsmall|Hbig].
  { assert (Hall : forallb (fun k => bool_decide (Py.int (Py.fmt02 k) = Some k))
                           (seqZ 0 10) = true) by (vm_compute; reflexivity).
    rewrite forallb_forall in Hall.
    assert (Hn : In n (seqZ 0 10)) by (apply list_elem_of_In, elem_of_seqZ; lia).
    apply Hall in Hn. by apply bool_decide_eq_true in Hn. }
  unfold Py.fmt02.
  destruct (Z.ltb_spec n 0) as [Hneg|Hnn].
  - assert (Hn : (0 < Z.to_N (- n))%N) by lia.
    unfold pretty, pretty_N. case_decide as H0; [lia|].
    destruct (pretty_N_go_digits (Z.to_N (- n)) "") as (ds & Heq & Hall & Hne & Hrd).
    unfold Py.int.
    change (list_ascii_of_string ("-" +:+ ?s)) with ("-"%char :: list_ascii_of_string s).
    rewrite Heq. simpl (ds ++ _). rewrite app_nil_r.
    rewrite strip_digits by done.
    change (Ascii.eqb "-" "-") with true. cbv iota.
    specialize (Hrd 0 false []). rewrite app_nil_r in Hrd. rewrite Hrd.
    destruct ds; [exfalso; by apply Hne|]. simpl. f_equal. lia.
  - destruct (Z.ltb_spec n 10) as [Hlt|Hge]; [lia|].
    rewrite int_pretty_N. f_equal. lia.
Qed.


Lemma fmt02_two_digits (n : Z) :
  0 <= n < 100 ->
  String.length (Py.fmt02 n) = 2%nat /\ Py.contains "-"%char (Py.fmt02 n) = false.
Proof.
  intros Hn.
  assert (Hall : forallb (fun k => (String.length (Py.fmt02 k) =? 2)%nat &&
                                   negb (Py.contains "-"%char (Py.fmt02 k)))
                         (seqZ 0 100) = true) by (vm_compute; reflexivity).
  rewrite forallb_forall in Hall. specialize (Hall n).
  destruct (andb_prop _ _ (Hall ltac:(apply list_elem_of_In, elem_of_seqZ; lia)))
    as [H1 H2].
  split; [by apply Nat.eqb_eq|by apply negb_true_iff].
Qed.

Section SuffixRoundTrip.

Variable getBasePV : PyArg -> option string.

(** X4: a suffix written with [f"{n:02}"] is read back
    by [int] as [n]; given as a token, the suffix of a number from 0 to
    99 adds the very identifier it came from. *)
Theorem suffix_reads_back (B : string) (PVs : gset string) (n : Z) :
  Py.int (Py.fmt02 n) = Some n /\
  (0 <= n < 100 ->
   token_step getBasePV B PVs (Py.fmt02 n) = {[B +:+ Py.fmt02 n]} ∪ PVs).
Proof.
  split; [apply int_fmt02_round_trip|].
  intros Hn. destruct (fmt02_two_digits n Hn) as [Hlen Hc].
  rewrite token_step_plain by done. rewrite Hlen. simpl.
  by rewrite int_fmt02_round_trip.
Qed.

End SuffixRoundTrip.

Lemma suffix_reads_back_witness :
  Py.int (Py.fmt02 7) = Some 7 /\
  token_step getBasePV_colon "A:" ∅ (Py.fmt02 7) = {[ "A:" +:+ Py.fmt02 7 ]} ∪ ∅.
Proof.
  destruct (suffix_reads_back getBasePV_colon "A:" ∅ 7) as [H1 H2].
  split; [exact H1|apply H2; lia].
Defined.

(** * What the operations leave alone *)

Lemma adds_preorder ok : PreOrder (adds ok).
Proof.
  split.
  - intros w. split; [done|]. split; [done|]. exists []. by rewrite app_nil_r.
  - intros w1 w2 w3 (Hl1 & Hs1 & l1 & Hg1 & Hk1) (Hl2 & Hs2 & l2 & Hg2 & Hk2).
    split; [congruence|]. split; [congruence|].
    exists (l1 ++ l2). rewrite Hg2, Hg1, <- app_assoc. split; [done|].
    rewrite forallb_app. by rewrite Hk1, Hk2.
Qed.

#[global] Existing Instance adds_preorder.

Section Adds.

Variable ok : Event -> bool.

Lemma adds_nolog {A} (m : M A) :
  (forall w, live (m w).2 = live w /\ stdin (m w).2 = stdin w /\
             log (m w).2 = log w) ->
  keeps (adds ok) m.
Proof.
  intros H w. destruct (H w) as (Hl & Hs & Hg).
  split; [done|]. split; [done|]. exists []. by rewrite app_nil_r.
Qed.

Lemma adds_emit e : ok e = true -> keeps (adds ok) (emit e).
Proof.
  intros He w. split; [done|]. split; [done|]. exists [e]. split; [done|].
  simpl. by rewrite He.
Qed.

Lemma adds_attempt : keeps (adds ok) attempt.
Proof. apply adds_nolog. intros w. unfold attempt. by destruct (script w). Qed.

Lemma adds_deref r : keeps (adds ok) (deref r).
Proof. apply adds_nolog. intros w. unfold deref. by destruct (heap w !! r). Qed.

Lemma adds_store r p : keeps (adds ok) (store r p).
Proof. by apply adds_nolog. Qed.

Lemma adds_alloc p : keeps (adds ok) (alloc p).
Proof. by apply adds_nolog. Qed.

Lemma adds_pv_get n : keeps (adds ok) (pv_get n).
Proof. apply adds_nolog. intros w. unfold pv_get. by destruct (live w !! n). Qed.

Lemma adds_set_db k d : keeps (adds ok) (set_db k d).
Proof. by apply adds_nolog. Qed.

Hint Resolve adds_emit adds_attempt adds_deref adds_store adds_alloc
  adds_pv_get adds_set_db : keeps.

Hypothesis ok_read : forall k v, ok (ERead k v) = true.
Hypothesis ok_diff : forall r, ok (EDiff r) = true.

Lemma adds_read_objs r k : keeps (adds ok) (read_objs r k).
Proof. unfold read_objs. keeps_go. Qed.

Lemma adds_read_cfgs r k : keeps (adds ok) (read_cfgs r k).
Proof. unfold read_cfgs. keeps_go. Qed.

Lemma adds_set_obj_field r k f v : keeps (adds ok) (set_obj_field r k f v).
Proof. unfold set_obj_field. keeps_go. Qed.

Lemma adds_set_cfg_field r k f v : keeps (adds ok) (set_cfg_field r k f v).
Proof. unfold set_cfg_field. keeps_go. Qed.

Lemma adds_getObjWithSN r sn : keeps (adds ok) (getObjWithSN r sn).
Proof. unfold getObjWithSN. keeps_go. Qed.

Lemma adds_allCfgNames r : keeps (adds ok) (allCfgNames r).
Proof. unfold allCfgNames. keeps_go. Qed.

Lemma adds_cfgFromName r n : keeps (adds ok) (cfgFromName r n).
Proof. unfold cfgFromName. keeps_go. Qed.

Lemma adds_get_all_SN r : keeps (adds ok) (get_all_SN r).
Proof. unfold get_all_SN. keeps_go. Qed.

Lemma adds_print_diff U r a b c d v kw : keeps (adds ok) (print_diff U r a b c d v kw).
Proof. unfold print_diff. keeps_go. Qed.

Hint Resolve adds_read_objs adds_read_cfgs adds_set_obj_field
  adds_set_cfg_field adds_getObjWithSN adds_allCfgNames adds_cfgFromName
  adds_get_all_SN adds_print_diff : keeps.

Lemma adds_linked_config r i : keeps (adds ok) (linked_config r i).
Proof. unfold linked_config. keeps_go. Qed.

Hint Resolve adds_linked_config : keeps.

Hypothesis ok_refresh : forall k, ok (ERefresh k) = true.
Hypothesis ok_write : forall k op, ok (EWrite k op) = true.

Lemma adds_updateTables r : keeps (adds ok) (updateTables r).
Proof. unfold updateTables. keeps_go. Qed.

Lemma adds_getPmgr t h : keeps (adds ok) (getPmgr t h).
Proof. unfold getPmgr. keeps_go. Qed.

Lemma adds_mutate {A} r op (failed : A) run : keeps (adds ok) (mutate r op failed run).
Proof. unfold mutate. keeps_go. Qed.

Hint Resolve adds_updateTables adds_getPmgr adds_mutate : keeps.

Lemma adds_transaction r m i d : keeps (adds ok) (transaction r m i d).
Proof. destruct m; apply adds_mutate. Qed.

Hint Resolve adds_transaction : keeps.

Variable U : Utlp.

Lemma adds_saveConfig PV hutch pmgr SN verbose zenity rename :
  keeps (adds ok) (saveConfig U PV hutch pmgr SN verbose zenity rename).
Proof.
  unfold saveConfig, save_object, save_config, save_rename, save_diff,
    is_private_config, updateConfig, getAndSetConfig, objUpdate, newObject,
    newConfig, setObjCfg, configChange, objectChange.
  cbv zeta. keeps_go.
Qed.

Lemma adds_import_loop hutch pmgr SNs update verbose motors :
  keeps (adds ok) (import_loop U hutch pmgr SNs update verbose motors).
Proof.
  induction motors as [|[m cfg_path] motors IH]; simpl.
  - keeps_go.
  - apply keeps_bind; [apply _| |intros _; apply IH].
    unfold import_motor, import_dumb, import_name, cfgUpdate, newConfig,
      configChange.
    cbv zeta. keeps_go.
Qed.

Lemma adds_importConfigs hutch pmgr path update verbose :
  keeps (adds ok) (importConfigs U hutch pmgr path update verbose).
Proof.
  unfold importConfigs. cbv zeta.
  apply keeps_bind; [apply _|keeps_go|intros SNs; apply adds_import_loop].
Qed.

Lemma adds_Diff PV hutch pmgr SN verbose :
  keeps (adds ok) (Diff U PV hutch pmgr SN verbose).
Proof. unfold Diff. cbv zeta. keeps_go. Qed.

Lemma adds_changesn hutches objType oldSN newSN verbose :
  keeps (adds ok) (changesn hutches objType oldSN newSN verbose).
Proof.
  unfold changesn. destruct (_ || _); [keeps_go|]. cbv zeta.
  apply keeps_for_each; [apply _|]. intros h.
  unfold changesn_hutch, objUpdate, objectChange. keeps_go.
Qed.




End Adds.

(** X5: [saveConfig], [importConfigs],
    [Diff] and the [changesn] routine never push a configuration to the
    device and never read the terminal: the process variables and the
    input are as they were, and no call of [objApply] is made. *)
Theorem only_apply_reaches_the_device (U : Utlp) (w : World) :
  (forall PV hutch pmgr SN verbose zenity rename,
     adds not_apply w (saveConfig U PV hutch pmgr SN verbose zenity rename w).2) /\
  (forall hutch pmgr path update verbose,
     adds not_apply w (importConfigs U hutch pmgr path update verbose w).2) /\
  (forall PV hutch pmgr SN verbose,
     adds not_apply w (Diff U PV hutch pmgr SN verbose w).2) /\
  (forall hutches objType oldSN newSN verbose,
     adds not_apply w (changesn hutches objType oldSN newSN verbose w).2).
Proof.
  split; [|split; [|split]]; intros.
  - by apply adds_saveConfig.
  - by apply adds_importConfigs.
  - by apply adds_Diff.
  - by apply adds_changesn.
Qed.

(** * [Diff] only reads *)

Lemma only_logs_preorder ok : PreOrder (only_logs ok).
Proof.
  split.
  - intros w. exists []. split; [|done]. destruct w. simpl. by rewrite app_nil_r.
  - intros w1 w2 w3 (l1 & -> & Hk1) (l2 & -> & Hk2).
    exists (l1 ++ l2). split; [|by rewrite forallb_app, Hk1, Hk2].
    unfold with_log. simpl. by rewrite <- app_assoc.
Qed.

#[global] Existing Instance only_logs_preorder.

Section OnlyLogs.

Variable ok : Event -> bool.
Hypothesis ok_read : forall k v, ok (ERead k v) = true.
Hypothesis ok_diff : forall r, ok (EDiff r) = true.

Lemma only_logs_emit e : ok e = true -> keeps (only_logs ok) (emit e).
Proof. intros He w. exists [e]. split; [done|]. simpl. by rewrite He. Qed.

Lemma only_logs_deref r : keeps (only_logs ok) (deref r).
Proof. intros w. unfold deref. destruct (heap w !! r); reflexivity. Qed.

Hint Resolve only_logs_emit only_logs_deref : keeps.

Lemma only_logs_read_objs r k : keeps (only_logs ok) (read_objs r k).
Proof. unfold read_objs. keeps_go. Qed.

Lemma only_logs_read_cfgs r k : keeps (only_logs ok) (read_cfgs r k).
Proof. unfold read_cfgs. keeps_go. Qed.

Lemma only_logs_getObjWithSN r sn : keeps (only_logs ok) (getObjWithSN r sn).
Proof. unfold getObjWithSN. keeps_go. Qed.

Lemma only_logs_print_diff U r a b c d v kw :
  keeps (only_logs ok) (print_diff U r a b c d v kw).
Proof. unfold print_diff. keeps_go. Qed.

Hint Resolve only_logs_read_objs only_logs_read_cfgs only_logs_getObjWithSN
  only_logs_print_diff : keeps.

Lemma only_logs_Diff U PV hutch pmgr SN verbose :
  keeps (only_logs ok) (Diff U PV hutch pmgr SN verbose).
Proof. unfold Diff, linked_config. cbv zeta. keeps_go. Qed.

End OnlyLogs.

Section DiffFacts.

Variable U : Utlp.

(** X6: [Diff] changes nothing: the registries, the
    [pmgr] objects, the process variables, the outcomes to come and the
    input are as they were, and the calls it makes are reads of the
    views and at most reports of [printDiff]. *)
Theorem Diff_only_reads PV hutch pmgr SN verbose w :
  let w' := (Diff U PV hutch pmgr SN verbose w).2 in
  only_logs read_or_diff w w' /\
  dbs w' = dbs w /\ heap w' = heap w /\ live w' = live w /\
  script w' = script w /\ stdin w' = stdin w.
Proof.
  intros w'.
  assert (H : only_logs read_or_diff w w') by (by apply only_logs_Diff).
  split; [exact H|]. destruct H as (l & -> & _). done.
Qed.

(** X7: [Diff] returns after one read of
    [pmgr.objs], with nothing printed, when no object has the serial
    number of the motor, and after two when the object has no
    configuration; when the configuration of the object is not in
    [pmgr.cfgs] the [KeyError] of [pmgr.cfgs[cfgID]] leaves [Diff]. *)
Theorem Diff_without_configuration PV hutch pmgr SN verbose w p sn :
  heap w !! pmgr = Some p ->
  getObjVals U (live w) p PV (Some false) !! "FLD_SN" = Some sn ->
  let out := Diff U PV hutch pmgr SN verbose w in
  let k := key p in
  (truthy (find_sn (objs p) sn) = false ->
   out = (Val tt, with_log w (log w ++ [ERead k Objs]))) /\
  (forall z obj,
     find_sn (objs p) sn = VInt z -> z <> 0 -> objs p !! z = Some obj ->
     (match obj !! "config" with
      | Some c => truthy c = false
      | None => True
      end ->
      out = (Val tt, with_log w (log w ++ [ERead k Objs; ERead k Objs])))
     /\
     (forall c, obj !! "config" = Some c -> truthy c = true ->
                tbl_get (cfgs p) c = None ->
                out = (Exn, with_log w (log w ++ [ERead k Objs; ERead k Objs;
                                                  ERead k Cfgs])))).
Proof.
  intros Hr Hsn out k.
  assert (Hstart : out =
    (objID ← mret (find_sn (objs p) sn);
     if negb (truthy objID) then mret tt
     else
       cfgID ← linked_config pmgr objID;
       if negb (truthy cfgID) then mret tt
       else
         cfgPmgr ← read_cfgs pmgr cfgID;
         objPmgr ← read_objs pmgr objID;
         try_except
           (print_diff U pmgr (getObjVals U (live w) p PV (Some false))
              (getCfgVals U (live w) p PV (Some false)) objPmgr cfgPmgr verbose
              [("name1", "Pmgr"); ("name2", "Live")])
           (mret tt)) (with_log w (log w ++ [ERead k Objs]))).
  { unfold out, Diff. rewrite run_bind. cbn [get_world].
    erewrite run_bind_val by (by apply run_deref). cbv zeta.
    erewrite run_bind_val by (by apply run_dict_get).
    rewrite run_bind. by erewrite run_getObjWithSN. }
  split.
  - intros Hf. rewrite Hstart. rewrite run_bind. cbn [mret M_ret]. by rewrite Hf.
  - intros z obj Hz Hz0 Hobj.
    assert (Ht : truthy (VInt z) = true).
    { simpl. by destruct (Z.eqb_spec z 0). }
    set (w1 := with_log w (log w ++ [ERead k Objs])) in *.
    assert (Hr1 : heap w1 !! pmgr = Some p) by done.
    assert (Hread : read_objs pmgr (VInt z) w1 =
                    (Val obj, with_log w1 (log w1 ++ [ERead k Objs]))).
    { by apply run_read_objs. }
    assert (Hlk : linked_config pmgr (VInt z) w1 =
                  (Val (default VNone (obj !! "config")),
                   with_log w (log w ++ [ERead k Objs; ERead k Objs]))).
    { unfold linked_config, try_except.
      erewrite run_bind_val by exact Hread.
      assert (Hlog : with_log w1 (log w1 ++ [ERead k Objs]) =
                     with_log w (log w ++ [ERead k Objs; ERead k Objs])).
      { unfold w1, with_log. simpl. by rewrite <- app_assoc. }
      unfold dict_get. rewrite Hlog. by destruct (obj !! "config"). }
    rewrite Hstart, run_bind. cbn [mret M_ret]. rewrite Hz, Ht. cbn [negb].
    erewrite run_bind_val by exact Hlk.
    split.
    + intros Hc. destruct (obj !! "config") as [c|]; simpl; [by rewrite Hc|done].
    + intros c Hc Htc Hnone. rewrite Hc. simpl. rewrite Htc. cbn [negb].
      rewrite run_bind. unfold read_cfgs.
      erewrite run_bind_val by (by apply run_deref).
      rewrite run_bind. cbn [emit]. rewrite Hnone. cbn [raise].
      unfold with_log. simpl. by rewrite <- app_assoc.
Qed.

End DiffFacts.

Lemma Diff_without_configuration_witness :
  let w := with_heap world0 [mkPmgr "ims_motor" "xpp" ∅ ∅] in
  Diff utlp0 motor "xpp" 0%nat (VStr "001") false w =
  (Val tt, with_log w (log w ++ [ERead xpp Objs])).
Proof.
  intros w.
  destruct (Diff_without_configuration utlp0 motor "xpp" 0%nat (VStr "001") false w
              (mkPmgr "ims_motor" "xpp" ∅ ∅) (VStr "001")) as [H _].
  - reflexivity.
  - vm_compute; reflexivity.
  - apply H. reflexivity.
Defined.

(** * Views are refreshed before they are read again *)

Lemma stale_read_app l1 : forall d l2,
  stale_read d (l1 ++ l2) = stale_read d l1 || stale_read (pending d l1) l2.
Proof.
  induction l1 as [|e l1 IH]; intros d l2; [done|].
  destruct e; simpl; rewrite ?IH; try done.
  by rewrite orb_assoc.
Qed.

Lemma pending_app l1 : forall d l2,
  pending d (l1 ++ l2) = pending (pending d l1) l2.
Proof.
  induction l1 as [|e l1 IH]; intros d l2; [done|].
  destruct e; simpl; by rewrite ?IH.
Qed.

Lemma fresh_bind {A B} (m : M A) (f : A -> M B) :
  fresh_reads m -> (forall a, fresh_reads (f a)) -> fresh_reads (m ≫= f).
Proof.
  intros Hm Hf w. rewrite run_bind.
  destruct (Hm w) as (l1 & Hl1 & Hs1 & Hp1).
  destruct (m w) as [[a|] w1] eqn:Hmw; simpl in *.
  - destruct (Hf a w1) as (l2 & Hl2 & Hs2 & Hp2).
    exists (l1 ++ l2). rewrite Hl2, Hl1, <- app_assoc. split; [done|].
    rewrite stale_read_app, pending_app, Hs1, (Hp1 a eq_refl). by split.
  - exists l1. split; [done|]. split; [done|]. intros a Ha. discriminate.
Qed.

(** A computation that makes no call. *)
Lemma fresh_silent {A} (m : M A) :
  (forall w, log (m w).2 = log w) -> fresh_reads m.
Proof. intros H w. exists []. rewrite H, app_nil_r. done. Qed.

Lemma fresh_ret {A} (a : A) : fresh_reads (mret a).
Proof. by apply fresh_silent. Qed.

Lemma fresh_raise {A} : fresh_reads (@raise A).
Proof. by apply fresh_silent. Qed.

Lemma fresh_get_world : fresh_reads get_world.
Proof. by apply fresh_silent. Qed.

Lemma fresh_dict_get (d : Dict) f : fresh_reads (dict_get d f).
Proof. apply fresh_silent. intros w. unfold dict_get. by destruct (d !! f). Qed.

Lemma fresh_as_str v : fresh_reads (as_str v).
Proof. apply fresh_silent. intros w. by destruct v. Qed.

Lemma fresh_deref r : fresh_reads (deref r).
Proof. apply fresh_silent. intros w. unfold deref. by destruct (heap w !! r). Qed.

Lemma fresh_store r p : fresh_reads (store r p).
Proof. by apply fresh_silent. Qed.

Lemma fresh_alloc p : fresh_reads (alloc p).
Proof. by apply fresh_silent. Qed.

Lemma fresh_pv_get n : fresh_reads (pv_get n).
Proof. apply fresh_silent. intros w. unfold pv_get. by destruct (live w !! n). Qed.

Lemma fresh_raw_input : fresh_reads raw_input.
Proof. apply fresh_silent. intros w. unfold raw_input. by destruct (stdin w). Qed.

Lemma fresh_attempt : fresh_reads attempt.
Proof. apply fresh_silent. intros w. unfold attempt. by destruct (script w). Qed.

Lemma fresh_set_live l : fresh_reads (set_live l).
Proof. by apply fresh_silent. Qed.

(** A call that is not a write. *)
Lemma fresh_emit e : is_write e = false -> fresh_reads (emit e).
Proof.
  intros He w. exists [e]. split; [done|]. destruct e; try done.
Qed.

Create HintDb fresh.

#[global] Hint Resolve fresh_ret fresh_raise fresh_get_world fresh_dict_get
  fresh_as_str fresh_deref fresh_store fresh_alloc fresh_pv_get
  fresh_raw_input fresh_attempt fresh_set_live : fresh.

Ltac fresh_step :=
  lazymatch goal with
  | |- fresh_reads (mbind _ _) => apply fresh_bind; [|intros ?]
  | |- fresh_reads (emit _) => apply fresh_emit; reflexivity
  | |- fresh_reads (match ?x with _ => _ end) => destruct x eqn:?
  | |- fresh_reads (let _ := _ in _) => cbv zeta
  | |- fresh_reads _ => solve [eauto with fresh]
  end.

Ltac fresh_go := repeat fresh_step.

Lemma fresh_read_objs r k : fresh_reads (read_objs r k).
Proof. unfold read_objs. fresh_go. Qed.

Lemma fresh_read_cfgs r k : fresh_reads (read_cfgs r k).
Proof. unfold read_cfgs. fresh_go. Qed.

Lemma fresh_getObjWithSN r sn : fresh_reads (getObjWithSN r sn).
Proof. unfold getObjWithSN. fresh_go. Qed.

Lemma fresh_allCfgNames r : fresh_reads (allCfgNames r).
Proof. unfold allCfgNames. fresh_go. Qed.

Lemma fresh_cfgFromName r n : fresh_reads (cfgFromName r n).
Proof. unfold cfgFromName. fresh_go. Qed.

Lemma fresh_get_all_SN r : fresh_reads (get_all_SN r).
Proof. unfold get_all_SN. fresh_go. Qed.

Lemma fresh_updateTables r : fresh_reads (updateTables r).
Proof. unfold updateTables. fresh_go. Qed.

Lemma fresh_getPmgr t h : fresh_reads (getPmgr t h).
Proof. unfold getPmgr. fresh_go. Qed.

Lemma fresh_objApply r i : fresh_reads (objApply r i).
Proof. unfold objApply. fresh_go. Qed.

#[global] Hint Resolve fresh_read_objs fresh_read_cfgs fresh_getObjWithSN
  fresh_allCfgNames fresh_cfgFromName fresh_get_all_SN fresh_updateTables
  fresh_getPmgr fresh_objApply : fresh.

Lemma writes_mutate {A} r op (failed : A) run : writes_on r (mutate r op failed run).
Proof.
  intros w. unfold mutate, deref. rewrite run_bind.
  destruct (heap w !! r) as [p|]; [|done].
  rewrite run_bind. cbn [emit]. rewrite run_bind. unfold attempt. cbn [script with_log].
  assert (Hgo : forall w1,
    let x := (w0 ← get_world;
              match dbs w0 !! key p ≫= run with
              | Some (d, a) => _ ← set_db (key p) d; mret a
              | None => mret failed
              end) w1 in
    heap x.2 = heap w1 /\ log x.2 = log w1).
  { intros w1. simpl. rewrite run_bind. cbn [get_world].
    by destruct (dbs w1 !! key p ≫= run) as [[d a]|]. }
  destruct (script w) as [|[] s].
  - destruct (Hgo (with_log w (log w ++ [EWrite (key p) op]))) as [H1 H2].
    split; [by rewrite H1|]. exists op. by rewrite H2.
  - destruct (Hgo (with_script (with_log w (log w ++ [EWrite (key p) op])) s))
      as [H1 H2].
    split; [by rewrite H1|]. exists op. by rewrite H2.
  - split; [done|]. by exists op.
  - split; [done|]. by exists op.
Qed.

Lemma writes_map {A B} r (m : M A) (g : A -> B) :
  writes_on r m -> writes_on r (a ← m; mret (g a)).
Proof.
  intros Hm w. rewrite run_bind. specialize (Hm w).
  destruct (m w) as [[a|] w1]; simpl in *.
  - destruct Hm as [Hh Hl]. split; [done|].
    destruct (heap w !! r); [done|]. by destruct Hl.
  - destruct Hm as [Hh Hl]. split; [done|].
    destruct (heap w !! r); [done|]. by destruct Hl.
Qed.

Lemma updateTables_log r w p :
  heap w !! r = Some p ->
  log (updateTables r w).2 = log w ++ [ERefresh (key p)].
Proof.
  intros Hr. unfold updateTables.
  erewrite run_bind_val by (by apply run_deref).
  rewrite run_bind. cbn [emit]. rewrite run_bind. cbn [get_world dbs with_log].
  by destruct (dbs w !! key p).
Qed.

Lemma stale_write_refresh k op l :
  stale_read [] (EWrite k op :: ERefresh k :: l) = stale_read [] l /\
  pending [] (EWrite k op :: ERefresh k :: l) = pending [] l.
Proof.
  simpl. rewrite filter_cons_False by (intros H; by apply H).
  done.
Qed.

Lemma fresh_write_refresh {A B} r (m : M A) (k : A -> M B) :
  writes_on r m -> (forall a, fresh_reads (k a)) ->
  fresh_reads (a ← m; _ ← updateTables r; k a).
Proof.
  intros Hm Hk w. rewrite run_bind. destruct (Hm w) as [Hheap Hlog].
  destruct (heap w !! r) as [p|] eqn:Hr.
  - destruct Hlog as [op Hlog].
    destruct (m w) as [[a|] w1]; simpl in *.
    + rewrite run_bind.
      assert (Hr1 : heap w1 !! r = Some p) by (by rewrite Hheap).
      pose proof (updateTables_log r w1 p Hr1) as Hup.
      destruct (updateTables r w1) as [[[]|] w2]; simpl in *.
      * destruct (Hk a w2) as (l3 & Hl3 & Hs3 & Hp3).
        exists (EWrite (key p) op :: ERefresh (key p) :: l3).
        destruct (stale_write_refresh (key p) op l3) as [-> ->].
        split; [|done]. rewrite Hl3, Hup, Hlog, <- !app_assoc. done.
      * exists [EWrite (key p) op; ERefresh (key p)].
        split; [by rewrite Hup, Hlog, <- app_assoc|].
        destruct (stale_write_refresh (key p) op []) as [-> ->]. done.
    + exists [EWrite (key p) op]. done.
  - destruct Hlog as [Hlog Hexn].
    destruct (m w) as [[a|] w1]; simpl in *; [done|].
    exists []. rewrite app_nil_r. done.
Qed.

Lemma fresh_write_refresh_last {A} r (m : M A) :
  writes_on r m -> fresh_reads (a ← m; updateTables r).
Proof.
  intros Hm w.
  destruct (fresh_write_refresh r m (fun _ => mret tt) Hm (fun _ => fresh_ret tt) w)
    as (l & Hl & Hs & Hp).
  assert (Heq : (a ← m; updateTables r) w =
                (a ← m; _ ← updateTables r; mret tt) w).
  { rewrite !run_bind. destruct (m w) as [[a|] w1]; [|done].
    rewrite run_bind. by destruct (updateTables r w1) as [[[]|] w2]. }
  rewrite Heq. eauto.
Qed.

Lemma writes_transaction r m i d : writes_on r (transaction r m i d).
Proof. destruct m; apply writes_mutate. Qed.

Lemma writes_objUpdate r i d : writes_on r (objUpdate r i d).
Proof. apply writes_mutate. Qed.

Lemma writes_setObjCfg r a b : writes_on r (setObjCfg r a b).
Proof. apply writes_mutate. Qed.

Lemma writes_newConfig r d n : writes_on r (newConfig r d n).
Proof. apply writes_mutate. Qed.

Lemma writes_cfgUpdate r i d : writes_on r (cfgUpdate r i d).
Proof. unfold cfgUpdate. apply writes_map, writes_mutate. Qed.

#[global] Hint Resolve writes_transaction writes_objUpdate writes_setObjCfg
  writes_newConfig writes_cfgUpdate : fresh.

(** A step through a computation; a write is taken with the refresh
    that follows it. *)
Ltac fresh_walk :=
  lazymatch goal with
  | |- fresh_reads (mbind _ _) =>
      first [ apply fresh_write_refresh; [solve [eauto with fresh]|intros ?]
            | apply fresh_write_refresh_last; solve [eauto with fresh]
            | apply fresh_bind; [|intros ?] ]
  | |- fresh_reads (emit _) => apply fresh_emit; reflexivity
  | |- fresh_reads (match ?x with _ => _ end) => destruct x eqn:?
  | |- fresh_reads (let _ := _ in _) => cbv zeta
  | |- fresh_reads _ => solve [eauto with fresh]
  end.

Lemma fresh_try_print_diff U r a b c d v kw :
  fresh_reads (try_except (print_diff U r a b c d v kw) (mret tt)).
Proof.
  intros w. unfold try_except, print_diff, deref. rewrite run_bind.
  destruct (heap w !! r) as [p|]; simpl.
  - destruct (printDiff U p a b c d v kw) as [report|]; simpl.
    + by exists [EDiff report].
    + exists []. by rewrite app_nil_r.
  - exists []. by rewrite app_nil_r.
Qed.

Lemma fresh_linked_config r i : fresh_reads (linked_config r i).
Proof.
  intros w. unfold linked_config, try_except, read_objs, deref.
  rewrite !run_bind.
  destruct (heap w !! r) as [p|]; simpl.
  - rewrite run_bind. cbn [emit].
    exists [ERead (key p) Objs]. split; [|done].
    destruct (tbl_get (objs p) i) as [obj|]; simpl; [|done].
    unfold dict_get. by destruct (obj !! "config").
  - exists []. by rewrite app_nil_r.
Qed.

#[global] Hint Resolve fresh_try_print_diff fresh_linked_config : fresh.

Section Fresh.

Variable U : Utlp.

Lemma fresh_gather_names objType hutches st :
  fresh_reads (gather_names objType hutches st).
Proof.
  revert st. induction hutches as [|h hs IH]; intros [[r names] name]; simpl.
  - repeat fresh_walk.
  - repeat fresh_walk.
Qed.

Lemma fresh_not_yes c : fresh_reads (not_yes c).
Proof. destruct c; simpl; repeat fresh_walk. Qed.

Lemma fresh_confirm_loop turns names confirm cfgName :
  fresh_reads (confirm_loop turns names confirm cfgName).
Proof.
  revert confirm cfgName.
  induction turns as [|n IH]; intros confirm cfgName; simpl.
  - apply fresh_bind; [apply fresh_not_yes|intros []; repeat fresh_walk].
  - apply fresh_bind; [apply fresh_not_yes|intros []; repeat fresh_walk].
Qed.

Hint Resolve fresh_gather_names fresh_confirm_loop : fresh.

Lemma fresh_apply_tail PV hutches objType pmgr objID obj verbose dumb
    dumb_cfg dumb_confirm name :
  fresh_reads (apply_tail U PV hutches objType pmgr objID obj verbose dumb
                 dumb_cfg dumb_confirm name).
Proof.
  unfold apply_tail, apply_name, apply_dumb, apply_push. repeat fresh_walk.
Qed.

(** X8: among the calls of a run
    of [applyConfig] no view of a registry is read after a write to
    that registry with no [updateTables] between the two, and a run
    that returns leaves no write without its refresh. *)
Theorem applyConfig_refreshes_before_reading PV hutches objType SN verbose
    zenity dumb dumb_cfg dumb_confirm name :
  fresh_reads (applyConfig U PV hutches objType SN verbose zenity dumb dumb_cfg
                 dumb_confirm name).
Proof.
  unfold applyConfig. apply fresh_bind; [apply fresh_get_world|]. intros w.
  destruct (getMostRecentObj U w hutches SN objType verbose) as [objID [p|]];
    [|apply fresh_ret].
  destruct (negb (truthy objID)); [apply fresh_ret|].
  apply fresh_bind; [apply fresh_alloc|]. intros pmgr.
  apply fresh_bind; [|intros obj; apply fresh_apply_tail].
  unfold apply_rec_base. repeat fresh_walk.
Qed.

Lemma fresh_import_loop hutch pmgr SNs update verbose motors :
  fresh_reads (import_loop U hutch pmgr SNs update verbose motors).
Proof.
  induction motors as [|[m cfg_path] motors IH]; simpl.
  - apply fresh_ret.
  - apply fresh_bind; [|intros _; apply IH].
    unfold import_motor, import_dumb, import_name. cbv zeta.
    repeat fresh_walk.
Qed.

(** X9: among the calls of a
    run of [importConfigs] no view of a registry is read after a write
    to that registry with no [updateTables] between the two: every
    [cfgUpdate] and [newConfig] is followed by [updateTables] before
    the next turn of the loop reads the names. *)
Theorem importConfigs_refreshes_before_reading hutch pmgr path update verbose :
  fresh_reads (importConfigs U hutch pmgr path update verbose).
Proof.
  unfold importConfigs. cbv zeta.
  apply fresh_bind; [apply fresh_get_all_SN|intros SNs; apply fresh_import_loop].
Qed.

End Fresh.

Lemma fresh_for_each {A} (body : A -> M unit) (l : list A) :
  (forall a, fresh_reads (body a)) -> fresh_reads (for_each body l).
Proof.
  intros Hb. induction l as [|a l IH]; simpl.
  - apply fresh_ret.
  - apply fresh_bind; [apply Hb|intros _; apply IH].
Qed.

(** X10: among the calls of a run
    of the [changesn] routine no view of a registry is read after a
    write to that registry with no [updateTables] between the two: the
    serial number printed at the end is read after the refresh. *)
Theorem changesn_refreshes_before_reading hutches objType oldSN newSN verbose :
  fresh_reads (changesn hutches objType oldSN newSN verbose).
Proof.
  unfold changesn. destruct (_ || _); [apply fresh_ret|]. cbv zeta.
  apply fresh_for_each. intros h. unfold changesn_hutch. repeat fresh_walk.
Qed.

(** * What [applyConfig] and [importConfigs] leave alone *)

Lemma shape_same_inert : Inert shape_same.
Proof.
  split; [split|..]; unfold shape_same; try done.
  intros w1 w2 w3 H1 H2 k. by rewrite H2.
Qed.

#[global] Existing Instance shape_same_inert.

Lemma shape_same_insert w k db d :
  dbs w !! k = Some db -> shape d = shape db ->
  shape_same w (with_dbs w (<[k := d]> (dbs w))).
Proof.
  intros Hdb He k'. simpl. destruct (decide (k' = k)) as [->|Hne].
  - rewrite lookup_insert_eq, Hdb. simpl. by rewrite He.
  - by rewrite lookup_insert_ne.
Qed.

Lemma shape_same_objectChange r i d : keeps shape_same (objectChange r i d).
Proof.
  apply keeps_mutate; [apply _|].
  intros w k db d' a Hdb Hrun. apply (shape_same_insert w k db); [done|].
  apply bind_Some in Hrun as (old & Hold & Hrun).
  destruct i as [|z|]; try done. injection Hrun as <- <-.
  unfold shape. simpl. f_equal. simpl in Hold.
  rewrite dom_insert_L. apply elem_of_dom_2 in Hold. set_solver.
Qed.

Lemma shape_same_setObjCfg r a b : keeps shape_same (setObjCfg r a b).
Proof.
  apply keeps_mutate; [apply _|].
  intros w k db d' x Hdb Hrun. apply (shape_same_insert w k db); [done|].
  apply bind_Some in Hrun as (old & Hold & Hrun).
  apply bind_Some in Hrun as (c & _ & Hrun).
  destruct a as [|z|]; try done. injection Hrun as <- <-.
  unfold shape. simpl. f_equal. simpl in Hold.
  rewrite dom_insert_L. apply elem_of_dom_2 in Hold. set_solver.
Qed.

Lemma shape_same_transaction_obj r i d :
  keeps shape_same (transaction r objectChange_ i d).
Proof. apply shape_same_objectChange. Qed.

#[global] Hint Resolve shape_same_objectChange shape_same_setObjCfg
  shape_same_transaction_obj : keeps.

Section ApplyShape.

Variable U : Utlp.

Lemma shape_same_gather objType hutches st :
  keeps shape_same (gather_names objType hutches st).
Proof.
  revert st. induction hutches as [|h hs IH]; intros [[r names] name]; simpl.
  - keeps_go.
  - keeps_go.
Qed.

Lemma shape_same_confirm turns names confirm cfgName :
  keeps shape_same (confirm_loop turns names confirm cfgName).
Proof.
  revert confirm cfgName.
  induction turns as [|n IH]; intros confirm cfgName; simpl.
  - apply keeps_bind; [apply _|destruct confirm; simpl; keeps_go|intros []; keeps_go].
  - apply keeps_bind; [apply _|destruct confirm; simpl; keeps_go|intros []; keeps_go].
Qed.

Hint Resolve shape_same_gather shape_same_confirm : keeps.

(** X11: whatever its arguments
    and the outcomes of its calls, [applyConfig] leaves every
    configuration record of every registry as it was, and adds or
    removes no object record: all it changes in a registry is fields
    of objects that exist. *)
Theorem applyConfig_changes_object_fields_only PV hutches objType SN verbose
    zenity dumb dumb_cfg dumb_confirm name w :
  shape_same w (applyConfig U PV hutches objType SN verbose zenity dumb dumb_cfg
                  dumb_confirm name w).2.
Proof.
  revert w. change (keeps shape_same (applyConfig U PV hutches objType SN verbose
                      zenity dumb dumb_cfg dumb_confirm name)).
  unfold applyConfig, apply_rec_base, apply_tail, apply_name, apply_dumb, apply_push.
  keeps_go.
Qed.

Lemma grows_import_loop_add hutch pmgr SNs verbose motors :
  keeps grows (import_loop U hutch pmgr SNs false verbose motors).
Proof.
  induction motors as [|[m cfg_path] motors IH]; simpl.
  - keeps_go.
  - apply keeps_bind; [apply _| |intros _; apply IH].
    unfold import_motor, import_dumb, import_name. cbv zeta. cbn [negb]. keeps_go.
Qed.

(** X12: without [update],
    [importConfigs] changes no record: every configuration and every
    object of every registry is still there after the run, with the
    fields it had. *)
Theorem import_without_update_only_adds hutch pmgr path verbose w :
  let w' := (importConfigs U hutch pmgr path false verbose w).2 in
  grows w w' /\
  (forall k id d, db_cfg w k id = Some d -> db_cfg w' k id = Some d) /\
  (forall k id d, db_obj w k id = Some d -> db_obj w' k id = Some d).
Proof.
  intros w'.
  assert (H : grows w w').
  { revert w w'. change (keeps grows (importConfigs U hutch pmgr path false verbose)).
    unfold importConfigs. cbv zeta.
    apply keeps_bind; [apply _|keeps_go|intros SNs; apply grows_import_loop_add]. }
  split; [exact H|]. split; intros k id d Hd.
  - by eapply grows_db_cfg.
  - by eapply grows_db_obj.
Qed.

End ApplyShape.

(** * [saveConfig] when the object cannot be created *)

Lemma run_allCfgNames r w p :
  heap w !! r = Some p ->
  allCfgNames r w =
  (Val (names_of (cfgs p)), with_log w (log w ++ [ERead (key p) Cfgs])).
Proof.
  intros H. unfold allCfgNames.
  erewrite run_bind_val by (by apply run_deref). reflexivity.
Qed.

Lemma run_mutate_fails {A} r op (failed : A) run w p s :
  heap w !! r = Some p -> script w = Fails :: s ->
  mutate r op failed run w =
  (Val failed, with_script (with_log w (log w ++ [EWrite (key p) op])) s).
Proof.
  intros Hr Hs. unfold mutate.
  erewrite run_bind_val by (by apply run_deref).
  rewrite run_bind. cbn [emit]. rewrite run_bind. unfold attempt.
  cbn [script with_log]. by rewrite Hs.
Qed.

Section SaveFailure.

Variable U : Utlp.

(** X13: when no object of the
    registry has the serial number of the motor and [newObject] fails,
    [saveConfig] returns at once: the registries are as they were, no
    configuration is made, and the calls are the two reads and the
    write that failed. *)
Theorem saveConfig_failed_object_creation PV hutch pmgr SN verbose zenity
    rename w p sn n s :
  heap w !! pmgr = Some p ->
  let objDict := getObjVals U (live w) p PV (Some rename) in
  objDict !! "FLD_SN" = Some sn ->
  objDict !! "name" = Some n ->
  (rename = false -> is_Some (live w !! (PV +:+ ".DESC"))) ->
  truthy (find_sn (objs p) sn) = false ->
  script w = Fails :: s ->
  let out := saveConfig U PV hutch pmgr SN verbose zenity rename w in
  out.1 = Val tt /\ dbs out.2 = dbs w /\ heap out.2 = heap w /\
  log out.2 =
    log w ++ [ERead (key p) Cfgs; ERead (key p) Objs;
              EWrite (key p)
                (ObjectNew (<["name" := VStr (nextObjName U p n)]> objDict))].
Proof.
  intros Hr objDict Hsn Hname Hdesc Hnone Hs out.
  assert (Hout : out =
    (Val tt,
     with_script
       (with_log w
          (log w ++ [ERead (key p) Cfgs; ERead (key p) Objs;
                     EWrite (key p)
                       (ObjectNew (<["name" := VStr (nextObjName U p n)]> objDict))]))
       s)); [|by rewrite Hout].
  unfold out, saveConfig. rewrite run_bind. cbn [get_world].
  erewrite run_bind_val by (by apply run_deref). cbv zeta. fold objDict.
  erewrite run_bind_val by (by apply run_allCfgNames).
  set (w1 := with_log w _).
  assert (Hnm : exists v, (if rename then dict_get objDict "name"
                           else pv_get (PV +:+ ".DESC")) w1 = (Val v, w1)).
  { destruct rename.
    - exists n. by apply run_dict_get.
    - destruct (Hdesc eq_refl) as [d Hd]. exists d. by apply run_pv_get. }
  destruct Hnm as [v Hnm]. erewrite run_bind_val by exact Hnm.
  assert (Hobj : save_object U PV pmgr objDict w1 =
    (Val None,
     with_script
       (with_log w
          (log w ++ [ERead (key p) Cfgs; ERead (key p) Objs;
                     EWrite (key p)
                       (ObjectNew (<["name" := VStr (nextObjName U p n)]> objDict))]))
       s)).
  { unfold save_object.
    erewrite run_bind_val by (by apply run_dict_get).
    erewrite run_bind_val by (by apply run_getObjWithSN).
    rewrite Hnone.
    erewrite run_bind_val by (by apply run_deref).
    rewrite Hname.
    rewrite run_bind. cbn [mret M_ret].
    unfold newObject.
    erewrite run_bind_val by (by apply run_mutate_fails).
    cbn. unfold w1, with_script, with_log. simpl. by rewrite <- !app_assoc. }
  erewrite run_bind_val by exact Hobj. reflexivity.
Qed.

End SaveFailure.

Lemma saveConfig_failed_object_creation_witness :
  let w := with_script (with_heap world0 [mkPmgr "ims_motor" "xpp" ∅ ∅]) [Fails] in
  let out := saveConfig utlp0 motor "xpp" 0%nat (VStr "001") false false true w in
  out.1 = Val tt /\ dbs out.2 = dbs w.
Proof.
  intros w out.
  destruct (saveConfig_failed_object_creation utlp0 motor "xpp" 0%nat (VStr "001")
              false false true w (mkPmgr "ims_motor" "xpp" ∅ ∅) (VStr "001")
              (VStr "slit") []) as (H1 & H2 & _).
  - reflexivity.
  - vm_compute; reflexivity.
  - vm_compute; reflexivity.
  - discriminate.
  - reflexivity.
  - reflexivity.
  - split; [exact H1|exact H2].
Defined.

Section SaveMissingKey.

Variable U : Utlp.

(** X19: when the live values of the
    motor hold no [FLD_SN], [saveConfig] ends with the [KeyError] of
    [objDict["FLD_SN"]] after the one read of the configuration names
    and before anything is written. *)
Theorem saveConfig_without_serial_number PV hutch pmgr SN verbose zenity rename
    w p :
  heap w !! pmgr = Some p ->
  getObjVals U (live w) p PV (Some rename) !! "FLD_SN" = None ->
  let out := saveConfig U PV hutch pmgr SN verbose zenity rename w in
  out = (Exn, with_log w (log w ++ [ERead (key p) Cfgs])).
Proof.
  intros Hr Hnone out. unfold out, saveConfig. clear out.
  rewrite run_bind. cbn [get_world].
  erewrite run_bind_val by (by apply run_deref). cbv zeta.
  erewrite run_bind_val by (by apply run_allCfgNames).
  set (w1 := with_log w _). set (objDict := getObjVals U (live w) p PV (Some rename)).
  assert (Hobj : forall w2, save_object U PV pmgr objDict w2 = (Exn, w2)).
  { intros w2. unfold save_object, dict_get. fold objDict in Hnone. by rewrite Hnone. }
  rewrite run_bind.
  assert (Hname : (if rename then dict_get objDict "name"
                   else pv_get (PV +:+ ".DESC")) w1 = (Exn, w1) \/
                  exists v, (if rename then dict_get objDict "name"
                             else pv_get (PV +:+ ".DESC")) w1 = (Val v, w1)).
  { destruct rename.
    - unfold dict_get. destruct (objDict !! "name"); eauto.
    - unfold pv_get. destruct (live w1 !! (PV +:+ ".DESC")); eauto. }
  destruct Hname as [-> | [v ->]]; [done|].
  rewrite run_bind, Hobj. done.
Qed.

End SaveMissingKey.

Lemma saveConfig_without_serial_number_witness :
  let w := with_live world0 ∅ in
  saveConfig utlp0 motor "xpp" 0%nat (VStr "001") false false true w =
  (Exn, with_log w (log w ++ [ERead xpp Cfgs])).
Proof.
  intros w.
  apply (saveConfig_without_serial_number utlp0 motor "xpp" 0%nat (VStr "001")
           false false true w pmgr0).
  - reflexivity.
  - vm_compute; reflexivity.
Defined.

(** * [applyConfig] when the update of the object fails *)

Section ApplyFailedUpdate.

Variable U : Utlp.

Lemma dbs_same_apply_tail_smart PV hutches objType pmgr objID obj verbose :
  keeps dbs_same (apply_tail U PV hutches objType pmgr objID obj verbose false
                    None true None).
Proof. unfold apply_tail, apply_name, apply_push. keeps_go. Qed.

Lemma apply_tail_smart_pushes PV hutches objType pmgr objID obj verbose w p :
  heap w !! pmgr = Some p ->
  (log w ++ [EApply (key p) objID]) `prefix_of`
  log (apply_tail U PV hutches objType pmgr objID obj verbose false None true
         None w).2.
Proof.
  intros Hr. unfold apply_tail, apply_name.
  rewrite run_bind. cbn [mret M_ret]. rewrite run_bind. cbn [mret M_ret].
  unfold apply_push. rewrite run_bind. cbn [get_world].
  erewrite run_bind_val by (by apply run_deref). cbv zeta.
  apply prefix_bind; [|intros; keeps_go].
  unfold objApply. erewrite run_bind_val by (by apply run_deref).
  rewrite run_bind. cbn [emit].
  set (w1 := with_log w _).
  match goal with |- _ `prefix_of` log (?k w1).2 =>
    assert (Hk : keeps log_ext k) by keeps_go; apply (Hk w1) end.
Qed.

(** C4 fails on the code: [applyConfig] has found the object of the
    motor, whose [rec_base] or [FLD_PORT] is not what the motor shows
    now, and the registry refuses the update of the object.  The
    result of the transaction of line 255 is not looked at: the view is
    refreshed, the object is read again, and [objApply] is called all
    the same, while the record of the registry is the one it was, with
    the address and the port the motor had before. *)
Theorem apply_pushes_after_failed_update PV hutches objType SN verbose zenity
    w z p obj port db s :
  getMostRecentObj U w hutches SN objType verbose = (VInt z, Some p) ->
  z <> 0 ->
  objs p !! z = Some obj ->
  live w !! (PV +:+ ".PORT") = Some port ->
  moved PV port obj ->
  dbs w !! key p = Some db ->
  db_objs db !! z = Some obj ->
  script w = Fails :: s ->
  let run := applyConfig U PV hutches objType SN verbose zenity false None true
               None w in
  (log w ++ [ERead (key p) Objs;
             EWrite (key p) (ObjectChange (VInt z) (relocated PV port obj));
             ERefresh (key p); ERead (key p) Objs;
             EApply (key p) (VInt z)]) `prefix_of` log run.2 /\
  dbs run.2 = dbs w /\
  db_obj run.2 (key p) z = Some obj.
Proof.
  intros Hm Hz Hobj Hport Hmv Hdb Hold Hs run.
  set (pmgr := length (heap w)).
  set (obj' := relocated PV port obj).
  assert (Ht : truthy (VInt z) = true) by (simpl; by destruct (Z.eqb_spec z 0)).
  assert (Hheap : heap (alloc p w).2 !! pmgr = Some p).
  { simpl. unfold pmgr. rewrite lookup_app_r by lia. by rewrite Nat.sub_diag. }
  assert (Hrun : run = (o ← apply_rec_base PV pmgr (VInt z);
     apply_tail U PV hutches objType pmgr (VInt z) o verbose false None true None)
       (alloc p w).2)
    by (by apply applyConfig_resolved).
  set (w0 := with_log (alloc p w).2 (log (alloc p w).2 ++ [ERead (key p) Objs])).
  assert (H1 : transaction pmgr objectChange_ (VInt z) obj' w0 =
               (Val false,
                with_script (with_log w0 (log w0 ++
                   [EWrite (key p) (ObjectChange (VInt z) obj')])) s)).
  { by apply (run_mutate_fails pmgr _ false _ w0 p s). }
  set (w2 := with_script _ _) in H1.
  assert (H2 : updateTables pmgr w2 =
               (Val tt, with_heap (with_log w2 (log w2 ++ [ERefresh (key p)]))
                 (<[pmgr := mkPmgr (p_type p) (p_hutch p) (db_objs db) (db_cfgs db)]>
                    (heap w2)))).
  { by apply run_updateTables. }
  set (w3 := with_heap _ _) in H2.
  set (p3 := mkPmgr (p_type p) (p_hutch p) (db_objs db) (db_cfgs db)).
  assert (Hh3 : heap w3 !! pmgr = Some p3).
  { unfold w3. simpl. apply list_lookup_insert_eq. unfold pmgr.
    rewrite length_app. simpl. lia. }
  assert (H3 : read_objs pmgr (VInt z) w3 =
               (Val obj, with_log w3 (log w3 ++ [ERead (key p) Objs]))).
  { by apply (run_read_objs pmgr (VInt z) w3 p3). }
  set (w1 := with_log w3 _) in H3.
  assert (Hrb : apply_rec_base PV pmgr (VInt z) (alloc p w).2 = (Val obj, w1)).
  { erewrite apply_rec_base_moved by done. fold w0.
    erewrite run_bind_val by exact H1.
    erewrite run_bind_val by exact H2. exact H3. }
  assert (Htail : run = apply_tail U PV hutches objType pmgr (VInt z) obj verbose
                          false None true None w1).
  { rewrite Hrun. by erewrite run_bind_val by exact Hrb. }
  assert (Hdbs : dbs run.2 = dbs w).
  { rewrite Htail.
    apply (dbs_same_apply_tail_smart PV hutches objType pmgr (VInt z) obj verbose w1). }
  split; [|split; [exact Hdbs|]].
  - rewrite Htail.
    pose proof (apply_tail_smart_pushes PV hutches objType pmgr (VInt z) obj
                  verbose w1 p3 Hh3) as Hp.
    assert (Hlog : log w1 ++ [EApply (key p3) (VInt z)] =
                   log w ++ [ERead (key p) Objs;
                             EWrite (key p) (ObjectChange (VInt z) obj');
                             ERefresh (key p); ERead (key p) Objs;
                             EApply (key p) (VInt z)]).
    { simpl. by rewrite <- !app_assoc. }
    by rewrite <- Hlog.
  - unfold db_obj. rewrite Hdbs, Hdb. exact Hold.
Qed.

End ApplyFailedUpdate.

(** The run on the motor of serial number 001, which the registry has
    at [XPP:USR:MMS:07] and which answers at [XPP:USR:MMS:01]: the
    update fails, the configuration is pushed, and it goes to the
    process variables of the old address. *)
Lemma apply_pushes_after_failed_update_witness :
  let w := with_script world0 [Fails] in
  let run := applyConfig utlp0 motor ["xpp"] "ims_motor" (VStr "001") false false
               false None true None w in
  run.1 = Val tt /\
  moved motor (VStr "digi-02") motor_obj /\
  db_obj run.2 xpp 7 = Some motor_obj /\
  motor_obj !! "rec_base" = Some (VStr "XPP:USR:MMS:07") /\
  is_apply <$> log run.2 = [false; false; false; false; true; false] /\
  live w !! "XPP:USR:MMS:07.FLD_ACCL" = None /\
  live run.2 !! "XPP:USR:MMS:07.FLD_ACCL" = Some (VInt 1) /\
  live run.2 !! "XPP:USR:MMS:01.FLD_ACCL" = Some (VInt 5).
Proof.
  intros w run.
  assert (H2 : moved motor (VStr "digi-02") motor_obj).
  { exists (VStr "XPP:USR:MMS:07"). split; [vm_compute; reflexivity|].
    left. discriminate. }
  destruct (apply_pushes_after_failed_update utlp0 motor ["xpp"] "ims_motor"
              (VStr "001") false false w 7 pmgr0 motor_obj (VStr "digi-02")
              xpp_db []) as (_ & _ & Hobj).
  - vm_compute; reflexivity.
  - discriminate.
  - vm_compute; reflexivity.
  - vm_compute; reflexivity.
  - exact H2.
  - vm_compute; reflexivity.
  - vm_compute; reflexivity.
  - reflexivity.
  - split; [vm_compute; reflexivity|]. split; [exact H2|]. split; [exact Hobj|].
    split; [vm_compute; reflexivity|]. split; [vm_compute; reflexivity|].
    split; [vm_compute; reflexivity|]. split; [vm_compute; reflexivity|].
    vm_compute; reflexivity.
Defined.

(** * Leaving the dialogue of [dmapply] with [quit] *)



Section ApplyQuit.

Variable U : Utlp.




End ApplyQuit.


(** * A batch of [importConfigs] and a record that cannot be created *)



Section ImportBatch.

Variable U : Utlp.



End ImportBatch.


(** * A legacy file without a description *)

Section ImportMissingKey.

Variable U : Utlp.

Lemma import_motor_no_desc hutch pmgr SNs update verbose cfg_path w :
  getImportFieldDict U cfg_path !! "FLD_DESC" = None ->
  (import_motor U hutch pmgr SNs update verbose cfg_path w).1 = Exn.
Proof.
  intros Hnone. unfold import_motor. cbv zeta. rewrite run_bind.
  destruct (allCfgNames pmgr w) as [[names|] w1]; [|done].
  rewrite run_bind.
  destruct (updateTables pmgr w1) as [[[]|] w2]; [|done].
  rewrite run_bind. unfold import_name, dict_get. rewrite Hnone. done.
Qed.

Lemma import_loop_no_desc hutch pmgr SNs update verbose motors m cfg_path :
  (m, cfg_path) ∈ motors ->
  getImportFieldDict U cfg_path !! "FLD_DESC" = None ->
  forall w, (import_loop U hutch pmgr SNs update verbose motors w).1 = Exn.
Proof.
  intros Hin Hnone.
  induction motors as [|[m' path'] motors IH]; intros w.
  { by apply elem_of_nil in Hin. }
  cbn [import_loop]. rewrite run_bind.
  apply elem_of_cons in Hin as [[= <- <-]|Hin].
  - pose proof (import_motor_no_desc hutch pmgr SNs update verbose cfg_path w Hnone)
      as Hm.
    by destruct (import_motor U hutch pmgr SNs update verbose cfg_path w)
      as [[[]|] w1].
  - destruct (import_motor U hutch pmgr SNs update verbose path' w)
      as [[[]|] w1]; [|done].
    by apply IH.
Qed.

Lemma import_motor_no_desc_run hutch pmgr SNs update verbose cfg_path w :
  getImportFieldDict U cfg_path !! "FLD_DESC" = None ->
  import_motor U hutch pmgr SNs update verbose cfg_path w =
  (allNames ← allCfgNames pmgr; _ ← updateTables pmgr; raise) w.
Proof.
  intros Hnone. unfold import_motor. cbv zeta. rewrite !run_bind.
  destruct (allCfgNames pmgr w) as [[names|] w1]; [|done].
  rewrite !run_bind.
  destruct (updateTables pmgr w1) as [[[]|] w2]; [|done].
  rewrite run_bind. unfold import_name, dict_get. rewrite Hnone. done.
Qed.

(** X15: a legacy file whose
    fields have no [FLD_DESC] makes [importConfigs] end with the
    [KeyError] of [cfgDict["FLD_DESC"]], whatever the other files are;
    when it is the first file, the registries are as they were. *)
Theorem import_stops_at_file_without_description hutch pmgr path update verbose
    m cfg_path w :
  (m, cfg_path) ∈ createmotordb U hutch path ->
  getImportFieldDict U cfg_path !! "FLD_DESC" = None ->
  (importConfigs U hutch pmgr path update verbose w).1 = Exn /\
  (forall rest,
     createmotordb U hutch path = (m, cfg_path) :: rest ->
     dbs (importConfigs U hutch pmgr path update verbose w).2 = dbs w).
Proof.
  intros Hin Hnone. split.
  - unfold importConfigs. cbv zeta. rewrite run_bind.
    destruct (get_all_SN pmgr w) as [[SNs|] w1]; [|done].
    by eapply import_loop_no_desc.
  - intros rest Hdb.
    assert (Hk : keeps dbs_same
              (pmgr_SNs ← get_all_SN pmgr;
               allNames ← allCfgNames pmgr; _ ← updateTables pmgr; @raise unit))
      by keeps_go.
    specialize (Hk w). unfold dbs_same in Hk. rewrite <- Hk.
    unfold importConfigs. cbv zeta. rewrite Hdb. cbn [import_loop].
    rewrite !run_bind.
    destruct (get_all_SN pmgr w) as [[SNs|] w1]; [|done].
    rewrite run_bind, import_motor_no_desc_run by done.
    assert (Hexn : ((allNames ← allCfgNames pmgr; _ ← updateTables pmgr; @raise unit)
                      w1).1 = Exn).
    { rewrite run_bind. destruct (allCfgNames pmgr w1) as [[names|] w2]; [|done].
      rewrite run_bind. by destruct (updateTables pmgr w2) as [[[]|] w3]. }
    by destruct ((allNames ← allCfgNames pmgr; _ ← updateTables pmgr; @raise unit) w1)
      as [[[]|] w2].
Qed.

End ImportMissingKey.

Lemma import_stops_at_file_without_description_witness :
  let U := with_getImportFieldDict utlp0 (fun _ => {["FLD_SN" := VStr "001"]}) in
  (importConfigs U "xpp" 0%nat [] false false world0).1 = Exn.
Proof.
  intros U.
  destruct (import_stops_at_file_without_description U "xpp" 0%nat [] false false
              "001" "001.cfg" world0) as [H _].
  - left.
  - reflexivity.
  - exact H.
Defined.

(** * The loop of [main] over the motors *)

Section MainFacts.

Variable U : Utlp.
Variable dumbMotorCheck : gmap string PyVal -> string -> bool.

Lemma adds_main_hutch_diff a PV objType SN verbose zenity rename hutch :
  arg_diff a = true ->
  keeps (adds harmless) (main_hutch U a PV objType SN verbose zenity rename hutch).
Proof.
  intros Hd. unfold main_hutch. rewrite Hd.
  apply keeps_bind; [apply _| |].
  - unfold getPmgr.
    apply keeps_bind; [apply _|apply keeps_get_world; apply _|]. intros w.
    destruct (dbs w !! (objType, hutch)); [|apply keeps_ret; apply _].
    apply keeps_bind; [apply _|by apply adds_emit|]. intros _.
    apply keeps_bind; [apply _|apply adds_alloc|]. intros r.
    apply keeps_ret; apply _.
  - intros [r|]; [by apply adds_Diff|apply keeps_ret; apply _].
Qed.

Lemma dbs_same_main_hutch_diff a PV objType SN verbose zenity rename hutch :
  arg_diff a = true ->
  keeps dbs_same (main_hutch U a PV objType SN verbose zenity rename hutch).
Proof.
  intros Hd. unfold main_hutch, Diff, linked_config. rewrite Hd. cbv zeta. keeps_go.
Qed.

(** X17: the loop of [main] over the motors
    with the command [diff] changes no registry and pushes nothing to
    the device: the calls it makes are reads, refreshes and reports. *)
Theorem diff_command_changes_nothing a hutches objType SNs verbose zenity rename
    motorPVs w :
  arg_apply a = false -> arg_dmapply a = false -> arg_diff a = true ->
  let w' := (main_motors U dumbMotorCheck a hutches objType SNs verbose zenity
               rename motorPVs w).2 in
  dbs w' = dbs w /\ adds harmless w w'.
Proof.
  intros Ha Hm Hd w'. unfold w'. clear w'.
  assert (Hmotor : forall R : relation World, PreOrder R ->
            keeps R (@raise PyVal) ->
            (forall n, keeps R (pv_get n)) ->
            (forall PV SN h,
               keeps R (main_hutch U a PV objType SN verbose zenity rename h)) ->
            keeps R (main_motors U dumbMotorCheck a hutches objType SNs verbose
                       zenity rename motorPVs)).
  { intros R HR Hraise Hpv Hh. unfold main_motors.
    apply keeps_for_each; [done|]. intros PV. unfold main_motor. rewrite Ha, Hm.
    apply keeps_bind; [done|apply Hpv|]. intros _.
    apply keeps_bind; [done| |].
    - destruct (SNs !! PV); [by apply keeps_ret|done].
    - intros SN. destruct (negb (truthy SN)); [by apply keeps_ret|].
      apply keeps_for_each; [done|]. intros h. apply Hh. }
  split.
  - apply (Hmotor dbs_same _).
    + apply keeps_raise; apply _.
    + intros n. apply keeps_pv_get; apply _.
    + intros. by apply dbs_same_main_hutch_diff.
  - apply (Hmotor (adds harmless) _).
    + apply keeps_raise; apply _.
    + intros n. apply adds_pv_get.
    + intros. by apply adds_main_hutch_diff.
Qed.

(** X18: [apply] on motors that
    [dumbMotorCheck] takes for dumb ones, and [dmapply] on motors it
    takes for smart ones, do nothing at all: the run ends in the state
    it started in. *)
Theorem wrong_kind_of_motor_is_left_alone a hutches objType SNs verbose zenity
    rename motorPVs w :
  (arg_apply a = true /\
   forall PV, PV ∈ motorPVs -> dumbMotorCheck (live w) PV = true) \/
  (arg_apply a = false /\ arg_dmapply a = true /\
   forall PV, PV ∈ motorPVs -> dumbMotorCheck (live w) PV = false) ->
  (main_motors U dumbMotorCheck a hutches objType SNs verbose zenity rename
     motorPVs w).2 = w.
Proof.
  intros Hcase. unfold main_motors.
  induction motorPVs as [|PV PVs IH]; [done|].
  cbn [for_each]. rewrite run_bind.
  assert (Hone : (main_motor U dumbMotorCheck a hutches objType SNs verbose zenity
                    rename PV w).2 = w).
  { unfold main_motor. rewrite run_bind. unfold pv_get.
    destruct (live w !! (PV +:+ ".DESC")); [|done].
    rewrite run_bind. destruct (SNs !! PV) as [SN|]; [|done].
    cbn [mret M_ret]. destruct (negb (truthy SN)); [done|].
    destruct Hcase as [[Ha Hd]|(Ha & Hm & Hd)].
    - rewrite Ha, run_bind. cbn [get_world]. rewrite Hd by left. done.
    - rewrite Ha, Hm, run_bind. cbn [get_world]. rewrite Hd by left. done. }
  destruct (main_motor U dumbMotorCheck a hutches objType SNs verbose zenity
              rename PV w) as [[[]|] w1]; simpl in Hone; subst w1; [|done].
  apply IH. destruct Hcase as [[Ha Hd]|(Ha & Hm & Hd)].
  - left. split; [done|]. intros PV' Hin. apply Hd. by right.
  - right. split; [done|]. split; [done|]. intros PV' Hin. apply Hd. by right.
Qed.

End MainFacts.

Lemma diff_command_changes_nothing_witness :
  dbs (main_motors utlp0 (fun _ _ => false) (mkArgs false false false true)
         ["xpp"] "ims_motor" {[motor := VStr "001"]} false false true [motor]
         world2).2 = dbs world2.
Proof.
  destruct (diff_command_changes_nothing utlp0 (fun _ _ => false)
              (mkArgs false false false true) ["xpp"] "ims_motor"
              {[motor := VStr "001"]} false false true [motor] world2) as [H _].
  - reflexivity.
  - reflexivity.
  - reflexivity.
  - exact H.
Defined.

Lemma wrong_kind_of_motor_is_left_alone_witness :
  (main_motors utlp0 (fun _ _ => true) (mkArgs false true false false)
     ["xpp"] "ims_motor" {[motor := VStr "001"]} false false true [motor]
     world2).2 = world2.
Proof.
  apply (wrong_kind_of_motor_is_left_alone utlp0 (fun _ _ => true)).
  left. split; [reflexivity|]. intros PV _. reflexivity.
Defined.
